(** * Origami logic networks: pleats, gadgets and the network scheduler

    A shallow embedding of [origami.py].  Python objects ([Pleat],
    [Gadget], [Network]) live in a heap and are referred to by address,
    because the program shares them: a gadget keeps the [Pleat] objects it
    resolved when it was connected, while the network keeps a dictionary
    from names to [Pleat] objects.  Methods are computations in a state
    and exception monad; an exception leaves the heap as it was when the
    exception was raised. *)

From stdpp Require Import base list strings.
From Stdlib Require Import ZArith Lia.

Open Scope string_scope.
Open Scope list_scope.
Open Scope nat_scope.

(** ** Python dictionaries

    A [dict] remembers insertion order: assigning to an existing key keeps
    the key's position, assigning to a new key appends it. *)

Abbreviation dict V := (list (string * V)) (only parsing).

Fixpoint dict_get {V} (d : dict V) (k : string) : option V :=
  match d with
  | [] => None
  | (k', v) :: d' => if decide (k = k') then Some v else dict_get d' k
  end.

Fixpoint dict_set {V} (d : dict V) (k : string) (v : V) : dict V :=
  match d with
  | [] => [(k, v)]
  | (k', v') :: d' =>
      if decide (k = k') then (k', v) :: d' else (k', v') :: dict_set d' k v
  end.

Definition dict_mem {V} (d : dict V) (k : string) : bool :=
  match dict_get d k with Some _ => true | None => false end.

Definition dict_keys {V} (d : dict V) : list string := d.*1.

(** ** Objects and the heap *)

(** Addresses of [Pleat], [Gadget] and [Network] objects. *)
Abbreviation ploc := nat (only parsing).
Abbreviation gloc := nat (only parsing).
Abbreviation nloc := nat (only parsing).

(** [Optional[bool]]: [None] is the undefined signal. *)
Definition Signal : Type := option bool.

Record Pleat := mkPleat { name : string; signal : Signal }.

(** The concrete subclass of [Gadget]. *)
Inductive GadgetClass := NOT | AND | OR | NAND.

Record Gadget := mkGadget {
  cls : GadgetClass;
  gadget_id : string;
  input_names : list string;
  output_names : list string;
  inputs : list ploc;
  outputs : list ploc
}.

Record Network := mkNetwork {
  pleats : dict ploc;
  gadgets : list gloc
}.

Record Heap := mkHeap {
  pleat_objs : list Pleat;
  gadget_objs : list Gadget;
  network_objs : list Network
}.

Definition empty_heap : Heap := mkHeap [] [] [].

#[global] Instance Signal_eq_dec : EqDecision Signal := _.
#[global] Instance Pleat_eq_dec : EqDecision Pleat.
Proof. solve_decision. Defined.
#[global] Instance GadgetClass_eq_dec : EqDecision GadgetClass.
Proof. solve_decision. Defined.

(** ** Exceptions and the monad *)

Inductive exn :=
| ValueError (msg : string)
| KeyError (key : string)
| IndexError
| Dangling        (* an address outside the heap; no method creates one *)
| Fuel.           (* the bound of a modelled [while] loop was reached *)

Inductive result (A : Type) :=
| Ok (a : A)
| Raise (e : exn).
Arguments Ok {A} a.
Arguments Raise {A} e.

Definition rbind {A B} (r : result A) (f : A → result B) : result B :=
  match r with Ok a => f a | Raise e => Raise e end.

Definition M (A : Type) : Type := Heap → Heap * result A.

Definition ret {A} (a : A) : M A := λ h, (h, Ok a).
Definition raise {A} (e : exn) : M A := λ h, (h, Raise e).
Definition bind {A B} (m : M A) (f : A → M B) : M B :=
  λ h, match m h with
       | (h', Ok a) => f a h'
       | (h', Raise e) => (h', Raise e)
       end.
Definition lift {A} (r : result A) : M A := λ h, (h, r).

Declare Scope py_scope.
Delimit Scope py_scope with py.
Notation "'do' x <- m ; k" := (bind m (λ x, k))
  (at level 10, x name, m at level 100, k at level 200) : py_scope.
Notation "'exec' m ; k" := (bind m (λ _, k))
  (at level 10, m at level 100, k at level 200) : py_scope.
Notation "'try' x <- m ; k" := (rbind m (λ x, k))
  (at level 10, x name, m at level 100, k at level 200) : py_scope.
Open Scope py_scope.

(** [for x in l: body x] *)
Fixpoint for_ {A} (l : list A) (body : A → M unit) : M unit :=
  match l with
  | [] => ret tt
  | x :: l' => exec body x ; for_ l' body
  end.

(** Dereferencing. *)
Definition get_pleat (p : ploc) : M Pleat :=
  λ h, match pleat_objs h !! p with
       | Some P => (h, Ok P)
       | None => (h, Raise Dangling)
       end.
Definition get_gadget (g : gloc) : M Gadget :=
  λ h, match gadget_objs h !! g with
       | Some G => (h, Ok G)
       | None => (h, Raise Dangling)
       end.
Definition get_network (n : nloc) : M Network :=
  λ h, match network_objs h !! n with
       | Some N => (h, Ok N)
       | None => (h, Raise Dangling)
       end.

Definition put_pleat (p : ploc) (P : Pleat) : M unit :=
  λ h, (mkHeap (<[p := P]> (pleat_objs h)) (gadget_objs h) (network_objs h), Ok tt).
Definition put_gadget (g : gloc) (G : Gadget) : M unit :=
  λ h, (mkHeap (pleat_objs h) (<[g := G]> (gadget_objs h)) (network_objs h), Ok tt).
Definition put_network (n : nloc) (N : Network) : M unit :=
  λ h, (mkHeap (pleat_objs h) (gadget_objs h) (<[n := N]> (network_objs h)), Ok tt).

(** [l[i]] on a Python list. *)
Definition index {A} (l : list A) (i : nat) : M A :=
  match l !! i with Some x => ret x | None => raise IndexError end.

(** ** class Pleat *)

(** [Pleat(name, signal)] *)
Definition new_Pleat (nm : string) (s : Signal) : M ploc :=
  λ h, (mkHeap (pleat_objs h ++ [mkPleat nm s]) (gadget_objs h) (network_objs h),
        Ok (length (pleat_objs h))).

(** [p.signal] *)
Definition get_signal (p : ploc) : M Signal :=
  do P <- get_pleat p ; ret (signal P).

(** [p.signal = s] *)
Definition set_signal (p : ploc) (s : Signal) : M unit :=
  do P <- get_pleat p ; put_pleat p (mkPleat (name P) s).

(** ** class Gadget and its four subclasses *)

(** [Gadget.__init__] *)
Definition new_Gadget (c : GadgetClass) (gid : string)
    (ins outs : list string) : M gloc :=
  λ h, (mkHeap (pleat_objs h) (gadget_objs h ++ [mkGadget c gid ins outs [] []])
               (network_objs h),
        Ok (length (gadget_objs h))).

Definition NOTGadget (gid input_name output_name : string) : M gloc :=
  new_Gadget NOT gid [input_name] [output_name].
Definition ANDGadget (gid input1 input2 output : string) : M gloc :=
  new_Gadget AND gid [input1; input2] [output].
Definition ORGadget (gid input1 input2 output : string) : M gloc :=
  new_Gadget OR gid [input1; input2] [output].
Definition NANDGadget (gid input1 input2 output : string) : M gloc :=
  new_Gadget NAND gid [input1; input2] [output].

(** [self.inputs.append(p)] and [self.outputs.append(p)] *)
Definition append_input (self : gloc) (p : ploc) : M unit :=
  do G <- get_gadget self ;
  put_gadget self (mkGadget (cls G) (gadget_id G) (input_names G) (output_names G)
                            (inputs G ++ [p]) (outputs G)).
Definition append_output (self : gloc) (p : ploc) : M unit :=
  do G <- get_gadget self ;
  put_gadget self (mkGadget (cls G) (gadget_id G) (input_names G) (output_names G)
                            (inputs G) (outputs G ++ [p])).

Definition unresolved_msg (nm gid : string) : string :=
  "Pleat de entrada '" ++ nm ++ "' no encontrado para gadget " ++ gid.

(** [connect_inputs(self, pleats_dict)]; the dictionary passed is always
    the [pleats] of a network, named here by the network's address. *)
Definition connect_inputs (self : gloc) (pleats_dict : nloc) : M unit :=
  do G <- get_gadget self ;
  for_ (input_names G) (λ nm,
    do N <- get_network pleats_dict ;
    match dict_get (pleats N) nm with
    | None => raise (ValueError (unresolved_msg nm (gadget_id G)))
    | Some p => append_input self p
    end).

(** [connect_outputs(self, pleats_dict)] *)
Definition connect_outputs (self : gloc) (pleats_dict : nloc) : M unit :=
  do G <- get_gadget self ;
  for_ (output_names G) (λ nm,
    do N <- get_network pleats_dict ;
    exec (if dict_mem (pleats N) nm then ret tt
          else do p <- new_Pleat nm None ;
               put_network pleats_dict
                 (mkNetwork (dict_set (pleats N) nm p) (gadgets N))) ;
    do N' <- get_network pleats_dict ;
    match dict_get (pleats N') nm with
    | None => raise (KeyError nm)
    | Some p => append_output self p
    end).

(** [[p.signal for p in ps]] *)
Fixpoint signals_of (ps : list ploc) : M (list Signal) :=
  match ps with
  | [] => ret []
  | p :: ps' => do s <- get_signal p ; do ss <- signals_of ps' ; ret (s :: ss)
  end.

Definition is_undefined (s : Signal) : bool :=
  match s with None => true | Some _ => false end.

(** [has_undefined_inputs]: [any(p.signal is None for p in self.inputs)] *)
Definition has_undefined_inputs (self : gloc) : M bool :=
  do G <- get_gadget self ;
  do ss <- signals_of (inputs G) ;
  ret (existsb is_undefined ss).

(** Python's [not], [and], [or] on [Optional[bool]] values. *)
Definition truthy (s : Signal) : bool :=
  match s with Some true => true | _ => false end.
Definition py_not (a : Signal) : Signal := Some (negb (truthy a)).
Definition py_and (a b : Signal) : Signal := if truthy a then b else a.
Definition py_or (a b : Signal) : Signal := if truthy a then a else b.

(** The expression on the right of the assignment in each [evaluate]. *)
Definition gate_expr (c : GadgetClass) (self : gloc) : M Signal :=
  do G <- get_gadget self ;
  match c with
  | NOT => do p <- index (inputs G) 0 ; do a <- get_signal p ; ret (py_not a)
  | AND => do p <- index (inputs G) 0 ; do a <- get_signal p ;
           if truthy a then do q <- index (inputs G) 1 ; get_signal q else ret a
  | OR => do p <- index (inputs G) 0 ; do a <- get_signal p ;
          if truthy a then ret a else do q <- index (inputs G) 1 ; get_signal q
  | NAND => do p <- index (inputs G) 0 ; do a <- get_signal p ;
            do b <- (if truthy a then do q <- index (inputs G) 1 ; get_signal q else ret a) ;
            ret (py_not b)
  end.

(** [evaluate], dispatched on the class of the object. *)
Definition evaluate (self : gloc) : M unit :=
  do G <- get_gadget self ;
  do undefined <- has_undefined_inputs self ;
  do v <- (if undefined then ret None else gate_expr (cls G) self) ;
  do o <- index (outputs G) 0 ;
  set_signal o v.

(** ** class Network *)

(** [Network()] *)
Definition new_Network : M nloc :=
  λ h, (mkHeap (pleat_objs h) (gadget_objs h) (network_objs h ++ [mkNetwork [] []]),
        Ok (length (network_objs h))).

(** [add_pleat(self, name, signal)] *)
Definition add_pleat (self : nloc) (nm : string) (s : Signal) : M unit :=
  do p <- new_Pleat nm s ;
  do N <- get_network self ;
  put_network self (mkNetwork (dict_set (pleats N) nm p) (gadgets N)).

(** [add_gadget(self, gadget)] *)
Definition add_gadget (self : nloc) (gadget : gloc) : M unit :=
  exec connect_inputs gadget self ;
  exec connect_outputs gadget self ;
  do N <- get_network self ;
  put_network self (mkNetwork (pleats N) (gadgets N ++ [gadget])).

(** [set_inputs(self, input_dict)] *)
Definition set_inputs (self : nloc) (input_dict : dict Signal) : M unit :=
  for_ input_dict (λ '(nm, s),
    do N <- get_network self ;
    match dict_get (pleats N) nm with
    | Some p => set_signal p s
    | None => add_pleat self nm s
    end).

(** ** Network.topological_sort

    The method only reads the heap: it looks at [self.gadgets] and at the
    [gadget_id], [input_names] and [output_names] of each gadget.  The
    rest is a computation on local dictionaries, which can fail with a
    [KeyError]. *)

(** The objects behind a list of gadget addresses. *)
Fixpoint get_gadgets (gs : list gloc) : M (list (gloc * Gadget)) :=
  match gs with
  | [] => ret []
  | g :: gs' =>
      do G <- get_gadget g ; do Gs <- get_gadgets gs' ; ret ((g, G) :: Gs)
  end.

(** A loop over a list whose body can raise. *)
Fixpoint rfold {A S} (body : A → S → result S) (l : list A) (s : S) : result S :=
  match l with
  | [] => Ok s
  | x :: l' => try s' <- body x s ; rfold body l' s'
  end.

(** [pleat_to_producer]: the last gadget writing a name wins. *)
Definition pleat_to_producer_of (Gs : list (gloc * Gadget)) : dict string :=
  foldl (λ d gG, foldl (λ d out, dict_set d out (gadget_id gG.2)) d (output_names gG.2))
        [] Gs.

(** [{g.gadget_id: 0 for g in self.gadgets}] *)
Definition in_degree_init (Gs : list (gloc * Gadget)) : dict Z :=
  foldl (λ d gG, dict_set d (gadget_id gG.2) 0%Z) [] Gs.

(** [{g.gadget_id: g for g in self.gadgets}] *)
Definition gadget_map_of (Gs : list (gloc * Gadget)) : dict gloc :=
  foldl (λ d gG, dict_set d (gadget_id gG.2) gG.1) [] Gs.

(** Reading [graph[producer]] on a [defaultdict(set)] creates the entry.
    A set is kept as the list of its members in insertion order. *)
Definition graph_touch (graph : dict (list string)) (producer : string)
    : dict (list string) :=
  match dict_get graph producer with
  | Some _ => graph
  | None => dict_set graph producer []
  end.

(** The body of [for inp in g.input_names]. *)
Definition add_edge (pleat_to_producer : dict string) (consumer inp : string)
    (st : dict (list string) * dict Z) : result (dict (list string) * dict Z) :=
  match dict_get pleat_to_producer inp with
  | None => Ok st
  | Some producer =>
      if bool_decide (producer ≠ "" ∧ producer ≠ consumer) then
        let graph := graph_touch st.1 producer in
        let s := default [] (dict_get graph producer) in
        if bool_decide (consumer ∈ s) then Ok (graph, st.2)
        else match dict_get st.2 consumer with
             | None => Raise (KeyError consumer)
             | Some d => Ok (dict_set graph producer (s ++ [consumer]),
                             dict_set st.2 consumer (d + 1)%Z)
             end
      else Ok st
  end.

(** The loop that fills [graph] and [in_degree]. *)
Definition build_graph (Gs : list (gloc * Gadget))
    : result (dict (list string) * dict Z) :=
  let pleat_to_producer := pleat_to_producer_of Gs in
  rfold (λ gG, rfold (add_edge pleat_to_producer (gadget_id gG.2)) (input_names gG.2))
        Gs ([], in_degree_init Gs).

(** [deque([gid for gid, deg in in_degree.items() if deg == 0])] *)
Definition initial_queue (in_degree : dict Z) : list string :=
  (filter (λ kv, kv.2 = 0%Z) in_degree).*1.

(** The body of [for nbr in graph.get(gid, [])]. *)
Definition visit (nbr : string) (st : dict Z * list string)
    : result (dict Z * list string) :=
  match dict_get st.1 nbr with
  | None => Raise (KeyError nbr)
  | Some d =>
      let in_degree := dict_set st.1 nbr (d - 1)%Z in
      if decide ((d - 1)%Z = 0%Z) then Ok (in_degree, st.2 ++ [nbr])
      else Ok (in_degree, st.2)
  end.

Definition cycle_msg : string := "Ciclo de dependencias detectado en la red".

Section SetOrder.

(** The order in which Python iterates over a [set] of strings is not
    the insertion order; it depends on the hashes of the members.  It is
    a parameter here: [set_iter s] is the order in which the set with
    members [s] (listed in insertion order) is traversed. *)
Variable set_iter : list string → list string.

(** The members visited by [for nbr in graph.get(gid, [])]: a set of the
    graph in its traversal order, or nothing for the default []. *)
Definition neighbours (graph : list (string * list string)) (gid : string)
    : list string :=
  match dict_get graph gid with
  | Some s => set_iter s
  | None => []
  end.

(** [while queue: ...], bounded by [fuel] iterations. *)
Fixpoint kahn (fuel : nat) (graph : dict (list string)) (gadget_map : dict gloc)
    (queue : list string) (order : list gloc) (in_degree : dict Z)
    : result (list gloc) :=
  match queue with
  | [] => Ok order
  | gid :: queue' =>
      match fuel with
      | 0 => Raise Fuel
      | S fuel' =>
          match dict_get gadget_map gid with
          | None => Raise (KeyError gid)
          | Some g =>
              try st <- rfold visit (neighbours graph gid) (in_degree, queue') ;
              kahn fuel' graph gadget_map st.2 (order ++ [g]) st.1
          end
      end
  end.

(** The list [order] when the [while] loop ends. *)
Definition kahn_order (Gs : list (gloc * Gadget)) : result (list gloc) :=
  try st <- build_graph Gs ;
  kahn (length st.2) st.1 (gadget_map_of Gs) (initial_queue st.2) [] st.2.

Definition topological_sort (self : nloc) : M (list gloc) :=
  do N <- get_network self ;
  do Gs <- get_gadgets (gadgets N) ;
  do order <- lift (kahn_order Gs) ;
  if decide (length order ≠ length (gadgets N))
  then raise (ValueError cycle_msg)
  else ret order.

(** ** Network.run

    Printing under [trace] is not modelled.  [run_loop] also reports how
    many passes were made and whether the loop ended by [break]; [run]
    itself returns the snapshot only. *)

(** The body of [for g in execution_order]; returns [old != new]. *)
Definition step (g : gloc) : M bool :=
  do G <- get_gadget g ;
  do old <- signals_of (outputs G) ;
  exec evaluate g ;
  do G' <- get_gadget g ;
  do new <- signals_of (outputs G') ;
  ret (bool_decide (old ≠ new)).

(** One pass; [changed] is the flag. *)
Fixpoint pass (execution_order : list gloc) (changed : bool) : M bool :=
  match execution_order with
  | [] => ret changed
  | g :: rest =>
      do c <- step g ;
      pass rest (if c then true else changed)
  end.

(** [for iteration in range(n)]: the number of passes made, and whether
    the last of them left [changed] false. *)
Fixpoint run_loop (execution_order : list gloc) (n : nat) : M (nat * bool) :=
  match n with
  | 0 => ret (0, false)
  | S n' =>
      do changed <- pass execution_order false ;
      if changed then
        do r <- run_loop execution_order n' ; ret (S r.1, r.2)
      else ret (1, true)
  end.

(** [{name: p.signal for name, p in self.pleats.items()}] *)
Fixpoint snapshot_of (items : dict ploc) (acc : dict Signal) : M (dict Signal) :=
  match items with
  | [] => ret acc
  | (nm, p) :: items' =>
      do s <- get_signal p ; snapshot_of items' (dict_set acc nm s)
  end.

Definition run_stats (self : nloc) (max_iterations : Z)
    : M (nat * bool * dict Signal) :=
  do execution_order <- topological_sort self ;
  do r <- run_loop execution_order (Z.to_nat max_iterations) ;
  do N <- get_network self ;
  do snap <- snapshot_of (pleats N) [] ;
  ret (r, snap).

Definition run (self : nloc) (max_iterations : Z) : M (dict Signal) :=
  do r <- run_stats self max_iterations ; ret r.2.

(** The default [max_iterations]. *)
Definition run_default (self : nloc) : M (dict Signal) := run self 5.

(** ** build_half_adder_network *)

Definition build_half_adder_network : M nloc :=
  do net <- new_Network ;
  exec for_ ["a"; "b"; "and_temp"; "or_temp"; "not_temp"; "sum"; "carry"]
            (λ nm, add_pleat net nm None) ;
  do g1 <- ANDGadget "and1" "a" "b" "and_temp" ; exec add_gadget net g1 ;
  do g2 <- ORGadget "or1" "a" "b" "or_temp" ; exec add_gadget net g2 ;
  do g3 <- NOTGadget "not1" "and_temp" "not_temp" ; exec add_gadget net g3 ;
  do g4 <- ANDGadget "and2" "or_temp" "not_temp" "sum" ; exec add_gadget net g4 ;
  do g5 <- ANDGadget "and3_carry" "a" "b" "carry" ; exec add_gadget net g5 ;
  ret net.

(** One row of the half-adder table, on a fresh network. *)
Definition half_adder_row (a b : bool) : M (dict Signal) :=
  do net <- build_half_adder_network ;
  exec set_inputs net [("a", Some a); ("b", Some b)] ;
  run_default net.

End SetOrder.


(** * Properties *)

(** ** Reading the heap without running a method *)

Definition sig_at (h : Heap) (p : ploc) : option Signal :=
  signal <$> pleat_objs h !! p.

Fixpoint read_signals (h : Heap) (ps : list ploc) : option (list Signal) :=
  match ps with
  | [] => Some []
  | p :: ps' =>
      match sig_at h p, read_signals h ps' with
      | Some s, Some ss => Some (s :: ss)
      | _, _ => None
      end
  end.

(** The heap after [p.signal = s]. *)
Definition with_signal (h : Heap) (p : ploc) (s : Signal) : Heap :=
  match pleat_objs h !! p with
  | Some P => mkHeap (<[p := mkPleat (name P) s]> (pleat_objs h))
                     (gadget_objs h) (network_objs h)
  | None => h
  end.

(** The boolean function of each class, as a truth table on defined
    inputs; the second argument is ignored by [NOT]. *)
Definition truth_table (c : GadgetClass) (a b : bool) : bool :=
  match c with
  | NOT => negb a
  | AND => a && b
  | OR => a || b
  | NAND => negb (a && b)
  end.

Definition arity (c : GadgetClass) : nat :=
  match c with NOT => 1 | _ => 2 end.

Ltac munfold :=
  unfold evaluate, gate_expr, has_undefined_inputs, set_signal, get_signal,
    append_input, append_output, index,
    get_pleat, get_gadget, get_network, put_pleat, put_gadget, put_network,
    new_Pleat, new_Gadget, lift, bind, ret, raise in *.

Lemma signals_of_read h ps ss :
  read_signals h ps = Some ss → signals_of ps h = (h, Ok ss).
Proof.
  revert ss. induction ps as [|p ps IH]; intros ss H; simpl in *.
  - by inversion H.
  - unfold sig_at in H. munfold.
    destruct (pleat_objs h !! p) as [P|] eqn:HP; simpl in H; [|done].
    destruct (read_signals h ps) as [ss'|]; [|done].
    inversion H; subst. by rewrite (IH ss' eq_refl).
Qed.

Lemma read_signals_length h ps ss :
  read_signals h ps = Some ss → length ss = length ps.
Proof.
  revert ss. induction ps as [|p ps IH]; intros ss H; simpl in *.
  - by inversion H.
  - destruct (sig_at h p); [|done]. destruct (read_signals h ps); [|done].
    inversion H; subst. simpl. f_equal. by apply IH.
Qed.

Lemma read_signals_lookup h ps ss i p :
  read_signals h ps = Some ss → ps !! i = Some p →
  ∃ s, ss !! i = Some s ∧ sig_at h p = Some s.
Proof.
  revert ss i. induction ps as [|q ps IH]; intros ss i H Hi; simpl in *; [done|].
  destruct (sig_at h q) as [s|] eqn:Hq; [|done].
  destruct (read_signals h ps) as [ss'|] eqn:Hr; [|done].
  inversion H; subst. destruct i as [|i]; simpl in *.
  - inversion Hi; subst. eauto.
  - eauto.
Qed.

Lemma existsb_is_undefined ss :
  existsb is_undefined ss = true ↔ ∃ i, ss !! i = Some None.
Proof.
  induction ss as [|s ss IH]; simpl.
  - split; [done|]. by intros [i Hi].
  - split.
    + intros [H|H]%orb_true_iff.
      * destruct s; [done|]. by exists 0.
      * apply IH in H as [i Hi]. by exists (S i).
    + intros [[|i] Hi]; simpl in Hi.
      * by inversion Hi.
      * apply orb_true_iff. right. apply IH. eauto.
Qed.

(** The value [evaluate] assigns, as a function of the signals of
    [self.inputs]. *)
Definition gate_value (c : GadgetClass) (ss : list Signal) : Signal :=
  if existsb is_undefined ss then None
  else
    let a := default None (ss !! 0) in
    let b := default None (ss !! 1) in
    match c with
    | NOT => py_not a
    | AND => py_and a b
    | OR => py_or a b
    | NAND => py_not (py_and a b)
    end.

Lemma evaluate_value h self G o ss :
  gadget_objs h !! self = Some G →
  outputs G !! 0 = Some o →
  o < length (pleat_objs h) →
  read_signals h (inputs G) = Some ss →
  arity (cls G) ≤ length ss →
  evaluate self h = (with_signal h o (gate_value (cls G) ss), Ok tt).
Proof.
  intros HG Ho Hlt Hss Har.
  destruct (lookup_lt_is_Some_2 _ _ Hlt) as [P HP].
  pose proof (signals_of_read _ _ _ Hss) as Hsig.
  pose proof (read_signals_length _ _ _ Hss) as Hlen.
  unfold gate_value, with_signal. rewrite HP.
  destruct (existsb is_undefined ss) eqn:Hun.
  { munfold. rewrite HG. simpl. rewrite HG, Hsig, Hun, Ho. simpl. by rewrite HP. }
  destruct ss as [|a ss']; [destruct (cls G); simpl in *; lia|].
  destruct (inputs G) as [|p0 ps] eqn:Hin; [done|].
  destruct (read_signals_lookup _ _ _ 0 p0 Hss eq_refl) as (s & Hs & Hp0).
  simpl in Hs. assert (s = a) as -> by congruence. clear Hs.
  unfold sig_at in Hp0.
  destruct (pleat_objs h !! p0) as [P0|] eqn:HP0; [|done].
  simpl in Hp0. assert (Ha : signal P0 = a) by congruence.
  destruct (cls G) eqn:Hc.
  { munfold. rewrite HG. simpl. rewrite HG, Hin, Hsig, Hun. simpl.
    rewrite HG, Hc, Hin. simpl. rewrite HP0, Ho, Ha. simpl. by rewrite HP. }
  all: destruct ss' as [|b ss'']; [simpl in *; lia|];
    destruct ps as [|p1 ps']; [done|];
    destruct (read_signals_lookup _ _ _ 1 p1 Hss eq_refl) as (s & Hs & Hp1);
    simpl in Hs; assert (s = b) as -> by congruence; clear Hs;
    unfold sig_at in Hp1;
    destruct (pleat_objs h !! p1) as [P1|] eqn:HP1; [|done];
    simpl in Hp1; assert (Hb : signal P1 = b) by congruence;
    munfold; rewrite HG; simpl; rewrite HG, Hin, Hsig, Hun; simpl;
    rewrite HG, Hc, Hin; simpl; rewrite HP0, Ha; simpl;
    unfold py_and, py_or; destruct (truthy a); simpl;
    rewrite ?HP1, ?Ho, ?Hb; simpl; by rewrite HP.
Qed.

(** C1. [evaluate] on a connected gadget writes its first output pleat
    and nothing else.  If the signal of any pleat in [self.inputs] is
    undefined the value written is undefined, whatever the other inputs
    are; if all of them are defined the value written is the truth table
    of the gadget's class applied to the first (and second) input. *)
Theorem evaluate_strict_rule (h : Heap) (self : nat) (G : Gadget)
    (o : nat) (ss : list Signal) :
  gadget_objs h !! self = Some G →
  outputs G !! 0 = Some o →
  o < length (pleat_objs h) →
  read_signals h (inputs G) = Some ss →
  arity (cls G) ≤ length ss →
  ∃ v : Signal,
    evaluate self h = (with_signal h o v, Ok tt) ∧
    sig_at (with_signal h o v) o = Some v ∧
    ((∃ i, ss !! i = Some None) → v = None) ∧
    (∀ a b, (∀ i, ss !! i ≠ Some None) →
            ss !! 0 = Some (Some a) →
            (cls G = NOT ∨ ss !! 1 = Some (Some b)) →
            v = Some (truth_table (cls G) a b)).
Proof.
  intros HG Ho Hlt Hss Har. exists (gate_value (cls G) ss).
  split; [by apply evaluate_value|]. split; [|split].
  - destruct (lookup_lt_is_Some_2 _ _ Hlt) as [P HP].
    unfold sig_at, with_signal. rewrite HP. simpl.
    by rewrite list_lookup_insert_eq.
  - intros Hun%existsb_is_undefined. unfold gate_value. by rewrite Hun.
  - intros a b Hall Ha Hb. unfold gate_value.
    destruct (existsb is_undefined ss) eqn:Hun.
    { apply existsb_is_undefined in Hun as [i Hi]. by destruct (Hall i). }
    rewrite Ha. simpl. destruct Hb as [->|Hb].
    + unfold py_not. simpl. by destruct a.
    + rewrite Hb. simpl. unfold py_not, py_and, py_or.
      by destruct (cls G), a, b.
Qed.

(** ** Dictionaries *)

Lemma dict_get_set_eq {V} (d : dict V) k v : dict_get (dict_set d k v) k = Some v.
Proof.
  induction d as [|[k' v'] d IH]; simpl.
  - by rewrite decide_True.
  - destruct (decide (k = k')) as [->|Hne]; simpl.
    + by rewrite decide_True.
    + by rewrite decide_False.
Qed.

Lemma dict_get_set_ne {V} (d : dict V) k k' v :
  k ≠ k' → dict_get (dict_set d k v) k' = dict_get d k'.
Proof.
  intros Hne. induction d as [|[k0 v0] d IH]; simpl.
  - rewrite decide_False; [done|congruence].
  - destruct (decide (k = k0)) as [->|Hne0]; simpl.
    + rewrite !decide_False; [done|congruence..].
    + destruct (decide (k' = k0)); [done|apply IH].
Qed.

Lemma dict_get_keys {V} (d : dict V) k : is_Some (dict_get d k) ↔ k ∈ dict_keys d.
Proof.
  unfold dict_keys. induction d as [|[k' v'] d IH]; csimpl.
  - split; [by intros [? ?]|by intros ?%elem_of_nil].
  - rewrite elem_of_cons. destruct (decide (k = k')) as [->|Hne].
    + split; [by left|by eexists].
    + rewrite IH. (intuition (subst; eauto)).
Qed.

Lemma dict_get_None_keys {V} (d : dict V) k : dict_get d k = None ↔ k ∉ dict_keys d.
Proof. rewrite <- dict_get_keys, eq_None_not_Some. done. Qed.

Lemma dict_get_elem {V} (d : dict V) k v : dict_get d k = Some v → (k, v) ∈ d.
Proof.
  induction d as [|[k' v'] d IH]; csimpl; [done|].
  destruct (decide (k = k')) as [->|Hne].
  - intros [= ->]. by left.
  - intros H. right. by apply IH.
Qed.

Lemma dict_keys_set {V} (d : dict V) k v :
  dict_keys (dict_set d k v) =
  if dict_mem d k then dict_keys d else dict_keys d ++ [k].
Proof.
  unfold dict_keys, dict_mem. induction d as [|[k' v'] d IH]; csimpl; [done|].
  destruct (decide (k = k')) as [->|Hne]; csimpl; [done|].
  rewrite IH. by destruct (dict_get d k).
Qed.

Lemma dict_set_elem {V} (d : dict V) k v k' v' :
  (k', v') ∈ dict_set d k v → (k', v') = (k, v) ∨ (k', v') ∈ d.
Proof.
  induction d as [|[k0 v0] d IH]; csimpl.
  - intros ?%list_elem_of_singleton. by left.
  - destruct (decide (k = k0)) as [->|Hne]; rewrite !elem_of_cons; (intuition (subst; eauto)).
Qed.

Lemma length_dict_set {V} (d : dict V) k v :
  length (dict_set d k v) = if dict_mem d k then length d else S (length d).
Proof.
  unfold dict_mem. induction d as [|[k' v'] d IH]; csimpl; [done|].
  destruct (decide (k = k')) as [->|Hne]; csimpl; [done|].
  rewrite IH. by destruct (dict_get d k).
Qed.

Lemma dict_elem_get {V} (d : list (string * V)) k v :
  NoDup (dict_keys d) → (k, v) ∈ d → dict_get d k = Some v.
Proof.
  unfold dict_keys. induction d as [|[k0 v0] d IH]; csimpl; intros Hnd Hin.
  - by apply elem_of_nil in Hin.
  - apply NoDup_cons in Hnd as [Hk0 Hnd].
    apply elem_of_cons in Hin as [[= -> ->]|Hin].
    + by rewrite decide_True.
    + rewrite decide_False; [by apply IH|]. intros ->. apply Hk0.
      apply list_elem_of_fmap. by exists (k0, v).
Qed.

Lemma NoDup_dict_set {V} (d : list (string * V)) k v :
  NoDup (dict_keys d) → NoDup (dict_keys (dict_set d k v)).
Proof.
  intros Hnd. rewrite dict_keys_set. unfold dict_mem.
  destruct (dict_get d k) eqn:Hk; [done|].
  apply NoDup_app. split_and!; [done| |apply NoDup_singleton].
  intros x Hx ->%list_elem_of_singleton. by apply dict_get_None_keys in Hk.
Qed.

(** ** Connecting a gadget *)

Definition add_inputs (G : Gadget) (ps : list nat) : Gadget :=
  mkGadget (cls G) (gadget_id G) (input_names G) (output_names G)
           (inputs G ++ ps) (outputs G).
Definition add_outputs (G : Gadget) (ps : list nat) : Gadget :=
  mkGadget (cls G) (gadget_id G) (input_names G) (output_names G)
           (inputs G) (outputs G ++ ps).

Definition connect_inputs_body (self : nat) (pleats_dict : nat) (gid : string)
    (nm : string) : M unit :=
  do N <- get_network pleats_dict ;
  match dict_get (pleats N) nm with
  | None => raise (ValueError (unresolved_msg nm gid))
  | Some p => append_input self p
  end.

Lemma connect_inputs_loop self n gid N names : ∀ h G,
  gadget_objs h !! self = Some G →
  network_objs h !! n = Some N →
  ∃ h' r ps,
    for_ names (connect_inputs_body self n gid) h = (h', r) ∧
    pleat_objs h' = pleat_objs h ∧
    network_objs h' = network_objs h ∧
    gadget_objs h' = <[self := add_inputs G ps]> (gadget_objs h) ∧
    Forall (λ p, ∃ nm, dict_get (pleats N) nm = Some p) ps ∧
    ((r = Ok tt ∧ Forall2 (λ nm p, dict_get (pleats N) nm = Some p) names ps) ∨
     (∃ nm, r = Raise (ValueError (unresolved_msg nm gid)) ∧
            nm ∈ names ∧ dict_get (pleats N) nm = None)).
Proof.
  induction names as [|nm names IH]; intros h G HG HN.
  - exists h, (Ok tt), []. simpl. split_and!; try done.
    + unfold add_inputs. rewrite app_nil_r. destruct G; simpl.
      by rewrite list_insert_id.
    + left. split; [done|constructor].
  - simpl. unfold connect_inputs_body at 1. munfold. rewrite HN.
    destruct (dict_get (pleats N) nm) as [p|] eqn:Hnm.
    + rewrite HG.
      set (h1 := mkHeap (pleat_objs h) (<[self := add_inputs G [p]]> (gadget_objs h))
                        (network_objs h)).
      destruct (IH h1 (add_inputs G [p]))
        as (h' & r & ps & Hrun & Hp & Hn & Hg & Hsrc & Hr).
      { simpl. apply list_lookup_insert_eq. by eapply lookup_lt_Some. }
      { done. }
      exists h', r, (p :: ps).
      split; [exact Hrun|]. split_and!; try done.
      * rewrite Hg. simpl. rewrite list_insert_insert_eq.
        unfold add_inputs. simpl. by rewrite <- app_assoc.
      * constructor; [by exists nm|done].
      * destruct Hr as [[-> HF]|(nm' & -> & Hin & Hnone)].
        -- left. split; [done|by constructor].
        -- right. exists nm'. split_and!; [done| |done]. by right.
    + exists h, (Raise (ValueError (unresolved_msg nm gid))), [].
      split_and!; try done.
      * unfold add_inputs. rewrite app_nil_r. destruct G; simpl.
        by rewrite list_insert_id.
      * right. exists nm. split_and!; [done| |done]. by left.
Qed.

Definition connect_outputs_body (self : nat) (pleats_dict : nat) (nm : string)
    : M unit :=
  do N <- get_network pleats_dict ;
  exec (if dict_mem (pleats N) nm then ret tt
        else do p <- new_Pleat nm None ;
             put_network pleats_dict
               (mkNetwork (dict_set (pleats N) nm p) (gadgets N))) ;
  do N' <- get_network pleats_dict ;
  match dict_get (pleats N') nm with
  | None => raise (KeyError nm)
  | Some p => append_output self p
  end.

Lemma connect_outputs_step self n nm h G N :
  gadget_objs h !! self = Some G →
  network_objs h !! n = Some N →
  ∃ h1 p pl1 news,
    connect_outputs_body self n nm h = (h1, Ok tt) ∧
    pleat_objs h1 = pleat_objs h ++ news ∧
    network_objs h1 = <[n := mkNetwork pl1 (gadgets N)]> (network_objs h) ∧
    gadget_objs h1 = <[self := add_outputs G [p]]> (gadget_objs h) ∧
    dict_get pl1 nm = Some p ∧
    (∀ k, k ≠ nm → dict_get pl1 k = dict_get (pleats N) k) ∧
    (NoDup (dict_keys (pleats N)) → NoDup (dict_keys pl1)) ∧
    ((dict_get (pleats N) nm = Some p ∧ news = []) ∨
     (dict_get (pleats N) nm = None ∧ p = length (pleat_objs h) ∧
      news = [mkPleat nm None])).
Proof.
  intros HG HN. unfold connect_outputs_body, dict_mem. munfold. rewrite HN.
  destruct (dict_get (pleats N) nm) as [p|] eqn:Hnm; simpl.
  - rewrite HN, Hnm, HG.
    eexists _, p, (pleats N), []. split; [done|]. simpl.
    rewrite app_nil_r. split_and!; try done.
    + destruct N; simpl. by rewrite list_insert_id.
    + by left.
  - rewrite list_lookup_insert_eq by (by eapply lookup_lt_Some). simpl.
    rewrite dict_get_set_eq. simpl. rewrite HG. simpl.
    eexists _, (length (pleat_objs h)), _, [mkPleat nm None].
    split; [done|]. simpl. split_and!; try done.
    + apply dict_get_set_eq.
    + intros k Hk. by apply dict_get_set_ne.
    + apply NoDup_dict_set.
    + right. done.
Qed.

Lemma connect_outputs_loop self n names : ∀ h G N,
  gadget_objs h !! self = Some G →
  network_objs h !! n = Some N →
  ∃ h' pl' ps news,
    for_ names (connect_outputs_body self n) h = (h', Ok tt) ∧
    pleat_objs h' = pleat_objs h ++ news ∧
    network_objs h' = <[n := mkNetwork pl' (gadgets N)]> (network_objs h) ∧
    gadget_objs h' = <[self := add_outputs G ps]> (gadget_objs h) ∧
    Forall2 (λ nm p, dict_get pl' nm = Some p) names ps ∧
    (∀ nm p, dict_get (pleats N) nm = Some p → dict_get pl' nm = Some p) ∧
    (∀ nm, nm ∉ names → dict_get pl' nm = dict_get (pleats N) nm) ∧
    (∀ nm, nm ∈ names → dict_get (pleats N) nm = None →
       ∃ p, dict_get pl' nm = Some p ∧ length (pleat_objs h) ≤ p ∧
            pleat_objs h' !! p = Some (mkPleat nm None)) ∧
    (∀ nm p, dict_get pl' nm = Some p →
       dict_get (pleats N) nm = Some p ∨
       (length (pleat_objs h) ≤ p ∧ p < length (pleat_objs h'))) ∧
    (NoDup (dict_keys (pleats N)) → NoDup (dict_keys pl')).
Proof.
  induction names as [|nm names IH]; intros h G N HG HN.
  - exists h, (pleats N), [], []. simpl. rewrite app_nil_r.
    split_and!; try done.
    + destruct N; simpl. by rewrite list_insert_id.
    + unfold add_outputs. rewrite app_nil_r. destruct G; simpl.
      by rewrite list_insert_id.
    + intros nm' ?%elem_of_nil. done.
    + intros nm' p Hp. by left.
  - destruct (connect_outputs_step self n nm h G N HG HN)
      as (h1 & p & pl1 & news1 & Hstep & Hp1 & Hn1 & Hg1 & Hget1 & Hother1 & Hnd1 & Hcase).
    destruct (IH h1 (add_outputs G [p]) (mkNetwork pl1 (gadgets N)))
      as (h' & pl' & ps & news & Hrun & Hp & Hn & Hg & HF & Hold & Hout & Hnew & Hval & Hnd).
    { rewrite Hg1. apply list_lookup_insert_eq. by eapply lookup_lt_Some. }
    { rewrite Hn1. apply list_lookup_insert_eq. by eapply lookup_lt_Some. }
    simpl in *.
    exists h', pl', (p :: ps), (news1 ++ news). unfold bind. rewrite Hstep.
    split; [exact Hrun|].
    assert (Hpres : ∀ k q, dict_get (pleats N) k = Some q → dict_get pl1 k = Some q).
    { intros k q Hk. destruct (decide (k = nm)) as [->|Hne].
      - destruct Hcase as [[Hc _]|[Hc _]]; congruence.
      - by rewrite Hother1. }
    split_and!.
    + by rewrite Hp, Hp1, <- app_assoc.
    + by rewrite Hn, Hn1, list_insert_insert_eq.
    + rewrite Hg, Hg1, list_insert_insert_eq. unfold add_outputs. simpl.
      by rewrite <- app_assoc.
    + constructor; [by apply Hold|done].
    + intros k q Hk. by apply Hold, Hpres.
    + intros k Hk. rewrite not_elem_of_cons in Hk. destruct Hk as [Hne Hk].
      rewrite Hout by done. by apply Hother1.
    + intros k Hk Hnone. destruct (decide (k = nm)) as [->|Hne].
      * destruct Hcase as [[Hc _]|(_ & -> & ->)]; [congruence|].
        exists (length (pleat_objs h)). split; [by apply Hold|]. split; [lia|].
        rewrite Hp, Hp1. rewrite <- app_assoc. simpl.
        by rewrite list_lookup_middle.
      * apply elem_of_cons in Hk as [?|Hk]; [done|].
        destruct (Hnew k Hk) as (q & Hq1 & Hq2 & Hq3).
        { by rewrite Hother1. }
        exists q. split; [done|]. split; [|done].
        rewrite Hp1, length_app in Hq2. lia.
    + intros k q Hk. destruct (Hval k q Hk) as [Hq|Hq].
      * destruct (decide (k = nm)) as [->|Hne].
        -- destruct Hcase as [[Hc _]|(Hc & -> & ->)].
           ++ left. congruence.
           ++ right. rewrite Hget1 in Hq. inversion Hq; subst q.
              rewrite Hp, Hp1, !length_app. simpl. lia.
        -- left. by rewrite <- Hother1.
      * right. rewrite Hp1, length_app in Hq. lia.
    + intros Hnd0. by apply Hnd, Hnd1.
Qed.

(** The two ways [add_gadget] can end. *)
Lemma add_gadget_cases h self gadget N G :
  network_objs h !! self = Some N →
  gadget_objs h !! gadget = Some G →
  (∃ h' nm ps,
     add_gadget self gadget h =
       (h', Raise (ValueError (unresolved_msg nm (gadget_id G)))) ∧
     nm ∈ input_names G ∧ dict_get (pleats N) nm = None ∧
     pleat_objs h' = pleat_objs h ∧
     network_objs h' = network_objs h ∧
     gadget_objs h' = <[gadget := add_inputs G ps]> (gadget_objs h) ∧
     Forall (λ p, ∃ nm, dict_get (pleats N) nm = Some p) ps)
  ∨
  (∃ h' pl' ps qs news,
     add_gadget self gadget h = (h', Ok tt) ∧
     pleat_objs h' = pleat_objs h ++ news ∧
     network_objs h' =
       <[self := mkNetwork pl' (gadgets N ++ [gadget])]> (network_objs h) ∧
     gadget_objs h' =
       <[gadget := add_outputs (add_inputs G ps) qs]> (gadget_objs h) ∧
     Forall2 (λ nm p, dict_get (pleats N) nm = Some p) (input_names G) ps ∧
     Forall2 (λ nm p, dict_get pl' nm = Some p) (output_names G) qs ∧
     (∀ nm p, dict_get (pleats N) nm = Some p → dict_get pl' nm = Some p) ∧
     (∀ nm, nm ∉ output_names G → dict_get pl' nm = dict_get (pleats N) nm) ∧
     (∀ nm, nm ∈ output_names G → dict_get (pleats N) nm = None →
        ∃ p, dict_get pl' nm = Some p ∧ length (pleat_objs h) ≤ p ∧
             pleat_objs h' !! p = Some (mkPleat nm None)) ∧
     (∀ nm p, dict_get pl' nm = Some p →
        dict_get (pleats N) nm = Some p ∨
        (length (pleat_objs h) ≤ p ∧ p < length (pleat_objs h'))) ∧
     (NoDup (dict_keys (pleats N)) → NoDup (dict_keys pl'))).
Proof.
  intros HN HG.
  destruct (connect_inputs_loop gadget self (gadget_id G) N (input_names G) h G HG HN)
    as (h1 & r & ps & Hrun1 & Hp1 & Hn1 & Hg1 & Hsrc & Hr).
  assert (Hci : connect_inputs gadget self h = (h1, r)).
  { unfold connect_inputs. unfold bind at 1. unfold get_gadget. rewrite HG.
    exact Hrun1. }
  destruct Hr as [[-> HF]|(nm & -> & Hin & Hnone)].
  - right.
    assert (HG1 : gadget_objs h1 !! gadget = Some (add_inputs G ps)).
    { rewrite Hg1. apply list_lookup_insert_eq. by eapply lookup_lt_Some. }
    assert (HN1 : network_objs h1 !! self = Some N) by by rewrite Hn1.
    destruct (connect_outputs_loop gadget self (output_names G) h1 _ N HG1 HN1)
      as (h2 & pl' & qs & news & Hrun2 & Hp2 & Hn2 & Hg2 & HF2 & Hold & Hout & Hnew & Hval & Hnd).
    assert (Hco : connect_outputs gadget self h1 = (h2, Ok tt)).
    { unfold connect_outputs. unfold bind at 1. unfold get_gadget. rewrite HG1.
      exact Hrun2. }
    eexists _, pl', ps, qs, news. split.
    { unfold add_gadget. unfold bind at 1. rewrite Hci.
      unfold bind at 1. rewrite Hco. unfold bind, get_network, put_network.
      rewrite Hn2, list_lookup_insert_eq by (rewrite Hn1; by eapply lookup_lt_Some).
      reflexivity. }
    simpl. rewrite Hp2, Hp1, Hn2, Hn1, Hg2, Hg1, !list_insert_insert_eq.
    rewrite Hp2, Hp1 in Hnew, Hval.
    split_and!; try done.
  - left. exists h1, nm, ps. split.
    { unfold add_gadget. unfold bind at 1. by rewrite Hci. }
    done.
Qed.

(** C4. [add_gadget] raises exactly when an input name is missing from
    the network's dictionary, and then it raises the unresolved-pleat
    error and leaves the dictionary, the gadget list, every pleat and
    every other gadget as they were.  Otherwise it succeeds: names
    already present keep their pleat, every output name that was missing
    now refers to a new pleat with an undefined signal, and the gadget is
    the last element of the gadget list. *)
Theorem add_gadget_all_or_nothing (h : Heap) (self gadget : nat)
    (N : Network) (G : Gadget) :
  network_objs h !! self = Some N →
  gadget_objs h !! gadget = Some G →
  ∃ h' r,
    add_gadget self gadget h = (h', r) ∧
    ((∃ nm, nm ∈ input_names G ∧ dict_get (pleats N) nm = None) ↔ r ≠ Ok tt) ∧
    (∀ g', g' ≠ gadget → gadget_objs h' !! g' = gadget_objs h !! g') ∧
    (r ≠ Ok tt →
       (∃ nm, r = Raise (ValueError (unresolved_msg nm (gadget_id G))) ∧
              nm ∈ input_names G ∧ dict_get (pleats N) nm = None) ∧
       network_objs h' = network_objs h ∧
       pleat_objs h' = pleat_objs h) ∧
    (r = Ok tt →
       ∃ pl' news,
         network_objs h' =
           <[self := mkNetwork pl' (gadgets N ++ [gadget])]> (network_objs h) ∧
         pleat_objs h' = pleat_objs h ++ news ∧
         (∀ nm p, dict_get (pleats N) nm = Some p → dict_get pl' nm = Some p) ∧
         (∀ nm, nm ∉ output_names G → dict_get pl' nm = dict_get (pleats N) nm) ∧
         (∀ nm, nm ∈ output_names G → dict_get (pleats N) nm = None →
            ∃ p, dict_get pl' nm = Some p ∧ length (pleat_objs h) ≤ p ∧
                 pleat_objs h' !! p = Some (mkPleat nm None))).
Proof.
  intros HN HG.
  destruct (add_gadget_cases h self gadget N G HN HG)
    as [(h' & nm & ps & Hrun & Hin & Hnone & Hp & Hn & Hg & _)|
        (h' & pl' & ps & qs & news & Hrun & Hp & Hn & Hg & HF1 & HF2 & Hold & Hout & Hnew & _)].
  - exists h', (Raise (ValueError (unresolved_msg nm (gadget_id G)))).
    split_and!; [done| | | |done].
    + split; [done|]. intros _. by exists nm.
    + intros g' Hne. rewrite Hg. by apply list_lookup_insert_ne.
    + intros _. split_and!; [|done..]. by exists nm.
  - exists h', (Ok tt). split_and!; [done| | |done|].
    + split; [|done]. intros (nm & Hin & Hnone).
      destruct (proj1 (list_elem_of_lookup _ _) Hin) as [i Hi].
      destruct (Forall2_lookup_l _ _ _ _ _ HF1 Hi) as (p & _ & Hp'). congruence.
    + intros g' Hne. rewrite Hg. by apply list_lookup_insert_ne.
    + intros _. by exists pl', news.
Qed.

(** ** The scheduler *)

(** Loops whose body cannot fail on states satisfying an invariant. *)
Lemma rfold_inv {A S} (P : S → Prop) (body : A → S → result S) l s :
  (∀ x s, x ∈ l → P s → ∃ s', body x s = Ok s' ∧ P s') →
  P s → ∃ s', rfold body l s = Ok s' ∧ P s'.
Proof.
  revert s. induction l as [|x l IH]; intros s Hbody Hs; simpl.
  - eauto.
  - destruct (Hbody x s) as (s1 & -> & Hs1); [by left|done|]. simpl.
    apply IH; [|done]. intros y s' Hy. apply Hbody. by right.
Qed.

Lemma rfold_preserves {A S} (P : S → Prop) (body : A → S → result S) l s s' :
  (∀ x s s', body x s = Ok s' → P s → P s') →
  rfold body l s = Ok s' → P s → P s'.
Proof.
  intros Hbody. revert s. induction l as [|x l IH]; intros s Hrun Hs; simpl in *.
  - by inversion Hrun; subst.
  - destruct (body x s) as [s1|] eqn:Hb; simpl in Hrun; [|done].
    eapply IH; [done|]. by eapply Hbody.
Qed.

(** Dictionaries built by successive assignments. *)
Section BuiltDict.
Context {A V : Type} (kf : A → string) (vf : A → V).

Definition assign_all (d : dict V) (l : list A) : dict V :=
  foldl (λ d x, dict_set d (kf x) (vf x)) d l.

Lemma assign_all_keys l : ∀ d k,
  k ∈ dict_keys (assign_all d l) ↔ k ∈ dict_keys d ∨ k ∈ kf <$> l.
Proof.
  induction l as [|x l IH]; intros d k; csimpl.
  - rewrite elem_of_nil. (intuition (subst; eauto)).
  - rewrite IH, dict_keys_set, elem_of_cons. unfold dict_mem.
    destruct (dict_get d (kf x)) eqn:Hx.
    + assert (kf x ∈ dict_keys d) by (apply dict_get_keys; eauto).
      (intuition (subst; eauto)).
    + rewrite elem_of_app, list_elem_of_singleton. (intuition (subst; eauto)).
Qed.

Lemma assign_all_elem l : ∀ d k v,
  (k, v) ∈ assign_all d l → (k, v) ∈ d ∨ ∃ x, x ∈ l ∧ k = kf x ∧ v = vf x.
Proof.
  induction l as [|x l IH]; intros d k v; csimpl; [by left|].
  intros [H|(y & Hy & -> & ->)]%IH.
  - apply dict_set_elem in H as [[= -> ->]|H]; [|by left].
    right. exists x. split; [by left|done].
  - right. exists y. split; [by right|done].
Qed.

Lemma assign_all_length l : ∀ d,
  length (assign_all d l) ≤ length d + length l.
Proof.
  induction l as [|x l IH]; intros d; csimpl; [lia|].
  specialize (IH (dict_set d (kf x) (vf x))).
  rewrite length_dict_set in IH. destruct (dict_mem d (kf x)); lia.
Qed.

Lemma assign_all_length_dup l : ∀ d,
  (∃ x, x ∈ l ∧ kf x ∈ dict_keys d) ∨ ¬ NoDup (kf <$> l) →
  length (assign_all d l) < length d + length l.
Proof.
  induction l as [|x l IH]; intros d H; csimpl.
  - destruct H as [(x & Hx & _)|H]; [by apply elem_of_nil in Hx|].
    destruct H. constructor.
  - pose proof (length_dict_set d (kf x) (vf x)) as Hlen.
    pose proof (dict_keys_set d (kf x) (vf x)) as Hkeys.
    unfold dict_mem in *. destruct (dict_get d (kf x)) eqn:Hx.
    + pose proof (assign_all_length l (dict_set d (kf x) (vf x))). lia.
    + assert (length (assign_all (dict_set d (kf x) (vf x)) l) <
              length (dict_set d (kf x) (vf x)) + length l); [|lia].
      apply IH. rewrite Hkeys.
      destruct H as [(y & Hy & Hyk)|H].
      * apply elem_of_cons in Hy as [->|Hy].
        -- apply dict_get_keys in Hyk as [? ?]. congruence.
        -- left. exists y. split; [done|]. apply elem_of_app. by left.
      * destruct (decide (kf x ∈ kf <$> l)) as [Hin|Hnin].
        -- apply list_elem_of_fmap in Hin as (y & Hy1 & Hy2).
           left. exists y. split; [done|]. rewrite <- Hy1.
           apply elem_of_app. right. by apply list_elem_of_singleton.
        -- right. intros Hnd. apply H. csimpl. by constructor.
Qed.
End BuiltDict.

(** The gadget identifiers, in attachment order. *)
Definition ids_of (Gs : list (nat * Gadget)) : list string :=
  (λ gG, gadget_id gG.2) <$> Gs.

Lemma in_degree_init_keys Gs k : k ∈ dict_keys (in_degree_init Gs) ↔ k ∈ ids_of Gs.
Proof.
  unfold in_degree_init, ids_of.
  rewrite (assign_all_keys (λ gG, gadget_id gG.2) (λ _, 0%Z) Gs [] k).
  unfold dict_keys. csimpl. rewrite elem_of_nil. (intuition (subst; eauto)).
Qed.

Lemma gadget_map_of_keys Gs k : k ∈ dict_keys (gadget_map_of Gs) ↔ k ∈ ids_of Gs.
Proof.
  unfold gadget_map_of, ids_of.
  rewrite (assign_all_keys (λ gG, gadget_id gG.2) (λ gG : nat * Gadget, gG.1) Gs [] k).
  unfold dict_keys. csimpl. rewrite elem_of_nil. (intuition (subst; eauto)).
Qed.

Lemma gadget_map_of_values Gs k g :
  dict_get (gadget_map_of Gs) k = Some g → g ∈ Gs.*1.
Proof.
  intros H%dict_get_elem. unfold gadget_map_of in H.
  apply (assign_all_elem (λ gG, gadget_id gG.2) (λ gG : nat * Gadget, gG.1)) in H
    as [H|(x & Hx & _ & ->)].
  - by apply elem_of_nil in H.
  - apply list_elem_of_fmap. by exists x.
Qed.

Lemma in_degree_init_length Gs : length (in_degree_init Gs) ≤ length Gs.
Proof.
  unfold in_degree_init.
  apply (assign_all_length (λ gG, gadget_id gG.2) (λ _, 0%Z) Gs []).
Qed.

Lemma in_degree_init_length_dup Gs :
  ¬ NoDup (ids_of Gs) → length (in_degree_init Gs) < length Gs.
Proof.
  intros H. unfold in_degree_init.
  apply (assign_all_length_dup (λ gG, gadget_id gG.2) (λ _, 0%Z) Gs []). by right.
Qed.

(** The graph and the in-degree table after the edge loop: the keys of
    [in_degree] are those it was created with, and every member of every
    set in [graph] is one of them. *)
Definition graph_inv (KL : list string) (st : dict (list string) * dict Z) : Prop :=
  dict_keys st.2 = KL ∧
  ∀ k s x, dict_get st.1 k = Some s → x ∈ s → x ∈ KL.

Lemma graph_touch_get graph producer k s :
  dict_get (graph_touch graph producer) k = Some s →
  dict_get graph k = Some s ∨ s = [].
Proof.
  unfold graph_touch. destruct (dict_get graph producer) eqn:Hp; [by left|].
  destruct (decide (producer = k)) as [->|Hne].
  - rewrite dict_get_set_eq. intros [= <-]. by right.
  - rewrite dict_get_set_ne by done. by left.
Qed.

Lemma dict_keys_set_present {V} (d : dict V) k v v' :
  dict_get d k = Some v → dict_keys (dict_set d k v') = dict_keys d.
Proof. intros H. rewrite dict_keys_set. unfold dict_mem. by rewrite H. Qed.

Lemma add_edge_inv p2p consumer inp st KL :
  consumer ∈ KL → graph_inv KL st →
  ∃ st', add_edge p2p consumer inp st = Ok st' ∧ graph_inv KL st'.
Proof.
  intros Hc [Hk Hg]. unfold add_edge.
  destruct (dict_get p2p inp) as [producer|]; [|by eexists].
  case_bool_decide as Hprod; [|by eexists].
  set (graph := graph_touch st.1 producer).
  assert (Hg' : ∀ k s x, dict_get graph k = Some s → x ∈ s → x ∈ KL).
  { intros k s x [H| ->]%graph_touch_get Hx; [by eapply Hg|].
    by apply elem_of_nil in Hx. }
  case_bool_decide as Hmem; [by eexists|].
  destruct (dict_get st.2 consumer) as [d|] eqn:Hd.
  - eexists. split; [done|]. split; simpl.
    + by rewrite (dict_keys_set_present _ _ d).
    + intros k s x Hks Hx. destruct (decide (producer = k)) as [->|Hne].
      * rewrite dict_get_set_eq in Hks. inversion Hks; subst s.
        apply elem_of_app in Hx as [Hx|Hx].
        -- destruct (dict_get graph k) as [s0|] eqn:Hs0; simpl in Hx.
           ++ by eapply Hg'.
           ++ by apply elem_of_nil in Hx.
        -- apply list_elem_of_singleton in Hx. by subst.
      * rewrite dict_get_set_ne in Hks by done. by eapply Hg'.
  - apply dict_get_None_keys in Hd. rewrite Hk in Hd. done.
Qed.

Lemma build_graph_inv Gs :
  ∃ st, build_graph Gs = Ok st ∧ graph_inv (dict_keys (in_degree_init Gs)) st.
Proof.
  unfold build_graph. apply rfold_inv; [|by split].
  intros gG st HgG Hst. apply rfold_inv; [|done].
  intros inp st' _ Hst'. apply add_edge_inv; [|done].
  apply in_degree_init_keys. unfold ids_of. apply list_elem_of_fmap. by exists gG.
Qed.

(** The quantity that bounds the [while] loop: the length of the queue
    plus the number of gadgets whose in-degree is still positive. *)
Definition count_pos (d : dict Z) : nat :=
  length (filter (λ kv, (0 < kv.2)%Z) d).

Lemma count_pos_set d k v v' :
  dict_get d k = Some v →
  count_pos (dict_set d k v') + (if decide (0 < v)%Z then 1 else 0) =
  count_pos d + (if decide (0 < v')%Z then 1 else 0).
Proof.
  unfold count_pos. induction d as [|[k0 v0] d IH]; cbn [dict_get dict_set]; [done|].
  destruct (decide (k = k0)) as [->|Hne].
  - intros [= ->]. rewrite !filter_cons. cbn [snd].
    repeat case_decide; cbn [length]; lia.
  - intros H. specialize (IH H). rewrite !filter_cons. cbn [snd].
    repeat case_decide; cbn [length] in *; lia.
Qed.

Lemma initial_queue_bound d : length (initial_queue d) + count_pos d ≤ length d.
Proof.
  unfold initial_queue, count_pos. rewrite length_fmap.
  induction d as [|[k v] d IH]; [done|].
  rewrite !filter_cons. cbn [snd]. repeat case_decide; cbn [length] in *; lia.
Qed.

Lemma initial_queue_keys d x : x ∈ initial_queue d → x ∈ dict_keys d.
Proof.
  unfold initial_queue, dict_keys. intros (kv & -> & H)%list_elem_of_fmap.
  apply list_elem_of_filter in H as [_ H]. apply list_elem_of_fmap. by exists kv.
Qed.

Lemma visit_spec nbr st st' :
  visit nbr st = Ok st' →
  dict_keys st'.1 = dict_keys st.1 ∧
  length st'.2 + count_pos st'.1 = length st.2 + count_pos st.1 ∧
  ∀ x, x ∈ st'.2 → x ∈ st.2 ∨ x = nbr.
Proof.
  unfold visit. destruct (dict_get st.1 nbr) as [d|] eqn:Hd; [|done].
  pose proof (count_pos_set _ _ _ (d - 1)%Z Hd) as Hcount.
  pose proof (dict_keys_set_present _ _ _ (d - 1)%Z Hd) as Hkeys.
  destruct (decide ((d - 1)%Z = 0%Z)) as [Hz|Hz]; intros [= <-]; simpl.
  - split; [done|]. split.
    + rewrite length_app. simpl. repeat case_decide; lia.
    + intros x [Hx|Hx%list_elem_of_singleton]%elem_of_app; eauto.
  - split; [done|]. split; [|eauto]. repeat case_decide; lia.
Qed.

Lemma visit_ok nbr st :
  nbr ∈ dict_keys st.1 → ∃ st', visit nbr st = Ok st'.
Proof.
  intros [d Hd]%dict_get_keys. unfold visit. rewrite Hd. case_decide; eauto.
Qed.

Lemma visits_spec l : ∀ st st',
  rfold visit l st = Ok st' →
  dict_keys st'.1 = dict_keys st.1 ∧
  length st'.2 + count_pos st'.1 = length st.2 + count_pos st.1 ∧
  ∀ x, x ∈ st'.2 → x ∈ st.2 ∨ x ∈ l.
Proof.
  induction l as [|nbr l IH]; intros st st' H; simpl in *.
  - inversion H; subst. eauto.
  - destruct (visit nbr st) as [st1|] eqn:Hv; simpl in H; [|done].
    apply visit_spec in Hv as (Hk1 & Hm1 & Hq1).
    apply IH in H as (Hk & Hm & Hq). split; [congruence|]. split; [lia|].
    intros x Hx. destruct (Hq x Hx) as [Hx1|Hx1].
    + destruct (Hq1 x Hx1) as [?| ->]; [by left|]. right. by left.
    + right. by right.
Qed.

Lemma visits_ok l : ∀ st,
  (∀ x, x ∈ l → x ∈ dict_keys st.1) → ∃ st', rfold visit l st = Ok st'.
Proof.
  induction l as [|nbr l IH]; intros st Hl; simpl; [eauto|].
  destruct (visit_ok nbr st) as [st1 Hv]; [apply Hl; by left|].
  rewrite Hv. simpl. apply IH. intros x Hx.
  apply visit_spec in Hv as (-> & _). apply Hl. by right.
Qed.

(** The gadget objects behind a list of addresses, read off the heap. *)
Fixpoint gadgets_of (h : Heap) (gs : list nat) : option (list (nat * Gadget)) :=
  match gs with
  | [] => Some []
  | g :: gs' =>
      match gadget_objs h !! g, gadgets_of h gs' with
      | Some G, Some Gs => Some ((g, G) :: Gs)
      | _, _ => None
      end
  end.

Lemma get_gadgets_read h gs Gs :
  gadgets_of h gs = Some Gs → get_gadgets gs h = (h, Ok Gs).
Proof.
  revert Gs. induction gs as [|g gs IH]; intros Gs H; simpl in *.
  - by inversion H.
  - munfold. destruct (gadget_objs h !! g) as [G|]; [|done].
    destruct (gadgets_of h gs) as [Gs'|]; [|done].
    inversion H; subst. by rewrite (IH Gs' eq_refl).
Qed.

Lemma gadgets_of_fst h gs Gs : gadgets_of h gs = Some Gs → Gs.*1 = gs.
Proof.
  revert Gs. induction gs as [|g gs IH]; intros Gs H; simpl in *.
  - by inversion H.
  - destruct (gadget_objs h !! g) as [G|]; [|done].
    destruct (gadgets_of h gs) as [Gs'|]; [|done].
    inversion H; subst. csimpl. f_equal. by apply IH.
Qed.


Lemma gadgets_of_total h gs :
  (∀ g, g ∈ gs → g < length (gadget_objs h)) → ∃ Gs, gadgets_of h gs = Some Gs.
Proof.
  induction gs as [|g gs IH]; intros H; simpl; [eauto|].
  destruct (lookup_lt_is_Some_2 (gadget_objs h) g) as [G ->]; [apply H; by left|].
  destruct IH as [Gs ->]; [intros; apply H; by right|]. eauto.
Qed.

Section Scheduler.

Variable set_iter : list string → list string.
Hypothesis set_iter_perm : ∀ s, set_iter s ≡ₚ s.

(** The [while] loop ends within [fuel] iterations without a [KeyError],
    and appends to [order] at most as many gadgets as the bound. *)
Lemma kahn_ok graph gm : ∀ fuel queue order d,
  length queue + count_pos d ≤ fuel →
  (∀ x, x ∈ queue → x ∈ dict_keys gm) →
  (∀ x, x ∈ dict_keys d → x ∈ dict_keys gm) →
  (∀ k s x, dict_get graph k = Some s → x ∈ s → x ∈ dict_keys d) →
  ∃ order',
    kahn set_iter fuel graph gm queue order d = Ok order' ∧
    length order' ≤ length order + length queue + count_pos d ∧
    ∀ g, g ∈ order' → g ∈ order ∨ ∃ k, dict_get gm k = Some g.
Proof.
  induction fuel as [|fuel IH]; intros queue order d Hfuel Hq Hd Hg;
    destruct queue as [|gid queue]; simpl in *;
    try (exists order; split; [done|]; split; [lia|by left]); [lia|].
  destruct (proj2 (dict_get_keys gm gid)) as [g Hgid]; [apply Hq; by left|].
  rewrite Hgid.
  set (l := neighbours set_iter graph gid).
  assert (Hl : ∀ x, x ∈ l → x ∈ dict_keys d).
  { intros x Hx. unfold l, neighbours in Hx.
    destruct (dict_get graph gid) as [s|] eqn:Hs.
    - rewrite set_iter_perm in Hx. by eapply Hg.
    - by apply elem_of_nil in Hx. }
  destruct (visits_ok l (d, queue)) as [st1 Hv]; [done|].
  rewrite Hv. simpl.
  apply visits_spec in Hv as (Hk & Hm & Hq1). simpl in *.
  destruct (IH st1.2 (order ++ [g]) st1.1) as (order' & Hrun & Hlen & Hmem).
  - lia.
  - intros x [Hx|Hx]%Hq1; [apply Hq; by right|]. by apply Hd, Hl.
  - rewrite Hk. done.
  - rewrite Hk. done.
  - exists order'. split; [done|]. split.
    + rewrite length_app in Hlen. simpl in Hlen. lia.
    + intros g' [Hg'|Hg']%Hmem; [|by right].
      apply elem_of_app in Hg' as [?|Hg']; [by left|].
      apply list_elem_of_singleton in Hg'. subst. right. eauto.
Qed.

(** The scheduler always produces an order; it has at most one gadget
    per distinct identifier, and only gadgets of the network. *)
Lemma kahn_order_ok Gs :
  ∃ order,
    kahn_order set_iter Gs = Ok order ∧
    length order ≤ length (in_degree_init Gs) ∧
    ∀ g, g ∈ order → g ∈ Gs.*1.
Proof.
  destruct (build_graph_inv Gs) as (st & Hb & Hk & Hg).
  unfold kahn_order. rewrite Hb. simpl.
  assert (Hkeys : ∀ x, x ∈ dict_keys st.2 → x ∈ dict_keys (gadget_map_of Gs)).
  { intros x. rewrite Hk, in_degree_init_keys, gadget_map_of_keys. done. }
  destruct (kahn_ok st.1 (gadget_map_of Gs) (length st.2) (initial_queue st.2) [] st.2)
    as (order & Hrun & Hlen & Hmem).
  - apply initial_queue_bound.
  - intros x Hx. by apply Hkeys, initial_queue_keys.
  - done.
  - intros k s x Hks Hx. rewrite Hk. by eapply Hg.
  - exists order. split; [done|]. split.
    + pose proof (initial_queue_bound st.2) as Hb'. simpl in Hlen.
      assert (length st.2 = length (in_degree_init Gs)) as <-; [|lia].
      unfold dict_keys in Hk. by rewrite <- (length_fmap fst st.2), Hk, length_fmap.
    + intros g [Hg'|[k Hg']]%Hmem; [by apply elem_of_nil in Hg'|].
      by eapply gadget_map_of_values.
Qed.

Lemma topological_sort_spec h self N Gs :
  network_objs h !! self = Some N →
  gadgets_of h (gadgets N) = Some Gs →
  ∃ order,
    kahn_order set_iter Gs = Ok order ∧
    length order ≤ length (in_degree_init Gs) ∧
    (∀ g, g ∈ order → g ∈ gadgets N) ∧
    topological_sort set_iter self h =
      (h, if decide (length order ≠ length (gadgets N))
          then Raise (ValueError cycle_msg) else Ok order).
Proof.
  intros HN HGs. destruct (kahn_order_ok Gs) as (order & Hk & Hlen & Hmem).
  exists order. split; [done|]. split; [done|]. split.
  - intros g Hg. rewrite <- (gadgets_of_fst _ _ _ HGs). by apply Hmem.
  - unfold topological_sort. unfold bind at 1. unfold get_network. rewrite HN.
    unfold bind at 1. rewrite (get_gadgets_read _ _ _ HGs).
    unfold bind, lift. rewrite Hk. by case_decide.
Qed.

End Scheduler.

Lemma gadgets_of_length h gs Gs : gadgets_of h gs = Some Gs → length Gs = length gs.
Proof. intros H. by rewrite <- (gadgets_of_fst _ _ _ H), length_fmap. Qed.

Lemma run_raises set_iter self max h e :
  topological_sort set_iter self h = (h, Raise e) →
  run set_iter self max h = (h, Raise e).
Proof. intros H. unfold run, run_stats. unfold bind. by rewrite H. Qed.

(** C3. When the order computed by Kahn's algorithm is shorter than the
    list of gadgets, [run] raises the cycle error before any gadget is
    evaluated: the heap, and so every pleat's signal, is what it was
    before the call. *)
Theorem run_cycle_error_no_partial_result (set_iter : list string → list string)
    (h : Heap) (self : nat) (N : Network) (Gs : list (nat * Gadget))
    (order : list nat) (max_iterations : Z) :
  network_objs h !! self = Some N →
  gadgets_of h (gadgets N) = Some Gs →
  kahn_order set_iter Gs = Ok order →
  length order < length (gadgets N) →
  run set_iter self max_iterations h = (h, Raise (ValueError cycle_msg)).
Proof.
  intros HN HGs Hk Hlt. apply run_raises.
  unfold topological_sort. unfold bind at 1. unfold get_network. rewrite HN.
  unfold bind at 1. rewrite (get_gadgets_read _ _ _ HGs).
  unfold bind, lift. rewrite Hk. rewrite decide_True; [done|lia].
Qed.

(** C10. [add_gadget] does not look at identifiers: a gadget whose
    identifier is already used in the network is attached whenever its
    input names resolve.  On every network in which two attached gadgets
    share an identifier, [run] raises the cycle error, whatever the
    dependencies are, and leaves the heap untouched. *)
Theorem duplicate_id_accepted_then_cycle_error
    (set_iter : list string → list string) (h : Heap) (self : nat)
    (N : Network) (Gs : list (nat * Gadget)) :
  (∀ s, set_iter s ≡ₚ s) →
  network_objs h !! self = Some N →
  gadgets_of h (gadgets N) = Some Gs →
  (∀ gadget G,
     gadget_objs h !! gadget = Some G →
     gadget_id G ∈ ids_of Gs →
     (∀ nm, nm ∈ input_names G → is_Some (dict_get (pleats N) nm)) →
     ∃ h', add_gadget self gadget h = (h', Ok tt)) ∧
  (¬ NoDup (ids_of Gs) →
   ∀ max_iterations,
     run set_iter self max_iterations h = (h, Raise (ValueError cycle_msg))).
Proof.
  intros Hperm HN HGs. split.
  - intros gadget G HG _ Hin.
    destruct (add_gadget_cases h self gadget N G HN HG)
      as [(h' & nm & ps & _ & Hnm & Hnone & _)|(h' & pl' & ps & qs & news & Hrun & _)].
    + destruct (Hin nm Hnm) as [p Hp]. congruence.
    + by exists h'.
  - intros Hdup max_iterations. apply run_raises.
    destruct (topological_sort_spec set_iter Hperm h self N Gs HN HGs)
      as (order & _ & Hlen & _ & ->).
    pose proof (in_degree_init_length_dup Gs Hdup).
    pose proof (gadgets_of_length _ _ _ HGs).
    rewrite decide_True; [done|lia].
Qed.

(** ** Well-formed networks

    A gadget is ready to be evaluated once it has been connected: it has
    at least as many input pleats as its class reads and an output pleat,
    all of them in the heap.  In a well-formed network every attached
    gadget is ready and every name refers to a pleat in the heap. *)

Definition readyb (h : Heap) (g : nat) : bool :=
  match gadget_objs h !! g with
  | Some G =>
      (arity (cls G) <=? length (inputs G)) && (1 <=? length (outputs G)) &&
      forallb (λ p, p <? length (pleat_objs h)) (inputs G ++ outputs G)
  | None => false
  end.

Definition wfb (h : Heap) (self : nat) : bool :=
  match network_objs h !! self with
  | Some N =>
      forallb (readyb h) (gadgets N) &&
      forallb (λ kv, kv.2 <? length (pleat_objs h)) (pleats N) &&
      bool_decide (NoDup (dict_keys (pleats N)))
  | None => false
  end.

Definition ready (h : Heap) (g : nat) : Prop := readyb h g = true.
Definition wf (h : Heap) (self : nat) : Prop := wfb h self = true.

(** Heaps with the same gadgets, networks and pleat names; only signals
    may differ. *)
Definition same_shape (h h' : Heap) : Prop :=
  gadget_objs h' = gadget_objs h ∧
  network_objs h' = network_objs h ∧
  name <$> pleat_objs h' = name <$> pleat_objs h.

Lemma same_shape_refl h : same_shape h h.
Proof. by split_and!. Qed.

Lemma same_shape_trans h1 h2 h3 :
  same_shape h1 h2 → same_shape h2 h3 → same_shape h1 h3.
Proof. intros (? & ? & ?) (? & ? & ?). split_and!; congruence. Qed.

Lemma same_shape_length h h' :
  same_shape h h' → length (pleat_objs h') = length (pleat_objs h).
Proof.
  intros (_ & _ & H). by rewrite <- (length_fmap name), H, length_fmap.
Qed.

Lemma with_signal_shape h o v : same_shape h (with_signal h o v).
Proof.
  unfold with_signal. destruct (pleat_objs h !! o) as [P|] eqn:HP;
    [|apply same_shape_refl].
  split_and!; simpl; try done.
  rewrite list_fmap_insert. simpl. apply list_insert_id.
  by rewrite list_lookup_fmap, HP.
Qed.

Lemma with_signal_id h o v : sig_at h o = Some v → with_signal h o v = h.
Proof.
  unfold sig_at, with_signal. destruct (pleat_objs h !! o) as [P|] eqn:HP; [|done].
  simpl. intros [= <-]. destruct h as [ps gs ns], P as [nm s]; simpl in *.
  by rewrite list_insert_id.
Qed.

Lemma with_signal_sig_at h o v :
  o < length (pleat_objs h) → sig_at (with_signal h o v) o = Some v.
Proof.
  intros Hlt. destruct (lookup_lt_is_Some_2 _ _ Hlt) as [P HP].
  unfold sig_at, with_signal. rewrite HP.
  simpl. by rewrite list_lookup_insert_eq.
Qed.

Lemma readyb_shape h h' g : same_shape h h' → readyb h' g = readyb h g.
Proof.
  intros Hs. unfold readyb. rewrite (same_shape_length _ _ Hs).
  destruct Hs as (-> & _). done.
Qed.

Lemma forallb_pointwise {A} (f g : A → bool) l :
  (∀ x, f x = g x) → forallb f l = forallb g l.
Proof. intros H. induction l as [|x l IH]; simpl; [done|]. by rewrite H, IH. Qed.

Lemma wfb_shape h h' self : same_shape h h' → wfb h' self = wfb h self.
Proof.
  intros Hs. unfold wfb. rewrite (same_shape_length _ _ Hs).
  pose proof (λ g, readyb_shape h h' g Hs) as Hr.
  destruct Hs as (_ & -> & _). destruct (network_objs h !! self); [|done].
  f_equal. f_equal. by apply forallb_pointwise.
Qed.

Lemma read_signals_total h ps :
  forallb (λ p, p <? length (pleat_objs h)) ps = true →
  ∃ ss, read_signals h ps = Some ss.
Proof.
  induction ps as [|p ps IH]; simpl; [eauto|].
  intros [Hp Hps]%andb_true_iff. apply Nat.ltb_lt in Hp.
  destruct (lookup_lt_is_Some_2 _ _ Hp) as [P HP].
  destruct (IH Hps) as [ss ->]. unfold sig_at. rewrite HP. simpl. eauto.
Qed.

Lemma ready_inv h g :
  ready h g →
  ∃ G o ss os,
    gadget_objs h !! g = Some G ∧ outputs G !! 0 = Some o ∧
    o < length (pleat_objs h) ∧
    read_signals h (inputs G) = Some ss ∧ arity (cls G) ≤ length ss ∧
    read_signals h (outputs G) = Some os.
Proof.
  unfold ready, readyb. destruct (gadget_objs h !! g) as [G|]; [|done].
  intros [[Har Hout]%andb_true_iff Hall]%andb_true_iff.
  apply Nat.leb_le in Har, Hout. rewrite forallb_app in Hall.
  apply andb_true_iff in Hall as [Hin Hos].
  destruct (read_signals_total _ _ Hin) as [ss Hss].
  destruct (read_signals_total _ _ Hos) as [os Hosr].
  destruct (outputs G) as [|o outs] eqn:Houts; [simpl in Hout; lia|].
  assert (Ho : o < length (pleat_objs h)).
  { simpl in Hos. apply andb_true_iff in Hos as [Ho _]. by apply Nat.ltb_lt. }
  assert (Hlen : arity (cls G) ≤ length ss).
  { by rewrite (read_signals_length _ _ _ Hss). }
  exists G, o, ss, os. split_and!; try done; by rewrite Houts.
Qed.

(** One gadget of a pass: the heap changes at most in the signal of the
    gadget's first output, and not at all when [old == new]. *)
Lemma step_spec h g :
  ready h g →
  ∃ o v c, step g h = (with_signal h o v, Ok c) ∧
           (c = false → with_signal h o v = h).
Proof.
  intros (G & o & ss & os & HG & Ho & Hlt & Hss & Har & Hos)%ready_inv.
  pose proof (evaluate_value h g G o ss HG Ho Hlt Hss Har) as Hev.
  set (v := gate_value (cls G) ss) in *.
  pose proof (with_signal_shape h o v) as Hshape.
  assert (Hos' : ∃ os', read_signals (with_signal h o v) (outputs G) = Some os').
  { apply read_signals_total. rewrite (same_shape_length _ _ Hshape).
    clear -Hos. induction (outputs G) as [|p ps IH] in os, Hos |- *; [done|].
    simpl in *. unfold sig_at in Hos.
    destruct (pleat_objs h !! p) as [P|] eqn:HP; [|done]. simpl in Hos.
    destruct (read_signals h ps) as [ss|] eqn:Hps; [|done].
    apply andb_true_iff. split; [|by eapply IH].
    apply Nat.ltb_lt. by eapply lookup_lt_Some. }
  destruct Hos' as [os' Hos'].
  exists o, v, (bool_decide (os ≠ os')). split.
  - unfold step. unfold bind at 1. unfold get_gadget at 1. rewrite HG.
    unfold bind at 1. rewrite (signals_of_read _ _ _ Hos).
    unfold bind at 1. rewrite Hev.
    unfold bind at 1. unfold get_gadget.
    destruct Hshape as (-> & _). rewrite HG.
    unfold bind. by rewrite (signals_of_read _ _ _ Hos').
  - intros Hc. apply bool_decide_eq_false in Hc. apply dec_stable in Hc. subst os'.
    apply with_signal_id.
    destruct (read_signals_lookup _ _ _ 0 o Hos Ho) as (s & Hs & Hso).
    destruct (read_signals_lookup _ _ _ 0 o Hos' Ho) as (s' & Hs' & Hso').
    rewrite with_signal_sig_at in Hso' by done. congruence.
Qed.

Lemma pass_spec order : ∀ h changed,
  (∀ g, g ∈ order → ready h g) →
  ∃ h' c, pass order changed h = (h', Ok c) ∧ same_shape h h' ∧
          (c = false → h' = h ∧ changed = false) ∧
          (changed = true → c = true).
Proof.
  induction order as [|g order IH]; intros h changed Hready; simpl.
  - exists h, changed. split_and!; done.
  - destruct (step_spec h g) as (o & v & c & Hstep & Hquiet); [apply Hready; by left|].
    pose proof (with_signal_shape h o v) as Hshape.
    destruct (IH (with_signal h o v) (if c then true else changed))
      as (h' & c' & Hrun & Hshape' & Hq & Hc).
    { intros g' Hg'. unfold ready. rewrite (readyb_shape _ _ _ Hshape).
      apply Hready. by right. }
    exists h', c'. unfold bind. rewrite Hstep. split; [done|]. split_and!.
    + by eapply same_shape_trans.
    + intros Hc'. destruct (Hq Hc') as [-> Hch]. destruct c; [done|].
      by rewrite Hquiet.
    + intros ->. apply Hc. by destruct c.
Qed.

(** ** The stabilisation loop *)

(** The heap after one pass, and the value of [changed] at its end. *)
Definition pass_heap (order : list nat) (h : Heap) : Heap :=
  (pass order false h).1.
Definition pass_changed (order : list nat) (h : Heap) : bool :=
  match (pass order false h).2 with Ok c => c | Raise _ => false end.

(** The heap after [k] passes. *)
Fixpoint after_passes (order : list nat) (k : nat) (h : Heap) : Heap :=
  match k with
  | 0 => h
  | S k' => after_passes order k' (pass_heap order h)
  end.

Lemma after_passes_S order k : ∀ h,
  after_passes order (S k) h = pass_heap order (after_passes order k h).
Proof. induction k as [|k IH]; intros h; [done|]. simpl in *. by rewrite IH. Qed.

Lemma pass_total order h :
  (∀ g, g ∈ order → ready h g) →
  pass order false h = (pass_heap order h, Ok (pass_changed order h)) ∧
  same_shape h (pass_heap order h) ∧
  (pass_changed order h = false → pass_heap order h = h).
Proof.
  intros Hready. unfold pass_heap, pass_changed.
  destruct (pass_spec order h false Hready) as (h' & c & -> & Hshape & Hq & _).
  simpl. split_and!; try done. intros Hc. by apply Hq.
Qed.

Lemma ready_shape (order : list nat) h h' :
  same_shape h h' → (∀ g, g ∈ order → ready h g) → ∀ g, g ∈ order → ready h' g.
Proof. intros Hs H g Hg. unfold ready. rewrite (readyb_shape _ _ _ Hs). by apply H. Qed.

Lemma after_passes_shape order k : ∀ h,
  (∀ g, g ∈ order → ready h g) → same_shape h (after_passes order k h).
Proof.
  induction k as [|k IH]; intros h Hready; simpl; [apply same_shape_refl|].
  destruct (pass_total order h Hready) as (_ & Hs & _).
  eapply same_shape_trans; [done|]. apply IH. by eapply ready_shape.
Qed.

Lemma run_loop_spec order n : ∀ h,
  (∀ g, g ∈ order → ready h g) →
  ∃ k conv,
    run_loop order n h = (after_passes order k h, Ok (k, conv)) ∧
    k ≤ n ∧
    (∀ i, S i < k → pass_changed order (after_passes order i h) = true) ∧
    (conv = true →
       ∃ j, k = S j ∧ pass_changed order (after_passes order j h) = false) ∧
    (conv = false →
       k = n ∧ ∀ i, i < k → pass_changed order (after_passes order i h) = true).
Proof.
  induction n as [|n IH]; intros h Hready; simpl.
  - exists 0, false. split_and!; try done.
    + intros i Hi. lia.
    + intros _. split; [done|]. intros i Hi. lia.
  - destruct (pass_total order h Hready) as (Hpass & Hshape & Hquiet).
    unfold bind. rewrite Hpass. destruct (pass_changed order h) eqn:Hc.
    + destruct (IH (pass_heap order h)) as (k & conv & Hrun & Hk & Hbefore & Hconv & Hexh).
      { by eapply ready_shape. }
      rewrite Hrun. exists (S k), conv. simpl. split_and!; try done.
      * lia.
      * intros [|i] Hi; simpl; [done|]. apply Hbefore. lia.
      * intros Htrue. destruct (Hconv Htrue) as (j & -> & Hj). by exists (S j).
      * intros Hfalse. destruct (Hexh Hfalse) as [-> Hall]. split; [done|].
        intros [|i] Hi; simpl; [done|]. apply Hall. lia.
    + exists 1, true. simpl. split_and!; try done.
      * lia.
      * intros i Hi. lia.
      * intros _. by exists 0.
Qed.

(** The dictionary built by the comprehension at the end of [run]. *)
Fixpoint snapshot_pure (h : Heap) (items : list (string * nat))
    (acc : list (string * Signal)) : list (string * Signal) :=
  match items with
  | [] => acc
  | (nm, p) :: items' =>
      snapshot_pure h items' (dict_set acc nm (default None (sig_at h p)))
  end.

Lemma snapshot_of_read h items : ∀ acc,
  forallb (λ kv, kv.2 <? length (pleat_objs h)) items = true →
  snapshot_of items acc h = (h, Ok (snapshot_pure h items acc)).
Proof.
  induction items as [|[nm p] items IH]; intros acc H; simpl in *; [done|].
  apply andb_true_iff in H as [Hp Hitems]. apply Nat.ltb_lt in Hp.
  destruct (lookup_lt_is_Some_2 _ _ Hp) as [P HP].
  munfold. unfold sig_at. rewrite HP. simpl. by apply IH.
Qed.

Lemma snapshot_pure_get h items : ∀ acc nm,
  NoDup (dict_keys items) →
  dict_get (snapshot_pure h items acc) nm =
  match dict_get items nm with
  | Some p => Some (default None (sig_at h p))
  | None => dict_get acc nm
  end.
Proof.
  unfold dict_keys.
  induction items as [|[k p] items IH]; intros acc nm Hnd; csimpl in *; [done|].
  apply NoDup_cons in Hnd as [Hk Hnd]. rewrite IH by done.
  destruct (decide (nm = k)) as [->|Hne].
  - apply dict_get_None_keys in Hk. rewrite Hk. by rewrite dict_get_set_eq.
  - destruct (dict_get items nm); [done|]. by rewrite dict_get_set_ne.
Qed.

Lemma snapshot_pure_keys h items : ∀ acc,
  NoDup (dict_keys acc ++ dict_keys items) →
  dict_keys (snapshot_pure h items acc) = dict_keys acc ++ dict_keys items.
Proof.
  unfold dict_keys.
  induction items as [|[k p] items IH]; intros acc Hnd; csimpl in *.
  - by rewrite app_nil_r.
  - pose proof (dict_keys_set acc k (default None (sig_at h p))) as Hk.
    unfold dict_keys, dict_mem in Hk.
    destruct (dict_get acc k) eqn:Hget.
    + apply NoDup_app in Hnd as (_ & Hdis & _).
      destruct (Hdis k); [|by left].
      apply (dict_get_keys acc k). eauto.
    + rewrite IH; rewrite Hk, <- app_assoc; done.
Qed.

Lemma wf_inv h self :
  wf h self →
  ∃ N, network_objs h !! self = Some N ∧
       (∀ g, g ∈ gadgets N → ready h g) ∧
       forallb (λ kv, kv.2 <? length (pleat_objs h)) (pleats N) = true ∧
       NoDup (dict_keys (pleats N)).
Proof.
  unfold wf, wfb. destruct (network_objs h !! self) as [N|]; [|done].
  intros [[Hg Hp]%andb_true_iff Hnd%bool_decide_eq_true]%andb_true_iff.
  exists N. split_and!; try done. intros g Hg'.
  rewrite forallb_forall in Hg. apply Hg. by apply list_elem_of_In.
Qed.

Lemma ready_lookup h g : ready h g → g < length (gadget_objs h).
Proof.
  unfold ready, readyb. destruct (gadget_objs h !! g) eqn:HG; [|done].
  intros _. by eapply lookup_lt_Some.
Qed.

Lemma gadgets_of_shape h h' gs :
  gadget_objs h' = gadget_objs h → gadgets_of h' gs = gadgets_of h gs.
Proof. intros He. induction gs as [|g gs IH]; simpl; [done|]. by rewrite He, IH. Qed.

Section Run.

Variable set_iter : list string → list string.
Hypothesis set_iter_perm : ∀ s, set_iter s ≡ₚ s.

Lemma wf_gadgets_of h self N :
  wf h self → network_objs h !! self = Some N →
  ∃ Gs, gadgets_of h (gadgets N) = Some Gs.
Proof.
  intros (N' & HN' & Hready & _)%wf_inv HN.
  assert (N' = N) as -> by congruence.
  apply gadgets_of_total. intros g Hg. by apply ready_lookup, Hready.
Qed.

(** On a well-formed network [topological_sort] returns an order made of
    attached gadgets, or raises the cycle error. *)
Lemma topological_sort_wf h self N :
  wf h self → network_objs h !! self = Some N →
  topological_sort set_iter self h = (h, Raise (ValueError cycle_msg)) ∨
  ∃ order, topological_sort set_iter self h = (h, Ok order) ∧
           ∀ g, g ∈ order → ready h g.
Proof.
  intros Hwf HN. destruct (wf_gadgets_of h self N Hwf HN) as [Gs HGs].
  destruct (topological_sort_spec set_iter set_iter_perm h self N Gs HN HGs)
    as (order & _ & _ & Hmem & ->).
  case_decide; [by left|]. right. exists order. split; [done|].
  apply wf_inv in Hwf as (N' & HN' & Hready & _).
  assert (N' = N) as -> by congruence. intros g Hg. by apply Hready, Hmem.
Qed.

Lemma topological_sort_shape h h' self N :
  wf h self → network_objs h !! self = Some N → same_shape h h' →
  ∀ r, topological_sort set_iter self h = (h, r) →
       topological_sort set_iter self h' = (h', r).
Proof.
  intros Hwf HN Hs r Hr. destruct (wf_gadgets_of h self N Hwf HN) as [Gs HGs].
  assert (HN' : network_objs h' !! self = Some N).
  { destruct Hs as (_ & -> & _). done. }
  assert (HGs' : gadgets_of h' (gadgets N) = Some Gs).
  { rewrite <- HGs. apply gadgets_of_shape. by destruct Hs. }
  destruct (topological_sort_spec set_iter set_iter_perm h self N Gs HN HGs)
    as (order & Hk & _ & _ & Heq).
  destruct (topological_sort_spec set_iter set_iter_perm h' self N Gs HN' HGs')
    as (order' & Hk' & _ & _ & Heq').
  assert (order' = order) as -> by congruence.
  rewrite Heq'. rewrite Heq in Hr. congruence.
Qed.

(** What [run] does once the order is known. *)
Lemma run_stats_spec h self N order max_iterations :
  wf h self → network_objs h !! self = Some N →
  topological_sort set_iter self h = (h, Ok order) →
  (∀ g, g ∈ order → ready h g) ∧
  ∃ k conv,
    run_stats set_iter self max_iterations h =
      (after_passes order k h,
       Ok (k, conv, snapshot_pure (after_passes order k h) (pleats N) [])) ∧
    k ≤ Z.to_nat max_iterations ∧
    (∀ i, S i < k → pass_changed order (after_passes order i h) = true) ∧
    (conv = true →
       ∃ j, k = S j ∧ pass_changed order (after_passes order j h) = false) ∧
    (conv = false →
       k = Z.to_nat max_iterations ∧
       ∀ i, i < k → pass_changed order (after_passes order i h) = true).
Proof.
  intros Hwf HN Htopo.
  assert (Hready : ∀ g, g ∈ order → ready h g).
  { destruct (topological_sort_wf h self N Hwf HN) as [H|(order' & H & Hr)];
      rewrite H in Htopo; [done|]. by inversion Htopo; subst. }
  split; [done|].
  destruct (run_loop_spec order (Z.to_nat max_iterations) h Hready)
    as (k & conv & Hrun & Hk & Hbefore & Hconv & Hexh).
  exists k, conv. split; [|done].
  pose proof (after_passes_shape order k h Hready) as Hshape.
  unfold run_stats. unfold bind at 1. rewrite Htopo.
  unfold bind at 1. rewrite Hrun.
  unfold bind at 1. unfold get_network.
  destruct (Hshape) as (_ & -> & _). rewrite HN.
  apply wf_inv in Hwf as (N' & HN' & _ & Hvalid & _).
  assert (N' = N) as -> by congruence.
  unfold bind. rewrite snapshot_of_read; [done|].
  by rewrite (same_shape_length _ _ Hshape).
Qed.

End Run.


(** C6. When every one of the [max_iterations] passes changes some
    output, [run] still returns normally, after exactly that many passes,
    and the dictionary returned maps every name of the network to the
    signal its pleat has after the last pass. *)
Theorem run_exhausted_returns_snapshot (set_iter : list string → list string)
    (h : Heap) (self : nat) (N : Network) (order : list nat)
    (max_iterations : Z) :
  (∀ s, set_iter s ≡ₚ s) →
  wf h self →
  network_objs h !! self = Some N →
  topological_sort set_iter self h = (h, Ok order) →
  (∀ i, i < Z.to_nat max_iterations →
        pass_changed order (after_passes order i h) = true) →
  run_default set_iter self h = run set_iter self 5 h ∧
  ∃ snap,
    run set_iter self max_iterations h =
      (after_passes order (Z.to_nat max_iterations) h, Ok snap) ∧
    dict_keys snap = dict_keys (pleats N) ∧
    ∀ nm p, dict_get (pleats N) nm = Some p →
      ∃ s, sig_at (after_passes order (Z.to_nat max_iterations) h) p = Some s ∧
           dict_get snap nm = Some s.
Proof.
  intros Hperm Hwf HN Htopo Hall.
  destruct (run_stats_spec set_iter Hperm h self N order max_iterations Hwf HN Htopo)
    as (Hready & k & conv & Hrun & Hk & Hbefore & Hconv & Hexh).
  assert (conv = false) as ->.
  { destruct conv; [|done]. destruct (Hconv eq_refl) as (j & -> & Hj).
    rewrite Hall in Hj by lia. done. }
  destruct (Hexh eq_refl) as [-> _].
  set (h' := after_passes order (Z.to_nat max_iterations) h) in *.
  split; [done|].
  exists (snapshot_pure h' (pleats N) []). split_and!.
  - unfold run. unfold bind. by rewrite Hrun.
  - apply wf_inv in Hwf as (N' & HN' & _ & _ & Hnd).
    assert (N' = N) as -> by congruence.
    by rewrite snapshot_pure_keys.
  - intros nm p Hp.
    apply wf_inv in Hwf as (N' & HN' & _ & Hvalid & Hnd).
    assert (N' = N) as -> by congruence.
    rewrite snapshot_pure_get, Hp by done.
    assert (Hlt : p < length (pleat_objs h')).
    { rewrite (same_shape_length h h') by by apply after_passes_shape.
      rewrite forallb_forall in Hvalid.
      apply dict_get_elem, list_elem_of_In, Hvalid in Hp. by apply Nat.ltb_lt. }
    destruct (lookup_lt_is_Some_2 _ _ Hlt) as [P HP].
    exists (signal P). unfold sig_at. rewrite HP. done.
Qed.

Lemma after_passes_fixed order h k :
  pass_heap order h = h → after_passes order k h = h.
Proof. intros H. induction k as [|k IH]; simpl; [done|]. by rewrite H. Qed.

(** C8.  A circuit is stabilized when one more pass over the execution
    order changes no wire; this is in particular the case when the
    previous call of [run] ended because a pass changed no output.  On a
    stabilized circuit a further call of [run], with any iteration bound
    and nothing set in between, leaves the heap as it is and returns the
    dictionary the previous call returned.  The value a gadget writes
    depends on its class and on the current signals of its input pleats
    only. *)
Theorem run_idempotent_on_stabilized (set_iter : list string → list string)
    (h h1 : Heap) (self : nat) (N : Network) (order : list nat) (max1 : Z)
    (k : nat) (conv : bool) (snap1 : list (string * Signal)) :
  (∀ s, set_iter s ≡ₚ s) →
  wf h self →
  network_objs h !! self = Some N →
  topological_sort set_iter self h = (h, Ok order) →
  run_stats set_iter self max1 h = (h1, Ok (k, conv, snap1)) →
  conv = true ∨ pass_heap order h1 = h1 →
  pass_heap order h1 = h1 ∧
  (∀ max2, run set_iter self max2 h1 = (h1, Ok snap1)) ∧
  (∀ h' g G o ss,
     gadget_objs h' !! g = Some G → outputs G !! 0 = Some o →
     o < length (pleat_objs h') →
     read_signals h' (inputs G) = Some ss → arity (cls G) ≤ length ss →
     evaluate g h' = (with_signal h' o (gate_value (cls G) ss), Ok tt)).
Proof.
  intros Hperm Hwf HN Htopo Hstats Hstable.
  destruct (run_stats_spec set_iter Hperm h self N order max1 Hwf HN Htopo)
    as (Hready & k' & conv' & Hrun & _ & _ & Hconv & _).
  rewrite Hrun in Hstats.
  assert (Hh1 : after_passes order k' h = h1) by congruence.
  assert (k' = k) as -> by congruence.
  assert (conv' = conv) as -> by congruence.
  assert (Hsnap : snapshot_pure h1 (pleats N) [] = snap1) by congruence.
  clear Hstats Hrun.
  assert (Hfix : pass_heap order h1 = h1).
  { destruct Hstable as [->|Hfix]; [|done].
    destruct (Hconv eq_refl) as (j & -> & Hj).
    assert (Hreadyj : ∀ g, g ∈ order → ready (after_passes order j h) g).
    { eapply ready_shape; [|done]. by apply after_passes_shape. }
    destruct (pass_total order _ Hreadyj) as (_ & _ & Hquiet).
    specialize (Hquiet Hj).
    rewrite <- Hh1, after_passes_S, !Hquiet. done. }
  split; [done|]. split; [|apply evaluate_value].
  assert (Hshape : same_shape h h1).
  { rewrite <- Hh1. by apply after_passes_shape. }
  assert (Hwf1 : wf h1 self).
  { unfold wf. by rewrite (wfb_shape _ _ _ Hshape). }
  assert (HN1 : network_objs h1 !! self = Some N).
  { destruct Hshape as (_ & -> & _). done. }
  pose proof (topological_sort_shape set_iter Hperm h h1 self N Hwf HN Hshape _ Htopo)
    as Htopo1.
  intros max2.
  destruct (run_stats_spec set_iter Hperm h1 self N order max2 Hwf1 HN1 Htopo1)
    as (_ & k2 & conv2 & Hrun2 & _).
  unfold run. unfold bind. rewrite Hrun2. simpl.
  by rewrite (after_passes_fixed order h1 k2 Hfix), Hsnap.
Qed.

(** ** Order of the scheduler *)

(** The distinct elements of a list, in order of first occurrence. *)
Fixpoint first_occ (seen l : list string) : list string :=
  match l with
  | [] => []
  | x :: l' =>
      if decide (x ∈ seen) then first_occ seen l'
      else x :: first_occ (x :: seen) l'
  end.

Lemma first_occ_ext l : ∀ s1 s2,
  (∀ x, x ∈ s1 ↔ x ∈ s2) → first_occ s1 l = first_occ s2 l.
Proof.
  induction l as [|x l IH]; intros s1 s2 H; simpl; [done|].
  destruct (decide (x ∈ s1)) as [H1|H1], (decide (x ∈ s2)) as [H2|H2];
    try (by apply H in H1); try (by apply H in H2).
  - by apply IH.
  - f_equal. apply IH. intros y. rewrite !elem_of_cons, H. done.
Qed.

Lemma assign_all_keys_order {A V} (kf : A → string) (vf : A → V) l : ∀ d,
  dict_keys (assign_all kf vf d l) =
  dict_keys d ++ first_occ (dict_keys d) (kf <$> l).
Proof.
  induction l as [|x l IH]; intros d; csimpl.
  - by rewrite app_nil_r.
  - rewrite IH, dict_keys_set. unfold dict_mem.
    destruct (dict_get d (kf x)) eqn:Hx.
    + rewrite decide_True; [done|]. apply dict_get_keys. eauto.
    + rewrite decide_False by by apply dict_get_None_keys.
      rewrite <- app_assoc. simpl. do 2 f_equal. apply first_occ_ext.
      intros y. rewrite elem_of_app, elem_of_cons, elem_of_cons, elem_of_nil.
      (intuition (subst; eauto)).
Qed.

Lemma first_occ_NoDup l : ∀ seen,
  NoDup (first_occ seen l) ∧ ∀ x, x ∈ first_occ seen l → x ∉ seen.
Proof.
  induction l as [|x l IH]; intros seen; simpl.
  - split; [constructor|]. by intros x ?%elem_of_nil.
  - destruct (decide (x ∈ seen)) as [Hx|Hx]; [apply IH|].
    destruct (IH (x :: seen)) as [Hnd Hnot]. split.
    + constructor; [|done]. intros Hin%Hnot. apply Hin. by left.
    + intros y [->|Hy]%elem_of_cons; [done|].
      intros Hs. apply (Hnot y Hy). by right.
Qed.

Lemma in_degree_init_keys_order Gs :
  dict_keys (in_degree_init Gs) = first_occ [] (ids_of Gs).
Proof.
  exact (assign_all_keys_order (λ gG, gadget_id gG.2) (λ _, 0%Z) Gs []).
Qed.

(** With distinct keys, filtering the items on their value is filtering
    the keys on what the dictionary gives for them. *)
Lemma initial_queue_filter d :
  NoDup (dict_keys d) →
  initial_queue d = filter (λ k, dict_get d k = Some 0%Z) (dict_keys d).
Proof.
  unfold initial_queue, dict_keys.
  induction d as [|[k v] d IH]; intros Hnd; [done|].
  csimpl in *. apply NoDup_cons in Hnd as [Hk Hnd].
  rewrite !filter_cons. simpl. rewrite (decide_True (P := k = k)) by done.
  assert (Hrest : filter (λ k0, (if decide (k0 = k) then Some v else dict_get d k0)
                               = Some 0%Z) d.*1
                  = filter (λ k0, dict_get d k0 = Some 0%Z) d.*1).
  { clear -Hk. induction (d.*1) as [|k0 ks IHk]; [done|].
    rewrite !filter_cons. rewrite not_elem_of_cons in Hk. destruct Hk as [Hne Hk].
    rewrite (decide_False (P := k0 = k)) by done. rewrite IHk by done. done. }
  rewrite Hrest.
  destruct (decide (v = 0%Z)) as [->|Hv].
  - rewrite decide_True by done. csimpl. by rewrite IH.
  - rewrite decide_False by congruence. by apply IH.
Qed.

(** The loop depends on the traversal order only through the sets that
    are in the graph. *)
Lemma kahn_ext it1 it2 graph gm :
  (∀ k s, dict_get graph k = Some s → it1 s = it2 s) →
  ∀ fuel queue order d,
    kahn it1 fuel graph gm queue order d = kahn it2 fuel graph gm queue order d.
Proof.
  intros Hit. induction fuel as [|fuel IH]; intros queue order d;
    destruct queue as [|gid queue]; simpl; try done.
  destruct (dict_get gm gid); [|done].
  assert (neighbours it1 graph gid = neighbours it2 graph gid) as ->.
  { unfold neighbours. destruct (dict_get graph gid) eqn:Hs; [|done].
    by eapply Hit. }
  destruct (rfold visit _ _); simpl; [apply IH|done].
Qed.

Lemma set_iter_short (it : list string → list string) (s : list string) :
  (∀ s, it s ≡ₚ s) → length s ≤ 1 → it s = s.
Proof.
  intros Hperm Hlen. specialize (Hperm s). destruct s as [|x [|y s]].
  - by apply Permutation_nil_r.
  - by apply Permutation_singleton_r.
  - simpl in Hlen. lia.
Qed.

Lemma topological_sort_unfold it h self N Gs :
  network_objs h !! self = Some N →
  gadgets_of h (gadgets N) = Some Gs →
  topological_sort it self h =
  match kahn_order it Gs with
  | Ok order =>
      if decide (length order ≠ length (gadgets N))
      then (h, Raise (ValueError cycle_msg)) else (h, Ok order)
  | Raise e => (h, Raise e)
  end.
Proof.
  intros HN HGs. unfold topological_sort. unfold bind at 1. unfold get_network.
  rewrite HN. unfold bind at 1. rewrite (get_gadgets_read _ _ _ HGs).
  unfold bind, lift. destruct (kahn_order it Gs); [|done]. by case_decide.
Qed.

(** When no set in the graph has more than one member, the traversal
    order of sets cannot be observed. *)
Lemma run_ext_single_dependents (it1 it2 : list string → list string)
    h self N Gs st max_iterations :
  (∀ s, it1 s ≡ₚ s) →
  (∀ s, it2 s ≡ₚ s) →
  network_objs h !! self = Some N →
  gadgets_of h (gadgets N) = Some Gs →
  build_graph Gs = Ok st →
  forallb (λ ks, length ks.2 <=? 1) st.1 = true →
  topological_sort it1 self h = topological_sort it2 self h ∧
  run it1 self max_iterations h = run it2 self max_iterations h.
Proof.
  intros Hp1 Hp2 HN HGs Hb Hshort.
  assert (Hkahn : kahn_order it1 Gs = kahn_order it2 Gs).
  { unfold kahn_order. rewrite Hb. simpl. apply kahn_ext. intros k s Hs.
    assert (Hlen : length s ≤ 1).
    { rewrite forallb_forall in Hshort.
      apply dict_get_elem, list_elem_of_In, Hshort in Hs. by apply Nat.leb_le. }
    by rewrite (set_iter_short it1 _ Hp1 Hlen), (set_iter_short it2 _ Hp2 Hlen). }
  assert (Htopo : topological_sort it1 self h = topological_sort it2 self h).
  { by rewrite !(topological_sort_unfold _ h self N Gs HN HGs), Hkahn. }
  split; [done|]. unfold run, run_stats. unfold bind. by rewrite Htopo.
Qed.

(** ** The half-adder *)

Lemma bind_ok {A B} (m : M A) (f : A → M B) h h' a :
  m h = (h', Ok a) → bind m f h = f a h'.
Proof. intros H. unfold bind. by rewrite H. Qed.

(** C2. On a freshly built half-adder network, after
    [set_inputs({"a": a, "b": b})], [run()] returns a dictionary in which
    [sum] is the exclusive or and [carry] the conjunction of the two
    inputs, for each of the four boolean assignments. *)
Theorem half_adder_truth_table (set_iter : list string → list string)
    (a b : bool) :
  (∀ s, set_iter s ≡ₚ s) →
  ∃ h snap,
    half_adder_row set_iter a b empty_heap = (h, Ok snap) ∧
    dict_get snap "sum" = Some (Some (xorb a b)) ∧
    dict_get snap "carry" = Some (Some (a && b)) ∧
    (dict_get snap "sum", dict_get snap "carry") =
      match a, b with
      | false, false => (Some (Some false), Some (Some false))
      | false, true => (Some (Some true), Some (Some false))
      | true, false => (Some (Some true), Some (Some false))
      | true, true => (Some (Some false), Some (Some true))
      end.
Proof.
  intros Hperm.
  assert (Hid : ∀ s : list string, (λ s, s) s ≡ₚ s) by done.
  assert (Hrow : half_adder_row set_iter a b empty_heap =
                 half_adder_row (λ s, s) a b empty_heap).
  { unfold half_adder_row.
    destruct a, b;
      (erewrite !bind_ok by (vm_compute; reflexivity));
      unfold run_default;
      (eapply run_ext_single_dependents;
       [done|done|reflexivity|reflexivity|reflexivity|reflexivity]). }
  rewrite Hrow.
  destruct a, b; eexists _, _; (split; [vm_compute; reflexivity|]);
    split_and!; reflexivity.
Qed.


(** ** Re-declaring a pleat *)

Lemma add_pleat_eq h self N nm s :
  network_objs h !! self = Some N →
  add_pleat self nm s h =
    (mkHeap (pleat_objs h ++ [mkPleat nm s]) (gadget_objs h)
       (<[self := mkNetwork (dict_set (pleats N) nm (length (pleat_objs h)))
                            (gadgets N)]> (network_objs h)),
     Ok tt).
Proof. intros HN. unfold add_pleat. munfold. simpl. by rewrite HN. Qed.

(** C9, as the code has it.  [add_pleat] always creates a new pleat and
    binds the name to it.  When the name was already bound, the pleat it
    was bound to stays in the heap unchanged, and so does every gadget:
    gadgets attached before keep the pleats they resolved then.  Other
    names, the gadget list and other networks are not affected. *)
Theorem add_pleat_rebinds_name (h : Heap) (self : nat) (N : Network)
    (nm : string) (s : Signal) :
  network_objs h !! self = Some N →
  ∃ h' N',
    add_pleat self nm s h = (h', Ok tt) ∧
    network_objs h' = <[self := N']> (network_objs h) ∧
    pleat_objs h' = pleat_objs h ++ [mkPleat nm s] ∧
    gadget_objs h' = gadget_objs h ∧
    gadgets N' = gadgets N ∧
    dict_get (pleats N') nm = Some (length (pleat_objs h)) ∧
    (∀ p, dict_get (pleats N) nm = Some p →
          dict_keys (pleats N') = dict_keys (pleats N)) ∧
    (∀ nm', nm' ≠ nm → dict_get (pleats N') nm' = dict_get (pleats N) nm') ∧
    (∀ p, p < length (pleat_objs h) → pleat_objs h' !! p = pleat_objs h !! p).
Proof.
  intros HN.
  exists (mkHeap (pleat_objs h ++ [mkPleat nm s]) (gadget_objs h)
            (<[self := mkNetwork (dict_set (pleats N) nm (length (pleat_objs h)))
                                 (gadgets N)]> (network_objs h))),
         (mkNetwork (dict_set (pleats N) nm (length (pleat_objs h))) (gadgets N)).
  split_and!; simpl; try done.
  - by apply add_pleat_eq.
  - apply dict_get_set_eq.
  - intros p Hp. by eapply dict_keys_set_present.
  - intros nm' Hne. by apply dict_get_set_ne.
  - intros p Hp. by apply lookup_app_l.
Qed.

(** ** The invariant of the heap

    Every state reached through the constructors and the methods of
    [Network] satisfies [heap_ok]; on such a heap every network is
    well-formed in the sense of [wf]. *)

Definition valid_locs (h : Heap) (ps : list nat) : Prop :=
  Forall (λ p, p < length (pleat_objs h)) ps.

(** What the constructors establish and connecting maintains. *)
Definition gadget_ok (h : Heap) (G : Gadget) : Prop :=
  length (input_names G) = arity (cls G) ∧
  length (output_names G) = 1 ∧
  valid_locs h (inputs G) ∧ valid_locs h (outputs G).

(** A gadget that went through a successful [add_gadget]. *)
Definition attached (h : Heap) (g : nat) : Prop :=
  ∃ G, gadget_objs h !! g = Some G ∧
       arity (cls G) ≤ length (inputs G) ∧ 1 ≤ length (outputs G).

Definition network_ok (h : Heap) (N : Network) : Prop :=
  Forall (attached h) (gadgets N) ∧
  Forall (λ kv, kv.2 < length (pleat_objs h)) (pleats N) ∧
  NoDup (dict_keys (pleats N)).

Definition heap_ok (h : Heap) : Prop :=
  Forall (gadget_ok h) (gadget_objs h) ∧ Forall (network_ok h) (network_objs h).

Lemma forallb_Forall {A} (f : A → bool) (l : list A) :
  forallb f l = true ↔ Forall (λ x, f x = true) l.
Proof.
  induction l as [|x l IH]; simpl.
  - split; [constructor|done].
  - rewrite andb_true_iff, Forall_cons, IH. done.
Qed.

Lemma valid_locs_forallb h ps :
  valid_locs h ps → forallb (λ p, p <? length (pleat_objs h)) ps = true.
Proof.
  intros H. apply forallb_Forall. eapply Forall_impl; [exact H|].
  intros p Hp. by apply Nat.ltb_lt.
Qed.

Lemma heap_ok_wf h self N :
  heap_ok h → network_objs h !! self = Some N → wf h self.
Proof.
  intros [Hg Hn] HN. unfold wf, wfb. rewrite HN.
  rewrite Forall_lookup in Hn. destruct (Hn self N HN) as (Hatt & Hval & Hnd).
  apply andb_true_iff. split; [apply andb_true_iff; split|].
  - apply forallb_Forall. eapply Forall_impl; [exact Hatt|].
    intros g (G & HG & Hin & Hout). unfold readyb. rewrite HG.
    rewrite Forall_lookup in Hg. destruct (Hg g G HG) as (_ & _ & Hi & Ho).
    apply andb_true_iff. split; [apply andb_true_iff; split|].
    + by apply Nat.leb_le.
    + by apply Nat.leb_le.
    + rewrite forallb_app. apply andb_true_iff.
      split; by apply valid_locs_forallb.
  - apply forallb_Forall. eapply Forall_impl; [exact Hval|].
    intros kv Hkv. by apply Nat.ltb_lt.
  - by apply bool_decide_eq_true.
Qed.

Lemma empty_heap_ok : heap_ok empty_heap.
Proof. split; constructor. Qed.

Lemma valid_locs_mono h h' ps :
  length (pleat_objs h) ≤ length (pleat_objs h') →
  valid_locs h ps → valid_locs h' ps.
Proof.
  intros Hle H. eapply Forall_impl; [exact H|]. intros p Hp. simpl in Hp. lia.
Qed.

Lemma gadget_ok_mono h h' G :
  length (pleat_objs h) ≤ length (pleat_objs h') →
  gadget_ok h G → gadget_ok h' G.
Proof.
  intros Hle (H1 & H2 & H3 & H4). split_and!; try done; by eapply valid_locs_mono.
Qed.

Lemma network_ok_mono h h' N :
  length (pleat_objs h) ≤ length (pleat_objs h') →
  (∀ g, attached h g → attached h' g) →
  network_ok h N → network_ok h' N.
Proof.
  intros Hle Hatt (H1 & H2 & H3). split_and!; [| |done].
  - eapply Forall_impl; [exact H1|]. done.
  - eapply Forall_impl; [exact H2|]. intros kv Hkv. simpl in *. lia.
Qed.

(** Replacing a gadget object by one with more inputs and outputs. *)
Lemma attached_insert h h' g G G' :
  gadget_objs h !! g = Some G →
  gadget_objs h' = <[g := G']> (gadget_objs h) →
  cls G' = cls G →
  length (inputs G) ≤ length (inputs G') →
  length (outputs G) ≤ length (outputs G') →
  ∀ g0, attached h g0 → attached h' g0.
Proof.
  intros HG Hg' Hc Hi Ho g0 (G0 & HG0 & Hin & Hout). unfold attached. rewrite Hg'.
  destruct (decide (g = g0)) as [->|Hne].
  - exists G'. rewrite list_lookup_insert_eq by by eapply lookup_lt_Some.
    assert (G0 = G) as -> by congruence. rewrite Hc. split_and!; [done|lia..].
  - exists G0. by rewrite list_lookup_insert_ne.
Qed.

Lemma heap_ok_shape h h' : same_shape h h' → heap_ok h → heap_ok h'.
Proof.
  intros Hs [Hg Hn]. pose proof (same_shape_length _ _ Hs) as Hlen.
  destruct Hs as (Heg & Hen & _). split.
  - rewrite Heg. eapply Forall_impl; [exact Hg|].
    intros G. apply gadget_ok_mono. lia.
  - rewrite Hen. eapply Forall_impl; [exact Hn|].
    intros N. apply network_ok_mono; [lia|].
    intros g (G & HG & H). exists G. by rewrite Heg.
Qed.

(** [Network()] *)
Lemma new_Network_ok h : heap_ok h → heap_ok (new_Network h).1.
Proof.
  intros [Hg Hn]. split; simpl; [done|].
  apply Forall_app. split; [done|].
  constructor; [|constructor]. split_and!; simpl; constructor.
Qed.

(** The four gadget constructors. *)
Lemma new_Gadget_ok h c gid ins outs :
  length ins = arity c → length outs = 1 →
  heap_ok h → heap_ok (new_Gadget c gid ins outs h).1.
Proof.
  intros Hi Ho [Hg Hn]. split; simpl.
  - apply Forall_app. split.
    + eapply Forall_impl; [exact Hg|]. intros G. by apply gadget_ok_mono.
    + constructor; [|constructor]. split_and!; simpl; try done; constructor.
  - eapply Forall_impl; [exact Hn|]. intros N. apply network_ok_mono; [done|].
    intros g (G & HG & H). exists G. simpl.
    by rewrite lookup_app_l by by eapply lookup_lt_Some.
Qed.

Lemma NOTGadget_ok h gid i o : heap_ok h → heap_ok (NOTGadget gid i o h).1.
Proof. by apply new_Gadget_ok. Qed.
Lemma ANDGadget_ok h gid i1 i2 o : heap_ok h → heap_ok (ANDGadget gid i1 i2 o h).1.
Proof. by apply new_Gadget_ok. Qed.
Lemma ORGadget_ok h gid i1 i2 o : heap_ok h → heap_ok (ORGadget gid i1 i2 o h).1.
Proof. by apply new_Gadget_ok. Qed.
Lemma NANDGadget_ok h gid i1 i2 o : heap_ok h → heap_ok (NANDGadget gid i1 i2 o h).1.
Proof. by apply new_Gadget_ok. Qed.

(** [add_pleat] *)
Lemma add_pleat_ok h self N nm s :
  network_objs h !! self = Some N →
  heap_ok h → heap_ok (add_pleat self nm s h).1.
Proof.
  intros HN [Hg Hn]. unfold add_pleat. munfold. simpl. rewrite HN. simpl.
  assert (Hatt : ∀ g, attached h g →
            attached (mkHeap (pleat_objs h ++ [mkPleat nm s]) (gadget_objs h)
                       (<[self := mkNetwork (dict_set (pleats N) nm (length (pleat_objs h)))
                                            (gadgets N)]> (network_objs h))) g).
  { intros g (G & HG & H). by exists G. }
  split; simpl.
  - eapply Forall_impl; [exact Hg|]. intros G. apply gadget_ok_mono.
    simpl. rewrite length_app. lia.
  - pose proof Hn as Hn'. rewrite Forall_lookup in Hn'.
    destruct (Hn' self N HN) as (H1 & H2 & H3).
    apply Forall_insert.
    + eapply Forall_impl; [exact Hn|]. intros N0.
      apply network_ok_mono; [|done]. simpl. rewrite length_app. lia.
    + split_and!; simpl.
      * eapply Forall_impl; [exact H1|]. done.
      * apply Forall_forall. intros [k v] [[= -> ->]|Hkv]%dict_set_elem; simpl.
        -- rewrite length_app. simpl. lia.
        -- rewrite Forall_forall in H2. specialize (H2 _ Hkv). simpl in H2.
           rewrite length_app. lia.
      * by apply NoDup_dict_set.
Qed.

(** [add_gadget], whether it succeeds or raises. *)
Lemma add_gadget_ok h self gadget N G :
  network_objs h !! self = Some N →
  gadget_objs h !! gadget = Some G →
  heap_ok h → heap_ok (add_gadget self gadget h).1.
Proof.
  intros HN HG [Hg Hn].
  pose proof Hg as Hg0. rewrite Forall_lookup in Hg0.
  destruct (Hg0 gadget G HG) as (Hin & Hon & Hiv & Hov).
  pose proof Hn as Hn0. rewrite Forall_lookup in Hn0.
  destruct (Hn0 self N HN) as (HNatt & HNval & HNnd).
  assert (Hsrc : ∀ p nm, dict_get (pleats N) nm = Some p → p < length (pleat_objs h)).
  { intros p nm Hp%dict_get_elem. rewrite Forall_forall in HNval.
    by apply HNval in Hp. }
  destruct (add_gadget_cases h self gadget N G HN HG)
    as [(h' & nm & ps & -> & _ & _ & Hp & Hnn & Hgg & Hps)|
        (h' & pl' & ps & qs & news & -> & Hp & Hnn & Hgg & HF1 & HF2 & _ & _ & _ & Hval & Hnd)];
    simpl.
  - assert (Hatt : ∀ g, attached h g → attached h' g).
    { eapply attached_insert; [done|done|done|simpl..].
      - rewrite length_app. lia.
      - lia. }
    split.
    + rewrite Hgg. apply Forall_insert.
      * eapply Forall_impl; [exact Hg|]. intros G0. apply gadget_ok_mono.
        rewrite Hp. lia.
      * split_and!; simpl; try done.
        -- apply Forall_app. split.
           ++ eapply valid_locs_mono; [|done]. rewrite Hp. lia.
           ++ eapply Forall_impl; [exact Hps|]. intros p [nm' Hp']. simpl.
              rewrite Hp. by eapply Hsrc.
        -- eapply valid_locs_mono; [|done]. rewrite Hp. lia.
    + rewrite Hnn. eapply Forall_impl; [exact Hn|]. intros N0.
      apply network_ok_mono; [rewrite Hp; lia|done].
  - assert (Hle : length (pleat_objs h) ≤ length (pleat_objs h')).
    { rewrite Hp, length_app. lia. }
    assert (Hlps : length ps = arity (cls G)).
    { rewrite <- Hin. symmetry. by eapply Forall2_length. }
    assert (Hlqs : length qs = 1).
    { rewrite <- Hon. symmetry. by eapply Forall2_length. }
    assert (Hatt : ∀ g, attached h g → attached h' g).
    { eapply attached_insert; [done|done|done|simpl..].
      - rewrite length_app. lia.
      - rewrite length_app. lia. }
    assert (Hnew : attached h' gadget).
    { eexists. rewrite Hgg.
      split; [apply list_lookup_insert_eq; by eapply lookup_lt_Some|].
      simpl. rewrite !length_app. lia. }
    split.
    + rewrite Hgg. apply Forall_insert.
      * eapply Forall_impl; [exact Hg|]. intros G0. by apply gadget_ok_mono.
      * split_and!; simpl; try done.
        -- apply Forall_app. split; [by eapply valid_locs_mono|].
           apply Forall_forall. intros p Hpin.
           apply list_elem_of_lookup in Hpin as [i Hi].
           destruct (Forall2_lookup_r _ _ _ _ _ HF1 Hi) as (nm' & _ & Hnm').
           specialize (Hsrc _ _ Hnm'). lia.
        -- apply Forall_app. split; [by eapply valid_locs_mono|].
           apply Forall_forall. intros p Hpin.
           apply list_elem_of_lookup in Hpin as [i Hi].
           destruct (Forall2_lookup_r _ _ _ _ _ HF2 Hi) as (nm' & _ & Hnm').
           destruct (Hval _ _ Hnm') as [Hold|[_ Hlt]]; [|done].
           specialize (Hsrc _ _ Hold). lia.
    + rewrite Hnn. apply Forall_insert.
      * eapply Forall_impl; [exact Hn|]. intros N0. by apply network_ok_mono.
      * split_and!; simpl.
        -- apply Forall_app. split.
           ++ eapply Forall_impl; [exact HNatt|]. done.
           ++ constructor; [done|constructor].
        -- apply Forall_forall. intros [k v] Hkv. simpl.
           apply dict_elem_get in Hkv; [|by apply Hnd].
           destruct (Hval _ _ Hkv) as [Hold|[_ Hlt]]; [|done].
           specialize (Hsrc _ _ Hold). lia.
        -- by apply Hnd.
Qed.

Lemma set_signal_eq h p s :
  p < length (pleat_objs h) → set_signal p s h = (with_signal h p s, Ok tt).
Proof.
  intros Hlt. destruct (lookup_lt_is_Some_2 _ _ Hlt) as [P HP].
  unfold with_signal. munfold. by rewrite HP.
Qed.

(** [set_inputs] *)
Lemma set_inputs_ok self items : ∀ h N,
  network_objs h !! self = Some N →
  heap_ok h → heap_ok (set_inputs self items h).1.
Proof.
  unfold set_inputs.
  induction items as [|[nm s] items IH]; intros h N HN Hok; simpl; [done|].
  unfold bind at 1. unfold bind at 1. unfold get_network. rewrite HN.
  destruct (dict_get (pleats N) nm) as [p|] eqn:Hp.
  - assert (Hlt : p < length (pleat_objs h)).
    { destruct Hok as [_ Hn]. rewrite Forall_lookup in Hn.
      destruct (Hn self N HN) as (_ & Hval & _). rewrite Forall_forall in Hval.
      by apply dict_get_elem, Hval in Hp. }
    rewrite (set_signal_eq _ _ _ Hlt).
    pose proof (with_signal_shape h p s) as Hs.
    apply (IH _ N).
    + destruct Hs as (_ & -> & _). done.
    + by eapply heap_ok_shape.
  - pose proof (add_pleat_ok h self N nm s HN Hok) as Hok'.
    rewrite (add_pleat_eq h self N nm s HN) in Hok' |- *.
    eapply IH; [|exact Hok']. simpl.
    apply list_lookup_insert_eq. by eapply lookup_lt_Some.
Qed.

(** [run], whether it returns or raises. *)
Lemma run_ok (set_iter : list string → list string) h self N max_iterations :
  (∀ s, set_iter s ≡ₚ s) →
  network_objs h !! self = Some N →
  heap_ok h → heap_ok (run set_iter self max_iterations h).1.
Proof.
  intros Hperm HN Hok. pose proof (heap_ok_wf h self N Hok HN) as Hwf.
  destruct (topological_sort_wf set_iter Hperm h self N Hwf HN)
    as [Hraise|(order & Htopo & Hready)].
  - by rewrite (run_raises _ _ _ _ _ Hraise).
  - destruct (run_stats_spec set_iter Hperm h self N order max_iterations Hwf HN Htopo)
      as (_ & k & conv & Hrun & _).
    unfold run, bind. rewrite Hrun. simpl.
    eapply heap_ok_shape; [|done]. by apply after_passes_shape.
Qed.

(** On a heap satisfying the invariant, [run] either raises the cycle
    error or returns a dictionary; it never fails in any other way. *)
Lemma run_total (set_iter : list string → list string) h self N max_iterations :
  (∀ s, set_iter s ≡ₚ s) →
  network_objs h !! self = Some N →
  heap_ok h →
  run set_iter self max_iterations h = (h, Raise (ValueError cycle_msg)) ∨
  ∃ h' snap, run set_iter self max_iterations h = (h', Ok snap).
Proof.
  intros Hperm HN Hok. pose proof (heap_ok_wf h self N Hok HN) as Hwf.
  destruct (topological_sort_wf set_iter Hperm h self N Hwf HN)
    as [Hraise|(order & Htopo & Hready)].
  - left. by apply run_raises.
  - right.
    destruct (run_stats_spec set_iter Hperm h self N order max_iterations Hwf HN Htopo)
      as (_ & k & conv & Hrun & _).
    eexists _, _. unfold run, bind. by rewrite Hrun.
Qed.

(** ** Concrete networks *)

(** A [NOT] gadget attached before its input name is declared again. *)
Definition redeclared_input : M (list (string * Signal)) :=
  do net <- new_Network ;
  exec add_pleat net "a" None ;
  exec add_pleat net "out" None ;
  do g <- NOTGadget "n1" "a" "out" ;
  exec add_gadget net g ;
  exec add_pleat net "a" (Some true) ;
  run_default (λ s, s) net.

(** Two gadgets writing the same pleat with different values. *)
Definition two_writers : M nat :=
  do net <- new_Network ;
  exec add_pleat net "a" (Some true) ;
  exec add_pleat net "x" None ;
  do g1 <- NOTGadget "n1" "a" "x" ;
  exec add_gadget net g1 ;
  do g2 <- ORGadget "o1" "a" "a" "x" ;
  exec add_gadget net g2 ;
  ret net.

(** A [NOT] gadget whose output is its own input. *)
Definition self_loop : M nat :=
  do net <- new_Network ;
  exec add_pleat net "x" (Some true) ;
  do g <- NOTGadget "n1" "x" "x" ;
  exec add_gadget net g ;
  ret net.

(** Two gadgets, each reading the other's output. *)
Definition two_cycle : M nat :=
  do net <- new_Network ;
  exec add_pleat net "x" None ;
  exec add_pleat net "y" None ;
  do g1 <- NOTGadget "g1" "y" "x" ;
  exec add_gadget net g1 ;
  do g2 <- NOTGadget "g2" "x" "y" ;
  exec add_gadget net g2 ;
  ret net.


(** The network of [Test_Undefined_Minimal]. *)
Definition and_none : M nat :=
  do net <- new_Network ;
  exec add_pleat net "a" None ;
  exec add_pleat net "b" (Some true) ;
  exec add_pleat net "c" None ;
  do g <- ANDGadget "and1" "a" "b" "c" ;
  exec add_gadget net g ;
  ret net.

(** Two acyclic gadgets with the same identifier. *)
Definition same_id : M nat :=
  do net <- new_Network ;
  exec add_pleat net "a" (Some true) ;
  do g1 <- NOTGadget "g" "a" "x" ;
  exec add_gadget net g1 ;
  do g2 <- NOTGadget "g" "a" "y" ;
  exec add_gadget net g2 ;
  ret net.

(** [Test_Undefined_Minimal.test_and_none]: the output of [AND] with an
    undefined input stays undefined. *)
Example test_and_none :
  ((do net <- and_none ; run_default (λ s, s) net) empty_heap).2 =
  Ok [("a", None); ("b", Some true); ("c", None)].
Proof. reflexivity. Qed.

(** [Test_Gates_TruthTables.test_nand], one network driven through the
    four input vectors in turn. *)
Definition nand_table : M (list Signal) :=
  do net <- new_Network ;
  exec add_pleat net "a" None ; exec add_pleat net "b" None ;
  exec add_pleat net "out" None ;
  do g <- NANDGadget "nand1" "a" "b" "out" ;
  exec add_gadget net g ;
  exec set_inputs net [("a", Some false); ("b", Some false)] ;
  do r1 <- run_default (λ s, s) net ;
  exec set_inputs net [("a", Some false); ("b", Some true)] ;
  do r2 <- run_default (λ s, s) net ;
  exec set_inputs net [("a", Some true); ("b", Some false)] ;
  do r3 <- run_default (λ s, s) net ;
  exec set_inputs net [("a", Some true); ("b", Some true)] ;
  do r4 <- run_default (λ s, s) net ;
  ret (default None <$> [dict_get r1 "out"; dict_get r2 "out";
                         dict_get r3 "out"; dict_get r4 "out"]).

Example test_nand :
  (nand_table empty_heap).2 = Ok [Some true; Some true; Some true; Some false].
Proof. reflexivity. Qed.

(** [run_half_adder_table]: one network, the four input vectors in turn;
    each entry is the pair of [sum] and [carry]. *)
Definition half_adder_table : M (list (Signal * Signal)) :=
  do net <- build_half_adder_network ;
  exec set_inputs net [("a", Some false); ("b", Some false)] ;
  do r1 <- run_default (λ s, s) net ;
  exec set_inputs net [("a", Some false); ("b", Some true)] ;
  do r2 <- run_default (λ s, s) net ;
  exec set_inputs net [("a", Some true); ("b", Some false)] ;
  do r3 <- run_default (λ s, s) net ;
  exec set_inputs net [("a", Some true); ("b", Some true)] ;
  do r4 <- run_default (λ s, s) net ;
  ret ((λ r, (default None (dict_get r "sum"), default None (dict_get r "carry")))
         <$> [r1; r2; r3; r4]).

Example test_half_adder_all :
  (half_adder_table empty_heap).2 =
  Ok [(Some false, Some false); (Some true, Some false);
      (Some true, Some false); (Some false, Some true)].
Proof. reflexivity. Qed.

(** Attaching a gadget whose input was never declared. *)
Example attach_unresolved :
  ((do net <- new_Network ;
    do g <- NOTGadget "n1" "a" "out" ;
    add_gadget net g) empty_heap).2 =
  Raise (ValueError "Pleat de entrada 'a' no encontrado para gadget n1").
Proof. reflexivity. Qed.

(** The heaps these constructions leave. *)
Definition h_two_writers : Heap := (two_writers empty_heap).1.
Definition h_self_loop : Heap := (self_loop empty_heap).1.
Definition h_two_cycle : Heap := (two_cycle empty_heap).1.
Definition h_and_none : Heap := (and_none empty_heap).1.
Definition h_same_id : Heap := (same_id empty_heap).1.
Definition h_half_adder : Heap :=
  ((do net <- build_half_adder_network ;
    set_inputs net [("a", Some true); ("b", Some false)]) empty_heap).1.


(** A circuit that never stabilizes.  On [self_loop] every pass toggles
    [x]: the first [run()] uses its five passes, and a second [run()]
    with nothing set in between returns a different dictionary. *)
Lemma rerun_after_exhausted_differs :
  (run_stats (λ s, s) 0 5 h_self_loop).2 = Ok (5, false, [("x", Some false)]) ∧
  (run_default (λ s, s) 0 h_self_loop).2 = Ok [("x", Some false)] ∧
  (run_default (λ s, s) 0 (run_default (λ s, s) 0 h_self_loop).1).2 =
    Ok [("x", Some true)].
Proof. vm_compute. done. Qed.

(** C9, the claim as written fails.  After [add_pleat("a", True)] on a
    network whose [NOT] gadget was attached before, the name [a] refers
    to a new pleat (address 2) while the gadget still reads the old one
    (address 0): [run()] leaves [out] undefined although the registered
    [a] is true. *)
Lemma redeclared_pleat_not_read_by_gate :
  (redeclared_input empty_heap).2 = Ok [("a", Some true); ("out", None)] ∧
  pleats <$> network_objs (redeclared_input empty_heap).1 !! 0 =
    Some [("a", 2); ("out", 1)] ∧
  inputs <$> gadget_objs (redeclared_input empty_heap).1 !! 0 = Some [0] ∧
  (redeclared_input empty_heap).2 ≠ Ok [("a", Some true); ("out", Some false)].
Proof. vm_compute. done. Qed.


(** ** The theorems at concrete networks *)

(** The network object at an address, and the gadget objects and the
    graph state of a network, for heaps where they exist. *)
Definition net_of (h : Heap) (self : nat) : Network :=
  default (mkNetwork [] []) (network_objs h !! self).
Definition objs_of (h : Heap) (self : nat) : list (nat * Gadget) :=
  default [] (gadgets_of h (gadgets (net_of h self))).

Lemma id_perm : ∀ s : list string, (λ s, s) s ≡ₚ s.
Proof. intros s. reflexivity. Defined.

(** C1 on the gadget of [and_none]: [AND(None, True)] writes [None]. *)
Lemma evaluate_strict_rule_witness :
  gadget_objs h_and_none !! 0 =
    Some (mkGadget AND "and1" ["a"; "b"] ["c"] [0; 1] [2]) ∧
  read_signals h_and_none [0; 1] = Some [None; Some true] ∧
  ∃ v : Signal,
    evaluate 0 h_and_none = (with_signal h_and_none 2 v, Ok tt) ∧
    sig_at (with_signal h_and_none 2 v) 2 = Some v ∧
    ((∃ i, [None; Some true] !! i = Some None) → v = None) ∧
    (∀ a b, (∀ i, [None; Some true] !! i ≠ Some None) →
            [None; Some true] !! 0 = Some (Some a) →
            (AND = NOT ∨ [None; Some true] !! 1 = Some (Some b)) →
            v = Some (truth_table AND a b)).
Proof.
  split; [reflexivity|]. split; [reflexivity|].
  apply (evaluate_strict_rule h_and_none 0
           (mkGadget AND "and1" ["a"; "b"] ["c"] [0; 1] [2]) 2 [None; Some true]).
  - reflexivity.
  - reflexivity.
  - vm_compute. lia.
  - reflexivity.
  - simpl. lia.
Defined.

(** C2 for [a = True], [b = False]. *)
Lemma half_adder_truth_table_witness :
  (∀ s : list string, (λ s, s) s ≡ₚ s) ∧
  ∃ h snap,
    half_adder_row (λ s, s) true false empty_heap = (h, Ok snap) ∧
    dict_get snap "sum" = Some (Some true) ∧
    dict_get snap "carry" = Some (Some false) ∧
    (dict_get snap "sum", dict_get snap "carry") =
      (Some (Some true), Some (Some false)).
Proof.
  split; [exact id_perm|].
  exact (half_adder_truth_table (λ s, s) true false id_perm).
Defined.

(** C3 on [two_cycle]. *)
Lemma run_cycle_error_no_partial_result_witness :
  network_objs h_two_cycle !! 0 = Some (net_of h_two_cycle 0) ∧
  gadgets_of h_two_cycle (gadgets (net_of h_two_cycle 0)) =
    Some (objs_of h_two_cycle 0) ∧
  kahn_order (λ s, s) (objs_of h_two_cycle 0) = Ok [] ∧
  length (@nil nat) < length (gadgets (net_of h_two_cycle 0)) ∧
  run (λ s, s) 0 5 h_two_cycle = (h_two_cycle, Raise (ValueError cycle_msg)).
Proof.
  split; [reflexivity|]. split; [reflexivity|]. split; [reflexivity|].
  split; [vm_compute; lia|].
  apply (run_cycle_error_no_partial_result (λ s, s) h_two_cycle 0
           (net_of h_two_cycle 0) (objs_of h_two_cycle 0) [] 5).
  - reflexivity.
  - reflexivity.
  - reflexivity.
  - vm_compute. lia.
Defined.

(** C4 on [and_none], attaching its gadget once more. *)
Lemma add_gadget_all_or_nothing_witness :
  network_objs h_and_none !! 0 = Some (net_of h_and_none 0) ∧
  gadget_objs h_and_none !! 0 =
    Some (mkGadget AND "and1" ["a"; "b"] ["c"] [0; 1] [2]) ∧
  ∃ h' r, add_gadget 0 0 h_and_none = (h', r).
Proof.
  split; [reflexivity|]. split; [reflexivity|].
  destruct (add_gadget_all_or_nothing h_and_none 0 0 (net_of h_and_none 0)
              (mkGadget AND "and1" ["a"; "b"] ["c"] [0; 1] [2]))
    as (h' & r & Hrun & _).
  - reflexivity.
  - reflexivity.
  - exists h', r. exact Hrun.
Defined.


(** C6 on [two_writers], where no pass is quiet. *)
Lemma run_exhausted_returns_snapshot_witness :
  wf h_two_writers 0 ∧
  (∀ i, i < Z.to_nat 5 →
        pass_changed [0; 1] (after_passes [0; 1] i h_two_writers) = true) ∧
  ∃ snap,
    run (λ s, s) 0 5 h_two_writers =
      (after_passes [0; 1] (Z.to_nat 5) h_two_writers, Ok snap) ∧
    dict_keys snap = dict_keys (pleats (net_of h_two_writers 0)).
Proof.
  assert (Hall : ∀ i, i < Z.to_nat 5 →
            pass_changed [0; 1] (after_passes [0; 1] i h_two_writers) = true).
  { intros i Hi. do 5 (destruct i as [|i]; [reflexivity|]).
    simpl in Hi. lia. }
  split; [reflexivity|]. split; [exact Hall|].
  destruct (run_exhausted_returns_snapshot (λ s, s) h_two_writers 0
              (net_of h_two_writers 0) [0; 1] 5)
    as (_ & snap & Hrun & Hkeys & _).
  - exact id_perm.
  - reflexivity.
  - reflexivity.
  - reflexivity.
  - exact Hall.
  - exists snap. split; assumption.
Defined.

(** C8 on [two_writers]: the first [run()] uses its five passes without
    a quiet one, yet a further pass changes no wire. *)
Lemma run_idempotent_on_stabilized_witness :
  wf h_two_writers 0 ∧
  topological_sort (λ s, s) 0 h_two_writers = (h_two_writers, Ok [0; 1]) ∧
  run_stats (λ s, s) 0 5 h_two_writers =
    ((run_stats (λ s, s) 0 5 h_two_writers).1,
     Ok (5, false, [("a", Some true); ("x", Some true)])) ∧
  pass_heap [0; 1] (run_stats (λ s, s) 0 5 h_two_writers).1 =
    (run_stats (λ s, s) 0 5 h_two_writers).1 ∧
  ∀ max2,
    run (λ s, s) 0 max2 (run_stats (λ s, s) 0 5 h_two_writers).1 =
      ((run_stats (λ s, s) 0 5 h_two_writers).1,
       Ok [("a", Some true); ("x", Some true)]).
Proof.
  assert (Hfix : pass_heap [0; 1] (run_stats (λ s, s) 0 5 h_two_writers).1 =
                 (run_stats (λ s, s) 0 5 h_two_writers).1)
    by (vm_compute; reflexivity).
  split; [vm_compute; reflexivity|]. split; [vm_compute; reflexivity|].
  split; [vm_compute; reflexivity|]. split; [exact Hfix|].
  destruct (run_idempotent_on_stabilized (λ s, s) h_two_writers
              (run_stats (λ s, s) 0 5 h_two_writers).1 0
              (net_of h_two_writers 0) [0; 1] 5 5 false
              [("a", Some true); ("x", Some true)])
    as (_ & Hrun & _).
  - exact id_perm.
  - vm_compute. reflexivity.
  - vm_compute. reflexivity.
  - vm_compute. reflexivity.
  - vm_compute. reflexivity.
  - right. exact Hfix.
  - exact Hrun.
Defined.

(** C9 on [and_none], declaring [a] again. *)
Lemma add_pleat_rebinds_name_witness :
  network_objs h_and_none !! 0 = Some (net_of h_and_none 0) ∧
  dict_get (pleats (net_of h_and_none 0)) "a" = Some 0 ∧
  ∃ h' N',
    add_pleat 0 "a" (Some true) h_and_none = (h', Ok tt) ∧
    dict_get (pleats N') "a" = Some 3 ∧
    gadget_objs h' = gadget_objs h_and_none.
Proof.
  split; [reflexivity|]. split; [reflexivity|].
  destruct (add_pleat_rebinds_name h_and_none 0 (net_of h_and_none 0) "a" (Some true))
    as (h' & N' & Hrun & _ & _ & Hg & _ & Hnew & _).
  - reflexivity.
  - exists h', N'. split; [exact Hrun|]. split; [exact Hnew|exact Hg].
Defined.

(** C10 on [same_id]: both gadgets are called [g], neither depends on
    the other. *)
Lemma duplicate_id_accepted_then_cycle_error_witness :
  (∀ s : list string, reverse s ≡ₚ s) ∧
  network_objs h_same_id !! 0 = Some (net_of h_same_id 0) ∧
  gadgets_of h_same_id (gadgets (net_of h_same_id 0)) = Some (objs_of h_same_id 0) ∧
  ids_of (objs_of h_same_id 0) = ["g"; "g"] ∧
  ∀ max_iterations,
    run reverse 0 max_iterations h_same_id =
      (h_same_id, Raise (ValueError cycle_msg)).
Proof.
  split; [exact reverse_Permutation|]. split; [reflexivity|].
  split; [reflexivity|]. split; [reflexivity|].
  destruct (duplicate_id_accepted_then_cycle_error reverse h_same_id 0
              (net_of h_same_id 0) (objs_of h_same_id 0))
    as [_ Hrun].
  - exact reverse_Permutation.
  - reflexivity.
  - reflexivity.
  - apply Hrun. intros Hnd. change (NoDup ["g"; "g"]) in Hnd.
    apply NoDup_cons in Hnd as [Hnot _]. apply Hnot. left.
Defined.

(** * Further properties of the engine *)

(** ** What a pass writes *)

(** The pleat a gadget writes: [self.outputs[0]]. *)
Definition first_output (h : Heap) (g : nat) : option nat :=
  match gadget_objs h !! g with
  | Some G => outputs G !! 0
  | None => None
  end.

Lemma with_signal_other h o v p :
  p ≠ o → sig_at (with_signal h o v) p = sig_at h p.
Proof.
  intros Hne. unfold sig_at, with_signal.
  destruct (pleat_objs h !! o) as [P|]; [|done]. simpl.
  by rewrite list_lookup_insert_ne.
Qed.

Lemma with_signal_twice h o v w :
  with_signal (with_signal h o v) o w = with_signal h o w.
Proof.
  unfold with_signal. destruct (pleat_objs h !! o) as [P|] eqn:HP; simpl.
  - rewrite list_lookup_insert_eq by by eapply lookup_lt_Some. simpl.
    by rewrite list_insert_insert_eq.
  - by rewrite HP.
Qed.

Lemma read_signals_ext h h' ps :
  (∀ p, p ∈ ps → sig_at h' p = sig_at h p) →
  read_signals h' ps = read_signals h ps.
Proof.
  induction ps as [|p ps IH]; intros H; simpl; [done|].
  rewrite H by by left. rewrite IH; [done|]. intros q Hq. apply H. by right.
Qed.

(** The body of the pass loop, with the pleat and the value named. *)
Lemma step_exact h g G o ss :
  ready h g →
  gadget_objs h !! g = Some G →
  outputs G !! 0 = Some o →
  read_signals h (inputs G) = Some ss →
  ∃ c, step g h = (with_signal h o (gate_value (cls G) ss), Ok c) ∧
       (c = false ↔ sig_at h o = Some (gate_value (cls G) ss)).
Proof.
  intros (G' & o' & ss' & os & HG' & Ho' & Hlt & Hss' & Har & Hos)%ready_inv HG Ho Hss.
  assert (G' = G) as -> by congruence.
  assert (o' = o) as -> by congruence.
  assert (ss' = ss) as -> by congruence.
  pose proof (evaluate_value h g G o ss HG Ho Hlt Hss Har) as Hev.
  set (v := gate_value (cls G) ss) in *.
  pose proof (with_signal_shape h o v) as Hshape.
  assert (Hos' : ∃ os', read_signals (with_signal h o v) (outputs G) = Some os').
  { apply read_signals_total. rewrite (same_shape_length _ _ Hshape).
    clear -Hos. induction (outputs G) as [|p ps IH] in os, Hos |- *; [done|].
    simpl in *. unfold sig_at in Hos.
    destruct (pleat_objs h !! p) as [P|] eqn:HP; [|done]. simpl in Hos.
    destruct (read_signals h ps) as [ss|] eqn:Hps; [|done].
    apply andb_true_iff. split; [|by eapply IH].
    apply Nat.ltb_lt. by eapply lookup_lt_Some. }
  destruct Hos' as [os' Hos'].
  exists (bool_decide (os ≠ os')). split.
  - unfold step. unfold bind at 1. unfold get_gadget at 1. rewrite HG.
    unfold bind at 1. rewrite (signals_of_read _ _ _ Hos).
    unfold bind at 1. rewrite Hev.
    unfold bind at 1. unfold get_gadget.
    destruct Hshape as (-> & _). rewrite HG.
    unfold bind. by rewrite (signals_of_read _ _ _ Hos').
  - split.
    + intros Hc. apply bool_decide_eq_false in Hc. apply dec_stable in Hc. subst os'.
      destruct (read_signals_lookup _ _ _ 0 o Hos Ho) as (s & Hs & Hso).
      destruct (read_signals_lookup _ _ _ 0 o Hos' Ho) as (s' & Hs' & Hso').
      rewrite with_signal_sig_at in Hso' by done. congruence.
    + intros Hsame. apply bool_decide_eq_false. intros Hne. apply Hne.
      rewrite (with_signal_id _ _ _ Hsame) in Hos'. congruence.
Qed.

Lemma ready_first_output h g :
  ready h g →
  ∃ G o ss, gadget_objs h !! g = Some G ∧ outputs G !! 0 = Some o ∧
            first_output h g = Some o ∧
            read_signals h (inputs G) = Some ss.
Proof.
  intros (G & o & ss & os & HG & Ho & _ & Hss & _)%ready_inv.
  exists G, o, ss. unfold first_output. rewrite HG. done.
Qed.

Lemma first_output_shape h h' g :
  same_shape h h' → first_output h' g = first_output h g.
Proof. intros (Hg & _). unfold first_output. by rewrite Hg. Qed.

(** The flag only accumulates: a pass started with [changed] set ends
    in the same heap as one started with it clear. *)
Lemma pass_flag order : ∀ h changed,
  pass order changed h =
  (pass_heap order h,
   match (pass order false h).2 with
   | Ok c => Ok (if changed then true else c)
   | Raise e => Raise e
   end).
Proof.
  unfold pass_heap.
  induction order as [|g order IH]; intros h changed; simpl.
  - unfold ret. simpl. by destruct changed.
  - unfold bind. destruct (step g h) as [h1 [c|e]]; [|done].
    rewrite (IH h1 (if c then true else changed)), (IH h1 (if c then true else false)).
    simpl. destruct (pass order false h1) as [h2 [c2|e2]]; simpl; [|done].
    by destruct c, changed.
Qed.

Lemma pass_cons g order h G o ss :
  ready h g →
  gadget_objs h !! g = Some G →
  outputs G !! 0 = Some o →
  read_signals h (inputs G) = Some ss →
  (∀ g', g' ∈ order → ready h g') →
  let h1 := with_signal h o (gate_value (cls G) ss) in
  pass_heap (g :: order) h = pass_heap order h1 ∧
  (pass_changed (g :: order) h = false ↔
   sig_at h o = Some (gate_value (cls G) ss) ∧ pass_changed order h1 = false).
Proof.
  intros Hg HG Ho Hss Hrest h1.
  destruct (step_exact h g G o ss Hg HG Ho Hss) as (c & Hstep & Hc).
  assert (Hready1 : ∀ g', g' ∈ order → ready h1 g').
  { eapply ready_shape; [|done]. apply with_signal_shape. }
  destruct (pass_total order h1 Hready1) as (Hpass & _).
  unfold pass_heap at 1, pass_changed at 1. simpl. unfold bind. rewrite Hstep.
  fold h1. rewrite pass_flag, Hpass. simpl. split; [done|].
  rewrite <- Hc. destruct c; [|tauto]. split; [done|]. by intros [? _].
Qed.

(** A pass changes no pleat other than the first outputs of its
    gadgets. *)
Lemma pass_frame order : ∀ h p,
  (∀ g, g ∈ order → ready h g) →
  (∀ g, g ∈ order → first_output h g ≠ Some p) →
  sig_at (pass_heap order h) p = sig_at h p.
Proof.
  induction order as [|g order IH]; intros h p Hready Hp; [done|].
  destruct (ready_first_output h g) as (G & o & ss & HG & Ho & Hfo & Hss);
    [apply Hready; by left|].
  destruct (pass_cons g order h G o ss) as [-> _]; try done.
  { apply Hready. by left. }
  { intros g' Hg'. apply Hready. by right. }
  pose proof (with_signal_shape h o (gate_value (cls G) ss)) as Hshape.
  rewrite IH.
  - apply with_signal_other. intros ->. apply (Hp g); [by left|done].
  - eapply ready_shape; [done|]. intros g' Hg'. apply Hready. by right.
  - intros g' Hg'. rewrite (first_output_shape _ _ _ Hshape). apply Hp. by right.
Qed.

Lemma after_passes_frame order k : ∀ h p,
  (∀ g, g ∈ order → ready h g) →
  (∀ g, g ∈ order → first_output h g ≠ Some p) →
  sig_at (after_passes order k h) p = sig_at h p.
Proof.
  induction k as [|k IH]; intros h p Hready Hp; simpl; [done|].
  destruct (pass_total order h Hready) as (_ & Hshape & _).
  rewrite IH.
  - by apply pass_frame.
  - by eapply ready_shape.
  - intros g Hg. rewrite (first_output_shape _ _ _ Hshape). by apply Hp.
Qed.

(** A checker for the heap invariant. *)
Definition gadget_okb (h : Heap) (G : Gadget) : bool :=
  (length (input_names G) =? arity (cls G)) &&
  (length (output_names G) =? 1) &&
  forallb (λ p, p <? length (pleat_objs h)) (inputs G) &&
  forallb (λ p, p <? length (pleat_objs h)) (outputs G).

Definition attachedb (h : Heap) (g : nat) : bool :=
  match gadget_objs h !! g with
  | Some G => (arity (cls G) <=? length (inputs G)) && (1 <=? length (outputs G))
  | None => false
  end.

Definition network_okb (h : Heap) (N : Network) : bool :=
  forallb (attachedb h) (gadgets N) &&
  forallb (λ kv, kv.2 <? length (pleat_objs h)) (pleats N) &&
  bool_decide (NoDup (dict_keys (pleats N))).

Definition heap_okb (h : Heap) : bool :=
  forallb (gadget_okb h) (gadget_objs h) && forallb (network_okb h) (network_objs h).

Lemma forallb_valid_locs h ps :
  forallb (λ p, p <? length (pleat_objs h)) ps = true → valid_locs h ps.
Proof.
  intros H%forallb_Forall. eapply Forall_impl; [exact H|].
  intros p Hp. by apply Nat.ltb_lt.
Qed.

Lemma heap_okb_sound h : heap_okb h = true → heap_ok h.
Proof.
  unfold heap_okb. intros [Hg Hn]%andb_true_iff. split.
  - apply forallb_Forall in Hg. eapply Forall_impl; [exact Hg|].
    intros G. unfold gadget_okb.
    intros [[[H1 H2]%andb_true_iff H3]%andb_true_iff H4]%andb_true_iff.
    split_and!.
    + by apply Nat.eqb_eq.
    + by apply Nat.eqb_eq.
    + by apply forallb_valid_locs.
    + by apply forallb_valid_locs.
  - apply forallb_Forall in Hn. eapply Forall_impl; [exact Hn|].
    intros N. unfold network_okb.
    intros [[H1 H2]%andb_true_iff H3]%andb_true_iff. split_and!.
    + apply forallb_Forall in H1. eapply Forall_impl; [exact H1|].
      intros g. unfold attachedb, attached.
      destruct (gadget_objs h !! g) as [G|]; [|done].
      intros [Ha Hb]%andb_true_iff. exists G.
      split_and!; [done|by apply Nat.leb_le..].
    + apply forallb_Forall in H2. eapply Forall_impl; [exact H2|].
      intros kv Hkv. by apply Nat.ltb_lt.
    + by apply bool_decide_eq_true in H3.
Qed.

(** ** How [run] ends and what it touches *)

(** X1. On a heap built by the constructors and methods, [run] raises
    nothing but the cycle error.  When it returns, only signals have
    changed, and the dictionary returned has exactly the registered
    names, in registration order, each with the current signal of its
    pleat. *)
Theorem run_returns_complete_snapshot (set_iter : list string → list string)
    (h : Heap) (self : nat) (N : Network) (max_iterations : Z) :
  (∀ s, set_iter s ≡ₚ s) →
  heap_ok h →
  network_objs h !! self = Some N →
  run set_iter self max_iterations h = (h, Raise (ValueError cycle_msg)) ∨
  ∃ h' snap,
    run set_iter self max_iterations h = (h', Ok snap) ∧
    same_shape h h' ∧
    dict_keys snap = dict_keys (pleats N) ∧
    ∀ nm p, dict_get (pleats N) nm = Some p →
      ∃ s, sig_at h' p = Some s ∧ dict_get snap nm = Some s.
Proof.
  intros Hperm Hok HN. pose proof (heap_ok_wf h self N Hok HN) as Hwf.
  destruct (topological_sort_wf set_iter Hperm h self N Hwf HN)
    as [Hraise|(order & Htopo & Hready)].
  { left. by apply run_raises. }
  right.
  destruct (run_stats_spec set_iter Hperm h self N order max_iterations Hwf HN Htopo)
    as (_ & k & conv & Hrun & _).
  set (h' := after_passes order k h) in *.
  assert (Hshape : same_shape h h') by by apply after_passes_shape.
  apply wf_inv in Hwf as (N' & HN' & _ & Hvalid & Hnd).
  assert (N' = N) as -> by congruence.
  exists h', (snapshot_pure h' (pleats N) []). split_and!.
  - unfold run, bind. by rewrite Hrun.
  - done.
  - by rewrite snapshot_pure_keys.
  - intros nm p Hp. rewrite snapshot_pure_get, Hp by done.
    assert (Hlt : p < length (pleat_objs h')).
    { rewrite (same_shape_length h h') by done.
      rewrite forallb_forall in Hvalid.
      apply dict_get_elem, list_elem_of_In, Hvalid in Hp. by apply Nat.ltb_lt. }
    destruct (lookup_lt_is_Some_2 _ _ Hlt) as [P HP].
    exists (signal P). unfold sig_at. rewrite HP. done.
Qed.

Lemma run_returns_complete_snapshot_witness :
  heap_ok h_half_adder ∧
  ∃ h' snap,
    run (λ s, s) 0 5 h_half_adder = (h', Ok snap) ∧
    dict_keys snap = ["a"; "b"; "and_temp"; "or_temp"; "not_temp"; "sum"; "carry"].
Proof.
  assert (Hok : heap_ok h_half_adder) by (apply heap_okb_sound; reflexivity).
  split; [exact Hok|].
  destruct (run_returns_complete_snapshot (λ s, s) h_half_adder 0
              (net_of h_half_adder 0) 5 id_perm Hok eq_refl)
    as [Hraise|(h' & snap & Hrun & _ & Hkeys & _)].
  - exfalso. revert Hraise. vm_compute. intros [=].
  - exists h', snap. split; [exact Hrun|exact Hkeys].
Defined.

(** X2. [run] writes no pleat other than the first output of a gadget
    attached to the network: the signal of every other pleat, the input
    pleats among them, is after the call what it was before. *)
Theorem run_writes_only_gadget_outputs (set_iter : list string → list string)
    (h : Heap) (self : nat) (N : Network) (max_iterations : Z) (p : nat) :
  (∀ s, set_iter s ≡ₚ s) →
  wf h self →
  network_objs h !! self = Some N →
  (∀ g, g ∈ gadgets N → first_output h g ≠ Some p) →
  sig_at (run set_iter self max_iterations h).1 p = sig_at h p.
Proof.
  intros Hperm Hwf HN Hp.
  destruct (wf_gadgets_of h self N Hwf HN) as [Gs HGs].
  destruct (topological_sort_spec set_iter Hperm h self N Gs HN HGs)
    as (order & _ & _ & Hmem & Htopo).
  case_decide as Hlen.
  { by rewrite (run_raises _ _ _ _ _ Htopo). }
  destruct (run_stats_spec set_iter Hperm h self N order max_iterations Hwf HN Htopo)
    as (Hready & k & conv & Hrun & _).
  unfold run, bind. rewrite Hrun. simpl.
  apply after_passes_frame; [done|]. intros g Hg. by apply Hp, Hmem.
Qed.

Lemma run_writes_only_gadget_outputs_witness :
  wf h_half_adder 0 ∧
  (∀ g, g ∈ gadgets (net_of h_half_adder 0) → first_output h_half_adder g ≠ Some 0) ∧
  sig_at (run (λ s, s) 0 5 h_half_adder).1 0 = Some (Some true).
Proof.
  assert (Hp : ∀ g, g ∈ gadgets (net_of h_half_adder 0) →
                    first_output h_half_adder g ≠ Some 0).
  { intros g Hg. change (g ∈ [0; 1; 2; 3; 4]) in Hg.
    repeat (apply elem_of_cons in Hg as [->|Hg]; [vm_compute; intros [=]|]).
    apply elem_of_nil in Hg as []. }
  split; [reflexivity|]. split; [exact Hp|].
  rewrite (run_writes_only_gadget_outputs (λ s, s) h_half_adder 0
             (net_of h_half_adder 0) 5 0 id_perm eq_refl eq_refl Hp).
  reflexivity.
Defined.



(** X4. [evaluate] is idempotent on a gadget whose output pleat is not
    one of its input pleats: a second call in a row leaves the heap as
    the first one left it. *)
Theorem evaluate_twice (h : Heap) (self : nat) (G : Gadget) (o : nat)
    (ss : list Signal) :
  gadget_objs h !! self = Some G →
  outputs G !! 0 = Some o →
  o < length (pleat_objs h) →
  read_signals h (inputs G) = Some ss →
  arity (cls G) ≤ length ss →
  o ∉ inputs G →
  (exec evaluate self ; evaluate self) h = evaluate self h.
Proof.
  intros HG Ho Hlt Hss Har Hnot.
  pose proof (evaluate_value h self G o ss HG Ho Hlt Hss Har) as Hev.
  set (v := gate_value (cls G) ss) in *.
  pose proof (with_signal_shape h o v) as Hshape.
  unfold bind. rewrite Hev.
  rewrite (evaluate_value (with_signal h o v) self G o ss).
  - by rewrite with_signal_twice.
  - destruct Hshape as (-> & _). done.
  - done.
  - by rewrite (same_shape_length _ _ Hshape).
  - rewrite <- Hss. apply read_signals_ext. intros p Hp.
    apply with_signal_other. intros ->. done.
  - done.
Qed.

Lemma evaluate_twice_witness :
  (2 ∉ [0; 1]) ∧
  ((exec evaluate 0 ; evaluate 0) h_and_none = evaluate 0 h_and_none).
Proof.
  assert (Hnot : 2 ∉ [0; 1]).
  { intros Hin. repeat (apply elem_of_cons in Hin as [Hin|Hin]; [lia|]).
    by apply elem_of_nil in Hin. }
  split; [exact Hnot|].
  apply (evaluate_twice h_and_none 0
           (mkGadget AND "and1" ["a"; "b"] ["c"] [0; 1] [2]) 2 [None; Some true]).
  - reflexivity.
  - reflexivity.
  - vm_compute. lia.
  - reflexivity.
  - simpl. lia.
  - exact Hnot.
Defined.

(** ** Producers *)

Lemma producer_inner (gid out : string) outs : ∀ d : list (string * string),
  dict_get (foldl (λ d o, dict_set d o gid) d outs) out =
  if decide (out ∈ outs) then Some gid else dict_get d out.
Proof.
  induction outs as [|o outs IH]; intros d; [done|]. cbn [foldl].
  - rewrite IH. destruct (decide (out ∈ outs)) as [Hin|Hnin].
    + rewrite decide_True; [done|]. by right.
    + destruct (decide (o = out)) as [->|Hne].
      * rewrite dict_get_set_eq. rewrite decide_True; [done|]. by left.
      * rewrite dict_get_set_ne by done. rewrite decide_False; [done|].
        intros [->|?]%elem_of_cons; done.
Qed.

Lemma producer_outer (out : string) Gs : ∀ d : list (string * string),
  dict_get
    (foldl (λ d (gG : nat * Gadget),
              foldl (λ d o, dict_set d o (gadget_id gG.2)) d (output_names gG.2))
           d Gs) out =
  match last (filter (λ gG : nat * Gadget, out ∈ output_names gG.2) Gs) with
  | Some gG => Some (gadget_id gG.2)
  | None => dict_get d out
  end.
Proof.
  induction Gs as [|gG Gs IH]; intros d; [done|].
  cbn [foldl]. rewrite IH, filter_cons, producer_inner.
  destruct (decide (out ∈ output_names gG.2)) as [Hin|Hnin]; [|done].
  rewrite last_cons. by destruct (last (filter _ Gs)).
Qed.

(** X5. The producer recorded for a pleat name is the gadget attached
    last among those that list the name as an output; a name no gadget
    writes has no producer.  Earlier writers of the same name are
    recorded nowhere. *)
Theorem pleat_to_producer_last_writer (Gs : list (nat * Gadget)) (out : string) :
  dict_get (pleat_to_producer_of Gs) out =
  (λ gG : nat * Gadget, gadget_id gG.2) <$>
    last (filter (λ gG : nat * Gadget, out ∈ output_names gG.2) Gs).
Proof.
  unfold pleat_to_producer_of. rewrite producer_outer.
  by destruct (last (filter _ Gs)).
Qed.

(** ** What [add_gadget] leaves in the gadget *)

Lemma connect_inputs_prefix self n gid N names : ∀ h G i nm,
  gadget_objs h !! self = Some G →
  network_objs h !! n = Some N →
  names !! i = Some nm →
  dict_get (pleats N) nm = None →
  Forall (λ nm', is_Some (dict_get (pleats N) nm')) (take i names) →
  ∃ h' ps,
    for_ names (connect_inputs_body self n gid) h =
      (h', Raise (ValueError (unresolved_msg nm gid))) ∧
    pleat_objs h' = pleat_objs h ∧
    network_objs h' = network_objs h ∧
    gadget_objs h' = <[self := add_inputs G ps]> (gadget_objs h) ∧
    Forall2 (λ nm' p, dict_get (pleats N) nm' = Some p) (take i names) ps.
Proof.
  induction names as [|nm0 names IH]; intros h G i nm HG HN Hi Hnone Hpre; [done|].
  simpl. unfold connect_inputs_body at 1. munfold. rewrite HN.
  destruct i as [|i]; simpl in Hi, Hpre.
  - inversion Hi; subst nm0. rewrite Hnone.
    exists h, []. split_and!; try done.
    unfold add_inputs. rewrite app_nil_r. destruct G; simpl.
    by rewrite list_insert_id.
  - apply Forall_cons in Hpre as [[p Hp] Hpre]. rewrite Hp, HG.
    set (h1 := mkHeap (pleat_objs h) (<[self := add_inputs G [p]]> (gadget_objs h))
                      (network_objs h)).
    destruct (IH h1 (add_inputs G [p]) i nm) as (h' & ps & Hrun & Hp' & Hn & Hg & HF);
      try done.
    { simpl. apply list_lookup_insert_eq. by eapply lookup_lt_Some. }
    exists h', (p :: ps). split; [exact Hrun|]. split_and!; try done.
    + rewrite Hg. simpl. rewrite list_insert_insert_eq.
      unfold add_inputs. simpl. by rewrite <- app_assoc.
    + simpl. by constructor.
Qed.

(** X6. When [add_gadget] fails, the gadget object is not left as it
    was: the pleats of the input names that come before the first missing
    one have been appended to [gadget.inputs].  (The network and the
    pleats are untouched.)  A second [add_gadget] of the same object
    therefore finds these entries in front of the ones it appends. *)
Theorem add_gadget_failure_keeps_resolved_inputs (h : Heap) (self gadget : nat)
    (N : Network) (G : Gadget) (i : nat) (nm : string) :
  network_objs h !! self = Some N →
  gadget_objs h !! gadget = Some G →
  input_names G !! i = Some nm →
  dict_get (pleats N) nm = None →
  Forall (λ nm', is_Some (dict_get (pleats N) nm')) (take i (input_names G)) →
  ∃ h' ps,
    add_gadget self gadget h =
      (h', Raise (ValueError (unresolved_msg nm (gadget_id G)))) ∧
    network_objs h' = network_objs h ∧
    pleat_objs h' = pleat_objs h ∧
    gadget_objs h' !! gadget = Some (add_inputs G ps) ∧
    length ps = i ∧
    Forall2 (λ nm' p, dict_get (pleats N) nm' = Some p) (take i (input_names G)) ps.
Proof.
  intros HN HG Hi Hnone Hpre.
  destruct (connect_inputs_prefix gadget self (gadget_id G) N (input_names G)
              h G i nm HG HN Hi Hnone Hpre)
    as (h' & ps & Hrun & Hp & Hn & Hg & HF).
  exists h', ps. split_and!; try done.
  - unfold add_gadget. unfold bind at 1. unfold connect_inputs.
    unfold bind at 1. unfold get_gadget. rewrite HG.
    unfold connect_inputs_body in Hrun. by rewrite Hrun.
  - rewrite Hg. apply list_lookup_insert_eq. by eapply lookup_lt_Some.
  - rewrite <- (Forall2_length _ _ _ HF), length_take.
    apply lookup_lt_Some in Hi. lia.
Qed.

(** A gadget built by [ANDGadget("g", "a", "b", "c")] on a network that
    has [a] but not [b]. *)
Definition half_declared : M nat :=
  do net <- new_Network ;
  exec add_pleat net "a" (Some true) ;
  do g <- ANDGadget "g" "a" "b" "c" ;
  ret net.
Definition h_half_declared : Heap := (half_declared empty_heap).1.

Lemma add_gadget_failure_keeps_resolved_inputs_witness :
  dict_get (pleats (net_of h_half_declared 0)) "b" = None ∧
  ∃ h' ps,
    add_gadget 0 0 h_half_declared =
      (h', Raise (ValueError (unresolved_msg "b" "g"))) ∧
    inputs <$> gadget_objs h' !! 0 = Some ps ∧ length ps = 1.
Proof.
  split; [reflexivity|].
  destruct (add_gadget_failure_keeps_resolved_inputs h_half_declared 0 0
              (net_of h_half_declared 0)
              (mkGadget AND "g" ["a"; "b"] ["c"] [] []) 1 "b")
    as (h' & ps & Hrun & _ & _ & Hg & Hlen & _).
  - reflexivity.
  - reflexivity.
  - reflexivity.
  - reflexivity.
  - repeat constructor. exists 0. reflexivity.
  - exists h', ps. split; [exact Hrun|]. split; [|exact Hlen].
    rewrite Hg. reflexivity.
Defined.

(** X7. A successful [add_gadget] of a gadget that was never connected
    leaves it wired to the registry: its input pleats are the pleats
    registered under its input names, in order, and its output pleats
    those registered under its output names after the call. *)
Theorem add_gadget_wires_to_registry (h : Heap) (self gadget : nat)
    (N : Network) (G : Gadget) :
  network_objs h !! self = Some N →
  gadget_objs h !! gadget = Some G →
  inputs G = [] → outputs G = [] →
  (∀ nm, nm ∈ input_names G → is_Some (dict_get (pleats N) nm)) →
  ∃ h' N' G',
    add_gadget self gadget h = (h', Ok tt) ∧
    network_objs h' !! self = Some N' ∧
    gadget_objs h' !! gadget = Some G' ∧
    cls G' = cls G ∧ gadget_id G' = gadget_id G ∧
    Forall2 (λ nm p, dict_get (pleats N') nm = Some p) (input_names G) (inputs G') ∧
    Forall2 (λ nm p, dict_get (pleats N') nm = Some p) (output_names G) (outputs G').
Proof.
  intros HN HG Hi Ho Hall.
  destruct (add_gadget_cases h self gadget N G HN HG)
    as [(h' & nm & ps & _ & Hnm & Hnone & _)|
        (h' & pl' & ps & qs & news & Hrun & Hp & Hn & Hg & HF1 & HF2 & Hold & _)].
  { destruct (Hall nm Hnm) as [p Hp]. congruence. }
  exists h', (mkNetwork pl' (gadgets N ++ [gadget])), (add_outputs (add_inputs G ps) qs).
  split_and!; try done.
  - rewrite Hn. apply list_lookup_insert_eq. by eapply lookup_lt_Some.
  - rewrite Hg. apply list_lookup_insert_eq. by eapply lookup_lt_Some.
  - simpl. rewrite Hi. simpl. eapply Forall2_impl; [exact HF1|].
    intros nm p Hp'. by apply Hold.
  - simpl. rewrite Ho. done.
Qed.

(** The same network with a fresh [NOT] gadget on [a]. *)
Definition fresh_not : M nat :=
  do net <- new_Network ;
  exec add_pleat net "a" (Some true) ;
  do g <- NOTGadget "n" "a" "out" ;
  ret net.
Definition h_fresh_not : Heap := (fresh_not empty_heap).1.

Lemma add_gadget_wires_to_registry_witness :
  (∀ nm, nm ∈ ["a"] → is_Some (dict_get (pleats (net_of h_fresh_not 0)) nm)) ∧
  ∃ h' N' G',
    add_gadget 0 0 h_fresh_not = (h', Ok tt) ∧
    network_objs h' !! 0 = Some N' ∧
    gadget_objs h' !! 0 = Some G' ∧
    Forall2 (λ nm p, dict_get (pleats N') nm = Some p) ["a"] (inputs G') ∧
    Forall2 (λ nm p, dict_get (pleats N') nm = Some p) ["out"] (outputs G').
Proof.
  assert (Hall : ∀ nm, nm ∈ ["a"] →
                       is_Some (dict_get (pleats (net_of h_fresh_not 0)) nm)).
  { intros nm Hnm. apply elem_of_cons in Hnm as [->|Hnm].
    - exists 0. reflexivity.
    - apply elem_of_nil in Hnm as []. }
  split; [exact Hall|].
  destruct (add_gadget_wires_to_registry h_fresh_not 0 0 (net_of h_fresh_not 0)
              (mkGadget NOT "n" ["a"] ["out"] [] []))
    as (h' & N' & G' & Hrun & HN' & HG' & _ & _ & HF1 & HF2).
  - reflexivity.
  - reflexivity.
  - reflexivity.
  - reflexivity.
  - exact Hall.
  - exists h', N', G'. split_and!; assumption.
Defined.

(** ** Names of registered pleats *)

(** Every pleat in a registry carries the name it is registered under,
    so two names never share a pleat. *)
Definition names_ok (h : Heap) : Prop :=
  Forall (λ N, Forall (λ kv, name <$> pleat_objs h !! kv.2 = Some kv.1) (pleats N))
         (network_objs h).

Definition names_okb (h : Heap) : bool :=
  forallb (λ N, forallb (λ kv, bool_decide (name <$> pleat_objs h !! kv.2 = Some kv.1))
                        (pleats N))
          (network_objs h).

Lemma names_okb_sound h : names_okb h = true → names_ok h.
Proof.
  intros H%forallb_Forall. eapply Forall_impl; [exact H|].
  intros N HN%forallb_Forall. eapply Forall_impl; [exact HN|].
  intros kv Hkv. by apply bool_decide_eq_true in Hkv.
Qed.

Lemma names_ok_lookup h self N nm p :
  names_ok h → network_objs h !! self = Some N →
  dict_get (pleats N) nm = Some p →
  name <$> pleat_objs h !! p = Some nm.
Proof.
  intros Hn HN Hp%dict_get_elem. unfold names_ok in Hn.
  rewrite Forall_lookup in Hn. specialize (Hn self N HN).
  rewrite Forall_forall in Hn. by apply Hn in Hp.
Qed.

(** Two registered names with the same pleat are the same name. *)
Lemma names_ok_inj h self N nm1 nm2 p :
  names_ok h → network_objs h !! self = Some N →
  dict_get (pleats N) nm1 = Some p → dict_get (pleats N) nm2 = Some p →
  nm1 = nm2.
Proof.
  intros Hn HN H1 H2.
  pose proof (names_ok_lookup h self N nm1 p Hn HN H1).
  pose proof (names_ok_lookup h self N nm2 p Hn HN H2). congruence.
Qed.

Lemma names_ok_grow h h' :
  (∀ p nm, name <$> pleat_objs h !! p = Some nm →
           name <$> pleat_objs h' !! p = Some nm) →
  Forall (λ N, Forall (λ kv, name <$> pleat_objs h !! kv.2 = Some kv.1) (pleats N))
         (network_objs h) →
  Forall (λ N, Forall (λ kv, name <$> pleat_objs h' !! kv.2 = Some kv.1) (pleats N))
         (network_objs h).
Proof.
  intros Hkeep H. eapply Forall_impl; [exact H|].
  intros N HN. eapply Forall_impl; [exact HN|]. intros kv. apply Hkeep.
Qed.

Lemma names_kept_app h h' news :
  pleat_objs h' = pleat_objs h ++ news →
  ∀ p nm, name <$> pleat_objs h !! p = Some nm →
          name <$> pleat_objs h' !! p = Some nm.
Proof.
  intros -> p nm H. destruct (pleat_objs h !! p) as [P|] eqn:HP; [|done].
  by rewrite (lookup_app_l_Some _ _ _ _ HP).
Qed.

Lemma names_ok_shape h h' : same_shape h h' → names_ok h → names_ok h'.
Proof.
  intros (_ & Hn & Hnames) H. unfold names_ok. rewrite Hn.
  eapply names_ok_grow; [|exact H]. intros p nm.
  by rewrite <- !list_lookup_fmap, Hnames.
Qed.

Lemma empty_names_ok : names_ok empty_heap.
Proof. constructor. Qed.

Lemma new_Network_names_ok h : names_ok h → names_ok (new_Network h).1.
Proof.
  intros H. unfold names_ok. simpl. apply Forall_app. split; [done|].
  constructor; [constructor|constructor].
Qed.

Lemma new_Gadget_names_ok h c gid ins outs :
  names_ok h → names_ok (new_Gadget c gid ins outs h).1.
Proof. done. Qed.

Lemma add_pleat_names_ok h self N nm s :
  network_objs h !! self = Some N →
  names_ok h → names_ok (add_pleat self nm s h).1.
Proof.
  intros HN H. rewrite (add_pleat_eq h self N nm s HN). unfold names_ok. simpl.
  assert (Hkeep : ∀ p nm', name <$> pleat_objs h !! p = Some nm' →
                    name <$> (pleat_objs h ++ [mkPleat nm s]) !! p = Some nm').
  { intros p nm' Hp. destruct (pleat_objs h !! p) as [P|] eqn:HP; [|done].
    by rewrite (lookup_app_l_Some _ _ _ _ HP). }
  pose proof H as H0. unfold names_ok in H0. rewrite Forall_lookup in H0.
  specialize (H0 self N HN).
  apply Forall_insert.
  - eapply Forall_impl; [exact H|]. intros N0 HN0.
    eapply Forall_impl; [exact HN0|]. intros kv. apply Hkeep.
  - simpl. apply Forall_forall. intros [k v] [[= -> ->]|Hkv]%dict_set_elem; simpl.
    + by rewrite list_lookup_middle.
    + rewrite Forall_forall in H0. apply Hkeep. by apply (H0 (k, v)).
Qed.

Lemma add_gadget_names_ok h self gadget N G :
  network_objs h !! self = Some N →
  gadget_objs h !! gadget = Some G →
  heap_ok h → names_ok h → names_ok (add_gadget self gadget h).1.
Proof.
  intros HN HG Hok H.
  destruct (add_gadget_cases h self gadget N G HN HG)
    as [(h' & nm & ps & -> & _ & _ & Hp & Hnn & _)|
        (h' & pl' & ps & qs & news & -> & Hp & Hnn & _ & _ & _ & Hold & Hout & Hnew & _ & Hnd)];
    simpl.
  - unfold names_ok. by rewrite Hnn, Hp.
  - pose proof (names_kept_app h h' news Hp) as Hkeep.
    destruct Hok as [_ Hnets]. rewrite Forall_lookup in Hnets.
    destruct (Hnets self N HN) as (_ & _ & HNnd).
    unfold names_ok. rewrite Hnn. apply Forall_insert.
    + by apply (names_ok_grow h h').
    + simpl. apply Forall_forall. intros [k v] Hkv. simpl.
      apply dict_elem_get in Hkv; [|by apply Hnd].
      destruct (dict_get (pleats N) k) as [p0|] eqn:Hk.
      * assert (v = p0) as -> by (apply Hold in Hk; congruence).
        apply Hkeep. by eapply names_ok_lookup.
      * destruct (decide (k ∈ output_names G)) as [Hin|Hnin].
        -- destruct (Hnew k Hin Hk) as (p' & Hp' & _ & HP').
           assert (v = p') as -> by congruence. by rewrite HP'.
        -- rewrite (Hout k Hnin) in Hkv. congruence.
Qed.

(** ** set_inputs *)

Lemma set_inputs_spec self items : ∀ h N,
  heap_ok h → names_ok h →
  network_objs h !! self = Some N →
  NoDup (dict_keys items) →
  ∃ h' N',
    set_inputs self items h = (h', Ok tt) ∧
    heap_ok h' ∧ names_ok h' ∧
    network_objs h' !! self = Some N' ∧
    gadget_objs h' = gadget_objs h ∧
    gadgets N' = gadgets N ∧
    (∀ nm p, dict_get (pleats N) nm = Some p → dict_get (pleats N') nm = Some p) ∧
    (∀ nm, nm ∉ dict_keys items → dict_get (pleats N') nm = dict_get (pleats N) nm) ∧
    (∀ nm p, nm ∉ dict_keys items → dict_get (pleats N) nm = Some p →
             sig_at h' p = sig_at h p) ∧
    (∀ nm s, (nm, s) ∈ items →
             ∃ p, dict_get (pleats N') nm = Some p ∧ sig_at h' p = Some s).
Proof.
  unfold set_inputs, dict_keys.
  induction items as [|[k s0] items IH]; intros h N Hok Hnames HN Hnd.
  - exists h, N. split_and!; try done. intros nm s Hin. by apply elem_of_nil in Hin.
  - csimpl in Hnd. apply NoDup_cons in Hnd as [Hk Hnd].
    cbn [for_]. unfold bind at 1. unfold bind at 1. unfold get_network. rewrite HN.
    destruct (dict_get (pleats N) k) as [q|] eqn:Hq.
    + assert (Hlt : q < length (pleat_objs h)).
      { destruct Hok as [_ Hn]. rewrite Forall_lookup in Hn.
        destruct (Hn self N HN) as (_ & Hval & _). rewrite Forall_forall in Hval.
        by apply dict_get_elem, Hval in Hq. }
      rewrite (set_signal_eq _ _ _ Hlt).
      pose proof (with_signal_shape h q s0) as Hs.
      set (h1 := with_signal h q s0) in *.
      assert (HN1 : network_objs h1 !! self = Some N).
      { destruct Hs as (_ & -> & _). done. }
      destruct (IH h1 N) as (h' & N' & Hrun & Hok' & Hnames' & HN' & Hg & Hgs &
                             Hkeep & Hsame & Hframe & Hset);
        [by eapply heap_ok_shape|by eapply names_ok_shape|done|done|].
      exists h', N'. split; [exact Hrun|]. split_and!; try done.
      * rewrite Hg. by destruct Hs as (-> & _).
      * intros nm Hnm. csimpl in Hnm. rewrite not_elem_of_cons in Hnm.
        apply Hsame. tauto.
      * intros nm p Hnm Hp. csimpl in Hnm. rewrite not_elem_of_cons in Hnm.
        destruct Hnm as [Hne Hnm]. rewrite (Hframe nm p Hnm Hp).
        apply with_signal_other. intros ->.
        apply Hne. exact (names_ok_inj h self N nm k q Hnames HN Hp Hq).
      * intros nm s [[= -> ->]|Hin]%elem_of_cons; [|by apply Hset].
        exists q. split; [by apply Hkeep|].
        rewrite (Hframe k q Hk Hq). by apply with_signal_sig_at.
    + pose proof (add_pleat_ok h self N k s0 HN Hok) as Hok1.
      pose proof (add_pleat_names_ok h self N k s0 HN Hnames) as Hnames1.
      rewrite (add_pleat_eq h self N k s0 HN) in Hok1, Hnames1 |- *.
      set (N1 := mkNetwork (dict_set (pleats N) k (length (pleat_objs h))) (gadgets N)) in *.
      set (h1 := mkHeap (pleat_objs h ++ [mkPleat k s0]) (gadget_objs h)
                        (<[self := N1]> (network_objs h))) in *.
      assert (HN1 : network_objs h1 !! self = Some N1).
      { simpl. apply list_lookup_insert_eq. by eapply lookup_lt_Some. }
      destruct (IH h1 N1) as (h' & N' & Hrun & Hok' & Hnames' & HN' & Hg & Hgs &
                              Hkeep & Hsame & Hframe & Hset); try done.
      assert (Hold : ∀ nm p, dict_get (pleats N) nm = Some p →
                             dict_get (pleats N1) nm = Some p ∧ nm ≠ k).
      { intros nm p Hp. assert (nm ≠ k) by (intros ->; congruence).
        split; [|done]. simpl. by rewrite dict_get_set_ne. }
      assert (Hvalid : ∀ nm p, dict_get (pleats N) nm = Some p →
                               sig_at h1 p = sig_at h p).
      { intros nm p Hp. unfold sig_at. simpl.
        destruct Hok as [_ Hn]. rewrite Forall_lookup in Hn.
        destruct (Hn self N HN) as (_ & Hval & _). rewrite Forall_forall in Hval.
        apply dict_get_elem, Hval in Hp. simpl in Hp. by rewrite lookup_app_l. }
      exists h', N'. split; [exact Hrun|]. split_and!; try done.
      * intros nm p Hp. apply Hkeep. by apply Hold in Hp as [? _].
      * intros nm Hnm. csimpl in Hnm. rewrite not_elem_of_cons in Hnm.
        destruct Hnm as [Hne Hnm]. rewrite (Hsame nm Hnm). simpl.
        by rewrite dict_get_set_ne.
      * intros nm p Hnm Hp. csimpl in Hnm. rewrite not_elem_of_cons in Hnm.
        destruct Hnm as [Hne Hnm]. destruct (Hold nm p Hp) as [Hp1 _].
        rewrite (Hframe nm p Hnm Hp1). by eapply Hvalid.
      * intros nm s [[= -> ->]|Hin]%elem_of_cons; [|by apply Hset].
        assert (Hk1 : dict_get (pleats N1) k = Some (length (pleat_objs h))).
        { simpl. apply dict_get_set_eq. }
        exists (length (pleat_objs h)). split; [by apply Hkeep|].
        rewrite (Hframe k _ Hk Hk1). unfold sig_at. simpl.
        by rewrite list_lookup_middle.
Qed.

(** X8. [set_inputs] drives values into the pleats that are registered:
    a name already present keeps its pleat, so the gadgets connected to
    it see the new signal; a name not present is registered with a new
    pleat.  Afterwards every name of the input dictionary holds the
    signal given for it, and the names not mentioned keep their pleat and
    their signal.  No gadget and no gadget list changes. *)
Theorem set_inputs_assigns_in_place (h : Heap) (self : nat) (N : Network)
    (input_dict : list (string * Signal)) :
  heap_ok h → names_ok h →
  network_objs h !! self = Some N →
  NoDup (dict_keys input_dict) →
  ∃ h' N',
    set_inputs self input_dict h = (h', Ok tt) ∧
    network_objs h' !! self = Some N' ∧
    gadget_objs h' = gadget_objs h ∧
    gadgets N' = gadgets N ∧
    (∀ nm p, dict_get (pleats N) nm = Some p → dict_get (pleats N') nm = Some p) ∧
    (∀ nm s, (nm, s) ∈ input_dict →
             ∃ p, dict_get (pleats N') nm = Some p ∧ sig_at h' p = Some s) ∧
    (∀ nm p, nm ∉ dict_keys input_dict → dict_get (pleats N) nm = Some p →
             sig_at h' p = sig_at h p) ∧
    (∀ nm, nm ∉ dict_keys input_dict →
           dict_get (pleats N') nm = dict_get (pleats N) nm).
Proof.
  intros Hok Hnames HN Hnd.
  destruct (set_inputs_spec self input_dict h N Hok Hnames HN Hnd)
    as (h' & N' & Hrun & _ & _ & HN' & Hg & Hgs & Hkeep & Hsame & Hframe & Hset).
  exists h', N'. split_and!; done.
Qed.

Lemma set_inputs_assigns_in_place_witness :
  heap_ok h_and_none ∧ names_ok h_and_none ∧
  NoDup (dict_keys [("a", Some false); ("z", @None bool)]) ∧
  ∃ h' N',
    set_inputs 0 [("a", Some false); ("z", None)] h_and_none = (h', Ok tt) ∧
    network_objs h' !! 0 = Some N' ∧
    gadget_objs h' = gadget_objs h_and_none.
Proof.
  assert (Hok : heap_ok h_and_none) by (apply heap_okb_sound; reflexivity).
  assert (Hnames : names_ok h_and_none) by (apply names_okb_sound; reflexivity).
  assert (Hnd : NoDup (dict_keys [("a", Some false); ("z", @None bool)])).
  { apply (bool_decide_unpack (NoDup ["a"; "z"])). reflexivity. }
  split; [exact Hok|]. split; [exact Hnames|]. split; [exact Hnd|].
  destruct (set_inputs_assigns_in_place h_and_none 0 (net_of h_and_none 0)
              [("a", Some false); ("z", None)] Hok Hnames eq_refl Hnd)
    as (h' & N' & Hrun & HN' & Hg & _).
  exists h', N'. split_and!; assumption.
Defined.

(** ** States reached through the interface *)

Lemma run_shape (set_iter : list string → list string) h self N max_iterations :
  (∀ s, set_iter s ≡ₚ s) →
  wf h self → network_objs h !! self = Some N →
  same_shape h (run set_iter self max_iterations h).1.
Proof.
  intros Hperm Hwf HN.
  destruct (topological_sort_wf set_iter Hperm h self N Hwf HN)
    as [Hraise|(order & Htopo & Hready)].
  - rewrite (run_raises _ _ _ _ _ Hraise). apply same_shape_refl.
  - destruct (run_stats_spec set_iter Hperm h self N order max_iterations Hwf HN Htopo)
      as (_ & k & conv & Hrun & _).
    unfold run, bind. rewrite Hrun. simpl. by apply after_passes_shape.
Qed.

(** The heaps a program can produce from nothing with the gadget
    constructors and the methods of [Network], called on objects it has
    created. *)
Inductive reachable : Heap → Prop :=
| reach_empty : reachable empty_heap
| reach_Network h :
    reachable h → reachable (new_Network h).1
| reach_NOTGadget h gid i o :
    reachable h → reachable (NOTGadget gid i o h).1
| reach_ANDGadget h gid i1 i2 o :
    reachable h → reachable (ANDGadget gid i1 i2 o h).1
| reach_ORGadget h gid i1 i2 o :
    reachable h → reachable (ORGadget gid i1 i2 o h).1
| reach_NANDGadget h gid i1 i2 o :
    reachable h → reachable (NANDGadget gid i1 i2 o h).1
| reach_add_pleat h self nm s :
    reachable h → self < length (network_objs h) →
    reachable (add_pleat self nm s h).1
| reach_add_gadget h self gadget :
    reachable h → self < length (network_objs h) →
    gadget < length (gadget_objs h) →
    reachable (add_gadget self gadget h).1
| reach_set_inputs h self input_dict :
    reachable h → self < length (network_objs h) →
    NoDup (dict_keys input_dict) →
    reachable (set_inputs self input_dict h).1
| reach_run h self (set_iter : list string → list string) max_iterations :
    reachable h → self < length (network_objs h) →
    (∀ s, set_iter s ≡ₚ s) →
    reachable (run set_iter self max_iterations h).1.

(** X9. The methods keep the heap consistent, whether they return or
    raise: in every reachable state each gadget has the names its class
    takes and refers to existing pleats, each gadget in a network's list
    has been connected, and each registry has distinct names, each
    referring to an existing pleat that carries that name. *)
Theorem reachable_invariant (h : Heap) :
  reachable h → heap_ok h ∧ names_ok h.
Proof.
  induction 1 as [|h Hr [Hok Hn]|h gid i o Hr [Hok Hn]|h gid i1 i2 o Hr [Hok Hn]
                  |h gid i1 i2 o Hr [Hok Hn]|h gid i1 i2 o Hr [Hok Hn]
                  |h self nm s Hr [Hok Hn] Hself
                  |h self gadget Hr [Hok Hn] Hself Hgadget
                  |h self items Hr [Hok Hn] Hself Hnd
                  |h self set_iter max_iterations Hr [Hok Hn] Hself Hperm].
  - split; [apply empty_heap_ok|apply empty_names_ok].
  - split; [by apply new_Network_ok|by apply new_Network_names_ok].
  - split; [by apply NOTGadget_ok|by apply new_Gadget_names_ok].
  - split; [by apply ANDGadget_ok|by apply new_Gadget_names_ok].
  - split; [by apply ORGadget_ok|by apply new_Gadget_names_ok].
  - split; [by apply NANDGadget_ok|by apply new_Gadget_names_ok].
  - destruct (lookup_lt_is_Some_2 _ _ Hself) as [N HN].
    split; [by eapply add_pleat_ok|by eapply add_pleat_names_ok].
  - destruct (lookup_lt_is_Some_2 _ _ Hself) as [N HN].
    destruct (lookup_lt_is_Some_2 _ _ Hgadget) as [G HG].
    split; [by eapply add_gadget_ok|by eapply add_gadget_names_ok].
  - destruct (lookup_lt_is_Some_2 _ _ Hself) as [N HN].
    destruct (set_inputs_spec self items h N Hok Hn HN Hnd)
      as (h' & N' & -> & Hok' & Hn' & _). done.
  - destruct (lookup_lt_is_Some_2 _ _ Hself) as [N HN].
    split; [by eapply run_ok|].
    eapply names_ok_shape; [|done].
    eapply run_shape; [done| |done]. by eapply heap_ok_wf.
Qed.

Lemma reachable_invariant_witness :
  reachable (add_pleat 0 "a" None (new_Network empty_heap).1).1 ∧
  heap_ok (add_pleat 0 "a" None (new_Network empty_heap).1).1.
Proof.
  assert (Hr : reachable (add_pleat 0 "a" None (new_Network empty_heap).1).1).
  { apply reach_add_pleat; [apply reach_Network, reach_empty|simpl; lia]. }
  split; [exact Hr|].
  exact (proj1 (reachable_invariant _ Hr)).
Defined.

(** ** Orders on which one pass settles the network *)

(** [self.inputs] of the gadget at an address. *)
Definition gadget_inputs (h : Heap) (g : nat) : list nat :=
  match gadget_objs h !! g with
  | Some G => inputs G
  | None => []
  end.

(** Gadget [g'] does not write a pleat that gadget [g] reads. *)
Definition writes_clear (h : Heap) (g g' : nat) : bool :=
  match first_output h g' with
  | Some o => bool_decide (o ∉ gadget_inputs h g)
  | None => true
  end.

(** In the order, no gadget writes a pleat read by itself or by a gadget
    placed before it, and no two gadgets write the same pleat. *)
Fixpoint scheduledb (h : Heap) (order : list nat) : bool :=
  match order with
  | [] => true
  | g :: rest =>
      writes_clear h g g &&
      forallb (λ g', writes_clear h g g' &&
                     bool_decide (first_output h g' ≠ first_output h g)) rest &&
      scheduledb h rest
  end.

Lemma scheduledb_shape h h' order :
  same_shape h h' → scheduledb h' order = scheduledb h order.
Proof.
  intros (Hg & _). induction order as [|g rest IH]; simpl; [done|].
  rewrite IH. unfold writes_clear, first_output, gadget_inputs. by rewrite Hg.
Qed.

Lemma one_pass_settles order : ∀ h,
  (∀ g, g ∈ order → ready h g) →
  scheduledb h order = true →
  pass_changed order (pass_heap order h) = false ∧
  ∀ g G o ss,
    g ∈ order → gadget_objs h !! g = Some G → outputs G !! 0 = Some o →
    read_signals (pass_heap order h) (inputs G) = Some ss →
    sig_at (pass_heap order h) o = Some (gate_value (cls G) ss).
Proof.
  induction order as [|g rest IH]; intros h Hready Hsched.
  { split; [done|]. intros g G o ss Hg. by apply elem_of_nil in Hg. }
  simpl in Hsched.
  apply andb_true_iff in Hsched as [[Hself Hlater]%andb_true_iff Hrest].
  assert (Hg : ready h g) by (apply Hready; by left).
  assert (Hready_rest : ∀ g', g' ∈ rest → ready h g').
  { intros g' Hg'. apply Hready. by right. }
  destruct (ready_first_output h g Hg) as (G & o & ss & HG & Ho & Hfo & Hss).
  set (v := gate_value (cls G) ss).
  set (ha := with_signal h o v).
  pose proof (with_signal_shape h o v) as Hshape. fold ha in Hshape.
  destruct (pass_cons g rest h G o ss Hg HG Ho Hss Hready_rest) as [Hheap _].
  fold v ha in Hheap.
  assert (Hready_a : ∀ g', g' ∈ rest → ready ha g') by by eapply ready_shape.
  destruct (IH ha Hready_a) as [Hquiet Heqs].
  { by rewrite (scheduledb_shape _ _ _ Hshape). }
  set (h1 := pass_heap rest ha) in *.
  destruct (pass_total rest ha Hready_a) as (_ & Hshape1 & _). fold h1 in Hshape1.
  assert (Hshape01 : same_shape h h1) by by eapply same_shape_trans.
  assert (Hlt : o < length (pleat_objs h)).
  { apply ready_inv in Hg as (G' & o' & _ & _ & HG' & Ho' & Hlt & _).
    assert (G' = G) as -> by congruence. congruence. }
  (* the pleats [g] reads and writes are not written by the rest *)
  assert (Hin_o : o ∉ inputs G).
  { unfold writes_clear in Hself. rewrite Hfo in Hself.
    apply bool_decide_eq_true in Hself. unfold gadget_inputs in Hself.
    by rewrite HG in Hself. }
  assert (Hclear : ∀ g', g' ∈ rest →
            first_output ha g' ≠ Some o ∧
            ∀ p, p ∈ inputs G → first_output ha g' ≠ Some p).
  { intros g' Hg'. rewrite (first_output_shape _ _ _ Hshape).
    rewrite forallb_forall in Hlater.
    apply list_elem_of_In, Hlater in Hg'.
    apply andb_true_iff in Hg' as [Hc Hd]. apply bool_decide_eq_true in Hd.
    split; [by rewrite Hfo in Hd|].
    intros p Hp Hfp. unfold writes_clear in Hc. rewrite Hfp in Hc.
    apply bool_decide_eq_true in Hc. unfold gadget_inputs in Hc.
    rewrite HG in Hc. done. }
  assert (Hsig_o : sig_at h1 o = Some v).
  { unfold h1. rewrite pass_frame; [by apply with_signal_sig_at|done|].
    intros g' Hg'. exact (proj1 (Hclear g' Hg')). }
  assert (Hsig_in : read_signals h1 (inputs G) = Some ss).
  { rewrite <- Hss. apply read_signals_ext. intros p Hp.
    unfold h1. rewrite pass_frame; [|done|].
    - apply with_signal_other. intros ->. done.
    - intros g' Hg'. by apply (proj2 (Hclear g' Hg')). }
  rewrite Hheap. fold h1. split.
  - assert (Hg1 : ready h1 g).
    { unfold ready. by rewrite (readyb_shape _ _ _ Hshape01). }
    assert (HG1 : gadget_objs h1 !! g = Some G).
    { destruct Hshape01 as (-> & _). done. }
    assert (Hready1 : ∀ g', g' ∈ rest → ready h1 g') by by eapply ready_shape.
    destruct (pass_cons g rest h1 G o ss Hg1 HG1 Ho Hsig_in Hready1) as [_ Hiff].
    apply Hiff. split; [done|].
    fold v. by rewrite (with_signal_id _ _ _ Hsig_o).
  - intros g0 G0 o0 ss0 [->|Hg0]%elem_of_cons HG0 Ho0 Hss0.
    + assert (G0 = G) as -> by congruence.
      assert (o0 = o) as -> by congruence.
      assert (ss0 = ss) as -> by congruence. done.
    + apply (Heqs g0 G0 o0 ss0); try done.
      destruct Hshape as (-> & _). done.
Qed.

Lemma run_settles (set_iter : list string → list string)
    (h : Heap) (self : nat) (N : Network) (order : list nat)
    (max_iterations : Z) :
  (∀ s, set_iter s ≡ₚ s) →
  wf h self →
  network_objs h !! self = Some N →
  topological_sort set_iter self h = (h, Ok order) →
  scheduledb h order = true →
  (2 ≤ max_iterations)%Z →
  ∃ k,
    run_stats set_iter self max_iterations h =
      (pass_heap order h,
       Ok (k, true, snapshot_pure (pass_heap order h) (pleats N) [])) ∧
    k ≤ 2 ∧
    ∀ g G o ss,
      g ∈ order → gadget_objs h !! g = Some G → outputs G !! 0 = Some o →
      read_signals (pass_heap order h) (inputs G) = Some ss →
      sig_at (pass_heap order h) o = Some (gate_value (cls G) ss).
Proof.
  intros Hperm Hwf HN Htopo Hsched Hmax.
  destruct (run_stats_spec set_iter Hperm h self N order max_iterations Hwf HN Htopo)
    as (Hready & k & conv & Hrun & Hk & Hbefore & Hconv & Hexh).
  destruct (one_pass_settles order h Hready Hsched) as [Hquiet Heqs].
  destruct (pass_total order h Hready) as (_ & Hshape & Hq0).
  assert (Hready1 : ∀ g, g ∈ order → ready (pass_heap order h) g)
    by by eapply ready_shape.
  destruct (pass_total order _ Hready1) as (_ & _ & Hq1).
  specialize (Hq1 Hquiet).
  assert (Hk2 : k ≤ 2).
  { destruct (decide (k ≤ 2)) as [|Hgt]; [done|].
    specialize (Hbefore 1). simpl in Hbefore. rewrite Hquiet in Hbefore.
    assert (S 1 < k) as Hlt by lia. by apply Hbefore in Hlt. }
  assert (conv = true) as ->.
  { destruct conv; [done|]. destruct (Hexh eq_refl) as [-> Hall].
    specialize (Hall 1). simpl in Hall. rewrite Hquiet in Hall.
    assert (1 < Z.to_nat max_iterations) as Hlt by lia. by apply Hall in Hlt. }
  destruct (Hconv eq_refl) as (j & -> & Hj).
  assert (Hfinal : after_passes order (S j) h = pass_heap order h).
  { destruct j as [|[|j]]; [done| |lia]. simpl. exact Hq1. }
  rewrite Hfinal in Hrun.
  exists (S j). split; [exact Hrun|]. split; [done|exact Heqs].
Qed.

(** X10. When the order returned by [topological_sort] has every
    gadget after the writers of the pleats it reads, and no two gadgets
    write the same pleat, [run] with [max_iterations >= 2] stops by
    convergence after at most two passes; the heap it leaves is the one
    after the first pass, and in it the output pleat of every gadget holds
    the value of the gadget's function on the signals of its input
    pleats. *)
Theorem run_settles_in_two_passes (set_iter : list string → list string)
    (h : Heap) (self : nat) (N : Network) (order : list nat)
    (max_iterations : Z) :
  (∀ s, set_iter s ≡ₚ s) →
  wf h self →
  network_objs h !! self = Some N →
  topological_sort set_iter self h = (h, Ok order) →
  scheduledb h order = true →
  (2 ≤ max_iterations)%Z →
  ∃ k snap,
    run_stats set_iter self max_iterations h =
      (pass_heap order h, Ok (k, true, snap)) ∧
    k ≤ 2 ∧
    ∀ g G o ss,
      g ∈ order → gadget_objs h !! g = Some G → outputs G !! 0 = Some o →
      read_signals (pass_heap order h) (inputs G) = Some ss →
      sig_at (pass_heap order h) o = Some (gate_value (cls G) ss).
Proof.
  intros Hperm Hwf HN Htopo Hsched Hmax.
  destruct (run_settles set_iter h self N order max_iterations
              Hperm Hwf HN Htopo Hsched Hmax) as (k & Hrun & Hk & Heqs).
  eexists k, _. split; [exact Hrun|]. split; [done|exact Heqs].
Qed.

Lemma run_settles_in_two_passes_witness :
  wf h_half_adder 0 ∧
  topological_sort (λ s, s) 0 h_half_adder = (h_half_adder, Ok [0; 1; 4; 2; 3]) ∧
  scheduledb h_half_adder [0; 1; 4; 2; 3] = true ∧
  ∃ k snap,
    run_stats (λ s, s) 0 5 h_half_adder =
      (pass_heap [0; 1; 4; 2; 3] h_half_adder, Ok (k, true, snap)) ∧
    k ≤ 2.
Proof.
  split; [reflexivity|]. split; [reflexivity|]. split; [reflexivity|].
  destruct (run_settles_in_two_passes (λ s, s) h_half_adder 0
              (net_of h_half_adder 0) [0; 1; 4; 2; 3] 5)
    as (k & snap & Hrun & Hk & _).
  - exact id_perm.
  - reflexivity.
  - reflexivity.
  - reflexivity.
  - reflexivity.
  - lia.
  - exists k, snap. split; assumption.
Defined.

(** ** The order is a permutation of the gadgets *)

(** While the queue is processed, the identifiers already dequeued and
    those waiting are distinct, and their in-degrees are not positive. *)
Definition kahn_inv (S : list string) (st : list (string * Z) * list string) : Prop :=
  NoDup (S ++ st.2) ∧
  ∀ x, x ∈ S ++ st.2 → ∃ v, dict_get st.1 x = Some v ∧ (v ≤ 0)%Z.

Lemma visit_inv S nbr st st' :
  visit nbr st = Ok st' → kahn_inv S st → kahn_inv S st'.
Proof.
  unfold visit. destruct (dict_get st.1 nbr) as [d|] eqn:Hd; [|done].
  intros Hv [Hnd Hval].
  assert (Hother : ∀ x, x ≠ nbr →
            dict_get (dict_set st.1 nbr (d - 1)%Z) x = dict_get st.1 x).
  { intros x Hx. by rewrite dict_get_set_ne. }
  destruct (decide ((d - 1)%Z = 0%Z)) as [Hz|Hz]; inversion Hv; subst st'; simpl.
  - assert (Hfresh : nbr ∉ S ++ st.2).
    { intros Hin. destruct (Hval nbr Hin) as (v & Hv' & Hle).
      assert (v = d) by congruence. lia. }
    split; simpl.
    + rewrite app_assoc. apply NoDup_app. split_and!; [done| |apply NoDup_singleton].
      intros x Hx ->%list_elem_of_singleton. done.
    + intros x Hx. rewrite app_assoc, elem_of_app, list_elem_of_singleton in Hx.
      destruct (decide (x = nbr)) as [->|Hne].
      * exists (d - 1)%Z. rewrite dict_get_set_eq. split; [done|lia].
      * destruct Hx as [Hx|Hx]; [|done]. rewrite (Hother x Hne). by apply Hval.
  - split; simpl; [done|]. intros x Hx.
    destruct (decide (x = nbr)) as [->|Hne].
    + destruct (Hval nbr Hx) as (v & Hv' & Hle).
      exists (d - 1)%Z. rewrite dict_get_set_eq. split; [done|].
      assert (v = d) by congruence. lia.
    + rewrite (Hother x Hne). by apply Hval.
Qed.

Lemma kahn_inv_pop S gid queue d :
  kahn_inv S (d, gid :: queue) → kahn_inv (S ++ [gid]) (d, queue).
Proof.
  intros [Hnd Hval]. simpl in *. split; simpl.
  - by rewrite <- app_assoc.
  - intros x Hx. apply Hval. by rewrite <- app_assoc in Hx.
Qed.

Section Permutation.

Variable set_iter : list string → list string.

(** The gadgets appended by the loop are those of distinct dequeued
    identifiers. *)
Lemma kahn_processed graph gm : ∀ fuel queue order d S order',
  kahn set_iter fuel graph gm queue order d = Ok order' →
  kahn_inv S (d, queue) →
  ∃ ids gs,
    order' = order ++ gs ∧
    Forall2 (λ x g, dict_get gm x = Some g) ids gs ∧
    NoDup (S ++ ids).
Proof.
  induction fuel as [|fuel IH]; intros queue order d S order' Hrun Hinv;
    destruct queue as [|gid queue]; simpl in Hrun; try done.
  - inversion Hrun; subst. exists [], []. rewrite !app_nil_r.
    split_and!; [done|constructor|]. destruct Hinv as [Hnd _]. simpl in Hnd.
    by rewrite app_nil_r in Hnd.
  - inversion Hrun; subst. exists [], []. rewrite !app_nil_r.
    split_and!; [done|constructor|]. destruct Hinv as [Hnd _]. simpl in Hnd.
    by rewrite app_nil_r in Hnd.
  - destruct (dict_get gm gid) as [g|] eqn:Hg; [|done].
    destruct (rfold visit (neighbours set_iter graph gid) (d, queue)) as [st1|] eqn:Hv;
      simpl in Hrun; [|done].
    apply kahn_inv_pop in Hinv.
    assert (Hinv1 : kahn_inv (S ++ [gid]) st1).
    { eapply (rfold_preserves (kahn_inv (S ++ [gid]))); [|exact Hv|exact Hinv].
      intros x s s'. apply visit_inv. }
    destruct st1 as [d1 q1].
    destruct (IH q1 (order ++ [g]) d1 (S ++ [gid]) order' Hrun Hinv1)
      as (ids & gs & -> & HF & Hnd).
    exists (gid :: ids), (g :: gs). split_and!.
    + by rewrite <- app_assoc.
    + by constructor.
    + by rewrite <- app_assoc in Hnd.
Qed.

End Permutation.

Lemma assign_all_get_notin {A V} (kf : A → string) (vf : A → V) l : ∀ d k,
  k ∉ kf <$> l → dict_get (assign_all kf vf d l) k = dict_get d k.
Proof.
  induction l as [|x l IH]; intros d k Hk; csimpl in *; [done|].
  rewrite not_elem_of_cons in Hk. destruct Hk as [Hne Hk].
  rewrite IH by done. by rewrite dict_get_set_ne.
Qed.

Lemma assign_all_get {A V} (kf : A → string) (vf : A → V) l : ∀ d x,
  NoDup (kf <$> l) → x ∈ l → dict_get (assign_all kf vf d l) (kf x) = Some (vf x).
Proof.
  induction l as [|y l IH]; intros d x Hnd Hx; csimpl in *.
  - by apply elem_of_nil in Hx.
  - apply NoDup_cons in Hnd as [Hy Hnd].
    apply elem_of_cons in Hx as [->|Hx].
    + rewrite assign_all_get_notin by done. apply dict_get_set_eq.
    + by apply IH.
Qed.

Lemma initial_queue_inv d :
  NoDup (dict_keys d) → kahn_inv [] (d, initial_queue d).
Proof.
  intros Hnd. rewrite (initial_queue_filter d Hnd). split; simpl.
  - by apply NoDup_filter.
  - intros x [Hx _]%list_elem_of_filter. exists 0%Z. split; [done|lia].
Qed.

(** X11. When [topological_sort] returns, the identifiers of the
    attached gadgets are distinct and the order returned is a permutation
    of [self.gadgets]: each pass of [run] evaluates every gadget exactly
    once. *)
Theorem topological_sort_is_permutation (set_iter : list string → list string)
    (h : Heap) (self : nat) (N : Network) (Gs : list (nat * Gadget))
    (order : list nat) :
  (∀ s, set_iter s ≡ₚ s) →
  network_objs h !! self = Some N →
  gadgets_of h (gadgets N) = Some Gs →
  topological_sort set_iter self h = (h, Ok order) →
  NoDup (ids_of Gs) ∧ order ≡ₚ gadgets N.
Proof.
  intros Hperm HN HGs Htopo.
  rewrite (topological_sort_unfold set_iter h self N Gs HN HGs) in Htopo.
  destruct (kahn_order_ok set_iter Hperm Gs) as (order0 & Hk & Hlen0 & _).
  rewrite Hk in Htopo. case_decide as Hlen; [done|].
  inversion Htopo; subst order0.
  pose proof (gadgets_of_length _ _ _ HGs) as HlenGs.
  pose proof (in_degree_init_length Gs) as Hle.
  assert (Hids : NoDup (ids_of Gs)).
  { destruct (decide (NoDup (ids_of Gs))) as [|Hdup]; [done|].
    pose proof (in_degree_init_length_dup Gs Hdup). lia. }
  split; [done|].
  (* the identifiers dequeued *)
  destruct (build_graph_inv Gs) as (st & Hb & Hkeys & _).
  unfold kahn_order in Hk. rewrite Hb in Hk. simpl in Hk.
  assert (Hnd : NoDup (dict_keys st.2)).
  { rewrite Hkeys, in_degree_init_keys_order. apply first_occ_NoDup. }
  destruct (kahn_processed set_iter st.1 (gadget_map_of Gs) _ _ [] st.2 [] order Hk
              (initial_queue_inv _ Hnd))
    as (ids & gs & Horder & HF & Hnd_ids).
  simpl in Horder, Hnd_ids. subst gs.
  assert (Hsub : ∀ x, x ∈ ids → x ∈ ids_of Gs).
  { intros x Hx. apply list_elem_of_lookup in Hx as [i Hi].
    destruct (Forall2_lookup_l _ _ _ _ _ HF Hi) as (g & _ & Hg).
    apply gadget_map_of_keys, dict_get_keys. eauto. }
  assert (Hperm_ids : ids ≡ₚ ids_of Gs).
  { apply submseteq_length_Permutation; [by apply NoDup_submseteq|].
    rewrite (Forall2_length _ _ _ HF). unfold ids_of. rewrite length_fmap. lia. }
  set (f := λ x : string, default 0 (dict_get (gadget_map_of Gs) x)).
  assert (Horder : order = f <$> ids).
  { clear -HF. induction HF as [|x g ids gs Hx HF IH]; [done|].
    csimpl. unfold f at 1. rewrite Hx. simpl. by rewrite IH. }
  assert (Hgs : gadgets N = f <$> ids_of Gs).
  { rewrite <- (gadgets_of_fst _ _ _ HGs). unfold ids_of.
    rewrite <- list_fmap_compose. apply list_fmap_ext. intros i gG HgG. simpl.
    assert (Hget : dict_get (gadget_map_of Gs) (gadget_id gG.2) = Some gG.1).
    { apply (assign_all_get (λ gG : nat * Gadget, gadget_id gG.2)
               (λ gG : nat * Gadget, gG.1) Gs [] gG Hids).
      by eapply list_elem_of_lookup_2. }
    unfold f. by rewrite Hget. }
  rewrite Horder, Hgs. by apply fmap_Permutation.
Qed.

Lemma topological_sort_is_permutation_witness :
  topological_sort reverse 0 h_half_adder = (h_half_adder, Ok [0; 1; 4; 2; 3]) ∧
  [0; 1; 4; 2; 3] ≡ₚ gadgets (net_of h_half_adder 0).
Proof.
  split; [reflexivity|].
  exact (proj2 (topological_sort_is_permutation reverse h_half_adder 0
                  (net_of h_half_adder 0) (objs_of h_half_adder 0) [0; 1; 4; 2; 3]
                  reverse_Permutation eq_refl eq_refl eq_refl)).
Defined.

(** ** The half adder on a network that has been used before *)

(** The heap left by [build_half_adder_network]; the network is object 0. *)
Definition h_built : Heap := (build_half_adder_network empty_heap).1.

Lemma half_adder_reused (set_iter : list string → list string)
    (h : Heap) (a b : bool) :
  (∀ s, set_iter s ≡ₚ s) →
  same_shape h_built h →
  ∃ h' snap,
    (exec set_inputs 0 [("a", Some a); ("b", Some b)] ;
     run_default set_iter 0) h = (h', Ok snap) ∧
    same_shape h_built h' ∧
    dict_get snap "sum" = Some (Some (xorb a b)) ∧
    dict_get snap "carry" = Some (Some (a && b)).
Proof.
  intros Hperm (Hg & Hn & Hnames).
  destruct h as [ps gs ns].
  change (gs = gadget_objs h_built) in Hg.
  change (ns = network_objs h_built) in Hn.
  change (name <$> ps =
          ["a"; "b"; "and_temp"; "or_temp"; "not_temp"; "sum"; "carry"])
    in Hnames.
  subst gs ns.
  destruct ps as [|[n0 s0] [|[n1 s1] [|[n2 s2] [|[n3 s3] [|[n4 s4]
                 [|[n5 s5] [|[n6 s6] [|? ?]]]]]]]]; try discriminate Hnames.
  injection Hnames as -> -> -> -> -> -> ->.
  erewrite bind_ok by (vm_compute; reflexivity).
  match goal with |- context [run_default _ _ ?h] => set (h1 := h) end.
  assert (Hid : ∀ s : list string, (λ s, s) s ≡ₚ s) by done.
  assert (Htopo : topological_sort set_iter 0 h1 = (h1, Ok [0; 1; 4; 2; 3])).
  { transitivity (topological_sort (λ s, s) 0 h1); [|vm_compute; reflexivity].
    eapply (run_ext_single_dependents set_iter (λ s, s) h1 0 _ _ _ 5);
      [done|done|reflexivity|reflexivity|reflexivity|reflexivity]. }
  assert (Hwf : wf h1 0) by (vm_compute; reflexivity).
  assert (HN : network_objs h1 !! 0 = Some (net_of h1 0))
    by (vm_compute; reflexivity).
  assert (Hsched : scheduledb h1 [0; 1; 4; 2; 3] = true)
    by (vm_compute; reflexivity).
  destruct (run_settles set_iter h1 0 _ [0; 1; 4; 2; 3] 5 Hperm
              Hwf HN Htopo Hsched ltac:(lia)) as (k & Hrun & _ & _).
  unfold run_default, run. erewrite bind_ok by exact Hrun.
  eexists _, _. split; [reflexivity|].
  subst h1. clear.
  destruct a, b; (split; [split_and!|split]); vm_compute; reflexivity.
Qed.

(** ** run_half_adder_table *)

(** The dictionary stored per row of the table; the fields are its keys
    [a], [b], [sum], [carry], [expected_sum], [expected_carry], [ok]. *)
Record Row := mkRow {
  row_a : bool;
  row_b : bool;
  row_sum : Signal;
  row_carry : Signal;
  row_expected_sum : bool;
  row_expected_carry : bool;
  row_ok : bool
}.

Definition combos : list (bool * bool) :=
  [(false, false); (false, true); (true, false); (true, true)].

(** The dictionary [expected], keyed by pairs. *)
Definition expected : list ((bool * bool) * (bool * bool)) :=
  [((false, false), (false, false));
   ((false, true), (true, false));
   ((true, false), (true, false));
   ((true, true), (false, true))].

Definition repr_bool (b : bool) : string := if b then "True" else "False".

(** [expected[(a, b)]] *)
Definition expected_item (ab : bool * bool) : M (bool * bool) :=
  match list_find (λ kv : (bool * bool) * (bool * bool), kv.1 = ab) expected with
  | Some (_, kv) => ret kv.2
  | None => raise (KeyError ("(" +:+ repr_bool ab.1 +:+ ", " +:+ repr_bool ab.2 +:+ ")"))
  end.

(** [f"{int(a)}"] *)
Definition int_str (b : bool) : string := if b then "1" else "0".

(** [x == e] for an optional boolean [x] and a boolean [e]. *)
Definition signal_eqb (x : Signal) (e : bool) : bool := bool_decide (x = Some e).

(** The loop [for a, b in combos] of [run_half_adder_table]; the lines
    printed are not modelled. *)
Fixpoint table_loop (set_iter : list string → list string) (net : nat)
    (rows : list (bool * bool)) (results : list (string * Row))
    : M (list (string * Row)) :=
  match rows with
  | [] => ret results
  | (a, b) :: rows' =>
      exec set_inputs net [("a", Some a); ("b", Some b)] ;
      do snapshot <- run_default set_iter net ;
      let s := default None (dict_get snapshot "sum") in
      let c := default None (dict_get snapshot "carry") in
      do exp <- expected_item (a, b) ;
      let ok := signal_eqb s exp.1 && signal_eqb c exp.2 in
      let key := int_str a +:+ int_str b in
      table_loop set_iter net rows'
        (dict_set results key (mkRow a b s c exp.1 exp.2 ok))
  end.

(** [run_half_adder_table()], with [save_json = False]. *)
Definition run_half_adder_table (set_iter : list string → list string)
    : M (list (string * Row)) :=
  do net <- build_half_adder_network ;
  table_loop set_iter net combos [].

(** The row of a correct half adder. *)
Definition half_adder_entry (ab : bool * bool) : Row :=
  mkRow ab.1 ab.2 (Some (xorb ab.1 ab.2)) (Some (ab.1 && ab.2))
        (xorb ab.1 ab.2) (ab.1 && ab.2) true.

Lemma bind_assoc {A B C} (m : M A) (f : A → M B) (g : B → M C) h :
  bind (bind m f) g h = bind m (λ x, bind (f x) g) h.
Proof. unfold bind. destruct (m h) as [h1 [a|e]]; reflexivity. Qed.

Lemma expected_item_total ab h :
  expected_item ab h = (h, Ok (xorb ab.1 ab.2, ab.1 && ab.2)).
Proof. by destruct ab as [[|] [|]]. Qed.

Lemma table_loop_spec (set_iter : list string → list string) :
  (∀ s, set_iter s ≡ₚ s) →
  ∀ rows results h,
    same_shape h_built h →
    ∃ h', table_loop set_iter 0 rows results h =
            (h', Ok (fold_left (λ acc ab,
                       dict_set acc (int_str ab.1 +:+ int_str ab.2)
                                (half_adder_entry ab)) rows results)) ∧
          same_shape h_built h'.
Proof.
  intros Hperm rows. induction rows as [|[a b] rows IH]; intros results h Hshape.
  - exists h. by split.
  - destruct (half_adder_reused set_iter h a b Hperm Hshape)
      as (h1 & snap & Hrun & Hshape1 & Hsum & Hcarry).
    cbn [table_loop fold_left].
    rewrite <- (bind_assoc (set_inputs 0 [("a", Some a); ("b", Some b)])
                  (λ _, run_default set_iter 0)).
    erewrite bind_ok by exact Hrun.
    erewrite bind_ok by apply expected_item_total.
    rewrite Hsum, Hcarry. cbn [default fst snd].
    unfold signal_eqb. rewrite !bool_decide_eq_true_2 by done.
    apply (IH _ h1 Hshape1).
Qed.

(** X12. The half-adder network can be reused: whatever signals its
    seven pleats hold from earlier calls, [set_inputs({"a": a, "b": b})]
    followed by [run()] returns [sum = a xor b] and [carry = a and b],
    and leaves the network with the gadgets and names it was built
    with. *)
Theorem half_adder_ignores_previous_signals
    (set_iter : list string → list string) (h : Heap) (a b : bool) :
  (∀ s, set_iter s ≡ₚ s) →
  same_shape h_built h →
  ∃ h' snap,
    (exec set_inputs 0 [("a", Some a); ("b", Some b)] ;
     run_default set_iter 0) h = (h', Ok snap) ∧
    same_shape h_built h' ∧
    dict_get snap "sum" = Some (Some (xorb a b)) ∧
    dict_get snap "carry" = Some (Some (a && b)).
Proof. apply half_adder_reused. Qed.

(** The half adder after a run on [a = True], [b = True]. *)
Definition h_used : Heap := (half_adder_row (λ s, s) true true empty_heap).1.

(** X12 on [h_used], for [a = False], [b = True]. *)
Lemma half_adder_ignores_previous_signals_witness :
  (∀ s : list string, (λ s, s) s ≡ₚ s) ∧
  same_shape h_built h_used ∧
  ∃ h' snap,
    (exec set_inputs 0 [("a", Some false); ("b", Some true)] ;
     run_default (λ s, s) 0) h_used = (h', Ok snap) ∧
    same_shape h_built h' ∧
    dict_get snap "sum" = Some (Some true) ∧
    dict_get snap "carry" = Some (Some false).
Proof.
  assert (Hs : same_shape h_built h_used)
    by (split_and!; vm_compute; reflexivity).
  split; [exact id_perm|]. split; [exact Hs|].
  exact (half_adder_ignores_previous_signals (λ s, s) h_used false true
           id_perm Hs).
Defined.

(** X13. [run_half_adder_table()] builds one network and reuses it for
    the four rows; whatever order Python traverses the sets in, it
    returns the dictionary with keys ["00"], ["01"], ["10"], ["11"], in
    this order, in which every row has the computed [sum] and [carry]
    equal to the expected ones and [ok] set. *)
Theorem run_half_adder_table_all_ok (set_iter : list string → list string) :
  (∀ s, set_iter s ≡ₚ s) →
  ∃ h,
    run_half_adder_table set_iter empty_heap =
      (h, Ok [("00", mkRow false false (Some false) (Some false) false false true);
              ("01", mkRow false true (Some true) (Some false) true false true);
              ("10", mkRow true false (Some true) (Some false) true false true);
              ("11", mkRow true true (Some false) (Some true) false true true)]).
Proof.
  intros Hperm. unfold run_half_adder_table.
  rewrite (bind_ok _ _ empty_heap h_built 0) by (vm_compute; reflexivity).
  destruct (table_loop_spec set_iter Hperm combos [] h_built
              (same_shape_refl h_built)) as (h' & Hloop & _).
  exists h'. exact Hloop.
Qed.

(** X13 when sets are traversed in insertion order. *)
Lemma run_half_adder_table_all_ok_witness :
  (∀ s : list string, (λ s, s) s ≡ₚ s) ∧
  ∃ h,
    run_half_adder_table (λ s, s) empty_heap =
      (h, Ok [("00", mkRow false false (Some false) (Some false) false false true);
              ("01", mkRow false true (Some true) (Some false) true false true);
              ("10", mkRow true false (Some true) (Some false) true false true);
              ("11", mkRow true true (Some false) (Some true) false true true)]).
Proof.
  split; [exact id_perm|].
  exact (run_half_adder_table_all_ok (λ s, s) id_perm).
Defined.

(** ** The dependency graph *)

(** The members of [graph[p]]; a key that is absent has none. *)
Definition members (graph : list (string * list string)) (p : string)
    : list string :=
  default [] (dict_get graph p).

(** The keys of the graph whose set holds [c]. *)
Definition producers_of (graph : list (string * list string)) (c : string)
    : list string :=
  filter (λ p, c ∈ members graph p) (dict_keys graph).

Lemma members_touch graph p q :
  members (graph_touch graph p) q = members graph q.
Proof.
  unfold graph_touch, members. destruct (dict_get graph p) eqn:Hp; [done|].
  destruct (decide (p = q)) as [->|Hne].
  - by rewrite dict_get_set_eq, Hp.
  - by rewrite dict_get_set_ne.
Qed.

Lemma members_set graph p s q :
  members (dict_set graph p s) q = if decide (q = p) then s else members graph q.
Proof.
  unfold members. destruct (decide (q = p)) as [->|Hne].
  - by rewrite dict_get_set_eq.
  - by rewrite dict_get_set_ne.
Qed.

Lemma members_keys graph p c : c ∈ members graph p → p ∈ dict_keys graph.
Proof.
  unfold members. intros Hc. apply dict_get_keys.
  destruct (dict_get graph p); [by eexists|]. by apply elem_of_nil in Hc.
Qed.

Lemma filter_ext_elem {A} (P Q : A → Prop) `{∀ x, Decision (P x)}
    `{∀ x, Decision (Q x)} (l : list A) :
  (∀ x, x ∈ l → (P x ↔ Q x)) → filter P l = filter Q l.
Proof.
  induction l as [|x l IH]; intros Hext; [done|].
  rewrite !filter_cons.
  assert (Hl : filter P l = filter Q l).
  { apply IH. intros y Hy. apply Hext. by right. }
  assert (Hx : P x ↔ Q x) by (apply Hext; by left).
  destruct (decide (P x)) as [HP|HP], (decide (Q x)) as [HQ|HQ];
    rewrite ?Hl; try done; tauto.
Qed.

Lemma filter_length_gain {A} (P Q : A → Prop) `{∀ x, Decision (P x)}
    `{∀ x, Decision (Q x)} (l : list A) (p : A) :
  NoDup l → p ∈ l → ¬ P p → Q p → (∀ x, x ≠ p → (P x ↔ Q x)) →
  length (filter Q l) = S (length (filter P l)).
Proof.
  intros Hnd Hp HP HQ Hext. induction l as [|x l IH]; [by apply elem_of_nil in Hp|].
  apply NoDup_cons in Hnd as [Hx Hnd]. rewrite !filter_cons.
  apply elem_of_cons in Hp as [<-|Hp].
  - rewrite decide_True by done. rewrite decide_False by done. simpl. f_equal.
    f_equal. symmetry. apply filter_ext_elem. intros y Hy. apply Hext.
    intros ->. done.
  - assert (Hne : x ≠ p) by (intros ->; done).
    specialize (IH Hnd Hp). pose proof (Hext x Hne) as Hxx.
    destruct (decide (P x)) as [HPx|HPx], (decide (Q x)) as [HQx|HQx];
      simpl; rewrite ?IH; try done; tauto.
Qed.

Lemma producers_touch graph p c :
  producers_of (graph_touch graph p) c = producers_of graph c.
Proof.
  unfold producers_of.
  transitivity (filter (λ q, c ∈ members graph q) (dict_keys (graph_touch graph p))).
  { apply filter_ext_elem. intros q _. by rewrite members_touch. }
  unfold graph_touch. destruct (dict_get graph p) eqn:Hp; [done|].
  rewrite dict_keys_set. unfold dict_mem. rewrite Hp.
  rewrite filter_app, filter_cons, decide_False, filter_nil, app_nil_r; [done|].
  unfold members. rewrite Hp. apply not_elem_of_nil.
Qed.

(** What the edge loop maintains: the keys of the graph and the members
    of each of its sets are distinct, and the in-degree of an identifier
    is the number of sets that hold it. *)
Definition edges_inv (st : list (string * list string) * list (string * Z)) : Prop :=
  NoDup (dict_keys st.1) ∧
  (∀ p, NoDup (members st.1 p)) ∧
  ∀ c v, dict_get st.2 c = Some v →
         v = Z.of_nat (length (producers_of st.1 c)).

Lemma graph_touch_NoDup graph p :
  NoDup (dict_keys graph) → NoDup (dict_keys (graph_touch graph p)).
Proof.
  intros Hnd. unfold graph_touch. destruct (dict_get graph p); [done|].
  by apply NoDup_dict_set.
Qed.

Lemma graph_touch_present graph p :
  dict_get (graph_touch graph p) p = Some (members (graph_touch graph p) p).
Proof.
  unfold members, graph_touch. destruct (dict_get graph p) eqn:Hp.
  - by rewrite Hp.
  - by rewrite dict_get_set_eq.
Qed.

Lemma add_edge_edges p2p consumer inp st st' :
  add_edge p2p consumer inp st = Ok st' → edges_inv st → edges_inv st'.
Proof.
  unfold add_edge. destruct (dict_get p2p inp) as [producer|]; [|by intros [= <-]].
  case_bool_decide as Hguard; [|by intros [= <-]].
  intros Hrun (Hkeys & Hsets & Hdeg).
  pose proof (graph_touch_present st.1 producer) as Hpres.
  pose proof (graph_touch_NoDup st.1 producer Hkeys) as Hkeys1.
  set (graph := graph_touch st.1 producer) in *.
  change (default [] (dict_get graph producer)) with (members graph producer) in Hrun.
  assert (Hsets1 : ∀ p, NoDup (members graph p)).
  { intros p. unfold graph. by rewrite members_touch. }
  assert (Hdeg1 : ∀ c v, dict_get st.2 c = Some v →
                         v = Z.of_nat (length (producers_of graph c))).
  { intros c v Hv. unfold graph. rewrite producers_touch. by apply Hdeg. }
  case_bool_decide as Hmem; [by inversion Hrun; subst|].
  destruct (dict_get st.2 consumer) as [d|] eqn:Hd; [|done].
  inversion Hrun; subst st'. clear Hrun. split_and!; simpl.
  - by rewrite (dict_keys_set_present _ _ _ _ Hpres).
  - intros p. rewrite members_set. destruct (decide (p = producer)); [|done].
    apply NoDup_app. split_and!; [done| |apply NoDup_singleton].
    intros x Hx ->%list_elem_of_singleton. done.
  - intros c v Hv.
    assert (Hkeys_eq : dict_keys (dict_set graph producer
                          (members graph producer ++ [consumer])) = dict_keys graph)
      by by rewrite (dict_keys_set_present _ _ _ _ Hpres).
    unfold producers_of. rewrite Hkeys_eq.
    destruct (decide (c = consumer)) as [->|Hne].
    + rewrite dict_get_set_eq in Hv. inversion Hv; subst v.
      rewrite (filter_length_gain
                 (λ p, consumer ∈ members graph p)
                 (λ p, consumer ∈ members (dict_set graph producer
                          (members graph producer ++ [consumer])) p)
                 (dict_keys graph) producer Hkeys1).
      * rewrite (Hdeg1 consumer d Hd). unfold producers_of. lia.
      * apply dict_get_keys. rewrite Hpres. by eexists.
      * done.
      * rewrite members_set, decide_True by done. apply elem_of_app. right.
        by apply list_elem_of_singleton.
      * intros x Hx. by rewrite members_set, decide_False.
    + rewrite dict_get_set_ne in Hv by done. rewrite (Hdeg1 c v Hv).
      unfold producers_of. do 2 f_equal. apply filter_ext_elem. intros x _.
      rewrite members_set. destruct (decide (x = producer)) as [->|]; [|done].
      rewrite elem_of_app, list_elem_of_singleton. tauto.
Qed.

Lemma add_edge_members p2p consumer inp st st' p c :
  add_edge p2p consumer inp st = Ok st' →
  c ∈ members st'.1 p ↔
  c ∈ members st.1 p ∨
  (c = consumer ∧ p ≠ "" ∧ p ≠ consumer ∧ dict_get p2p inp = Some p).
Proof.
  unfold add_edge. destruct (dict_get p2p inp) as [producer|] eqn:Hprod.
  2:{ intros [= <-]. split; [by left|]. by intros [?|(_ & _ & _ & ?)]. }
  case_bool_decide as Hguard.
  2:{ intros [= <-]. split; [by left|]. intros [?|(_ & ? & ? & [= <-])]; [done|].
      destruct Hguard. by split. }
  change (default [] (dict_get (graph_touch st.1 producer) producer))
    with (members (graph_touch st.1 producer) producer).
  rewrite members_touch.
  case_bool_decide as Hmem.
  - intros [= <-]. simpl. rewrite members_touch. split; [by left|].
    intros [?|(-> & _ & _ & [= <-])]; done.
  - destruct (dict_get st.2 consumer) as [d|]; [|done]. intros [= <-]. simpl.
    rewrite members_set, members_touch.
    destruct (decide (p = producer)) as [->|Hne].
    + rewrite elem_of_app, list_elem_of_singleton. destruct Hguard as [? ?].
      split; [|by intros [?|(-> & _)]; [left|right]].
      intros [?| ->]; [by left|]. by right.
    + split; [by left|]. intros [?|(_ & _ & _ & [= <-])]; done.
Qed.

Lemma edges_inner p2p consumer names : ∀ st st',
  rfold (add_edge p2p consumer) names st = Ok st' →
  ∀ p c, c ∈ members st'.1 p ↔
         c ∈ members st.1 p ∨
         (c = consumer ∧ p ≠ "" ∧ p ≠ consumer ∧
          ∃ inp, inp ∈ names ∧ dict_get p2p inp = Some p).
Proof.
  induction names as [|inp names IH]; intros st st' Hrun p c; simpl in Hrun.
  - inversion Hrun; subst. split; [by left|].
    intros [?|(_ & _ & _ & inp & Hinp & _)]; [done|]. by apply elem_of_nil in Hinp.
  - destruct (add_edge p2p consumer inp st) as [st1|] eqn:Hedge; [|done].
    simpl in Hrun. rewrite (IH st1 st' Hrun p c).
    rewrite (add_edge_members _ _ _ _ _ p c Hedge). split.
    + intros [[?|(-> & ? & ? & ?)]|(-> & ? & ? & inp' & ? & ?)].
      * by left.
      * right. split_and!; try done. exists inp. split; [by left|done].
      * right. split_and!; try done. exists inp'. split; [by right|done].
    + intros [?|(-> & ? & ? & inp' & [->|?]%elem_of_cons & ?)].
      * by left; left.
      * left. right. by split_and!.
      * right. split_and!; try done. by exists inp'.
Qed.

Lemma edges_outer p2p (Gs : list (nat * Gadget)) : ∀ st st',
  rfold (λ gG : nat * Gadget,
           rfold (add_edge p2p (gadget_id gG.2)) (input_names gG.2)) Gs st = Ok st' →
  ∀ p c, c ∈ members st'.1 p ↔
         c ∈ members st.1 p ∨
         (p ≠ "" ∧ p ≠ c ∧
          ∃ gG inp, gG ∈ Gs ∧ gadget_id gG.2 = c ∧ inp ∈ input_names gG.2 ∧
                    dict_get p2p inp = Some p).
Proof.
  induction Gs as [|gG Gs IH]; intros st st' Hrun p c; simpl in Hrun.
  - inversion Hrun; subst. split; [by left|].
    intros [?|(_ & _ & ? & ? & HgG & _)]; [done|]. by apply elem_of_nil in HgG.
  - destruct (rfold (add_edge p2p (gadget_id gG.2)) (input_names gG.2) st)
      as [st1|] eqn:Hin; [|done].
    simpl in Hrun. rewrite (IH st1 st' Hrun p c).
    rewrite (edges_inner _ _ _ _ _ Hin p c). split.
    + intros [[?|(-> & ? & ? & inp & ? & ?)]|(? & ? & gG' & inp & ? & ?)].
      * by left.
      * right. split_and!; try done. exists gG, inp. split; [by left|done].
      * right. split_and!; try done. exists gG', inp. split; [by right|done].
    + intros [?|(? & ? & gG' & inp & [->|?]%elem_of_cons & <- & ? & ?)].
      * by left; left.
      * left. right. split_and!; try done. by exists inp.
      * right. split_and!; try done. by exists gG', inp.
Qed.

Lemma in_degree_init_zero Gs c v :
  dict_get (in_degree_init Gs) c = Some v → v = 0%Z.
Proof.
  intros Hv%dict_get_elem.
  apply (assign_all_elem (λ gG : nat * Gadget, gadget_id gG.2) (λ _, 0%Z) Gs [] c v)
    in Hv as [Hv|(x & _ & _ & ->)]; [|done].
  by apply elem_of_nil in Hv.
Qed.

Lemma build_graph_edges_inv Gs st : build_graph Gs = Ok st → edges_inv st.
Proof.
  unfold build_graph. intros Hrun.
  eapply (rfold_preserves edges_inv); [|exact Hrun|].
  - intros gG s s' Hin. eapply (rfold_preserves edges_inv); [|exact Hin].
    intros inp s1 s2. apply add_edge_edges.
  - split_and!; simpl.
    + constructor.
    + intros p. constructor.
    + intros c v Hv. by rewrite (in_degree_init_zero Gs c v Hv).
Qed.

(** X14. The edge loop of [topological_sort] always completes.  After
    it, [graph[p]] holds [c] exactly when [p] is a non-empty identifier
    other than [c] and some gadget with identifier [c] reads a pleat name
    whose recorded producer is [p]; and the in-degree of every gadget
    identifier is the number of sets of the graph that hold it. *)
Theorem build_graph_edges (Gs : list (nat * Gadget)) :
  ∃ st,
    build_graph Gs = Ok st ∧
    (∀ p c, c ∈ members st.1 p ↔
            p ≠ "" ∧ p ≠ c ∧
            ∃ gG inp, gG ∈ Gs ∧ gadget_id gG.2 = c ∧ inp ∈ input_names gG.2 ∧
                      dict_get (pleat_to_producer_of Gs) inp = Some p) ∧
    (∀ c, c ∈ ids_of Gs →
          dict_get st.2 c = Some (Z.of_nat (length (producers_of st.1 c)))).
Proof.
  destruct (build_graph_inv Gs) as (st & Hb & Hkeys & _).
  exists st. split; [done|]. split.
  - intros p c. unfold build_graph in Hb.
    rewrite (edges_outer _ _ _ _ Hb p c). simpl. split; [|by right].
    intros [Hc|?]; [|done]. by apply elem_of_nil in Hc.
  - intros c Hc. destruct (build_graph_edges_inv Gs st Hb) as (_ & _ & Hdeg).
    apply in_degree_init_keys in Hc. rewrite <- Hkeys in Hc.
    apply dict_get_keys in Hc as [v Hv]. by rewrite Hv, (Hdeg c v Hv).
Qed.

(** ** The order respects the graph *)

(** One traversal of a set of distinct dependents lowers the in-degree of
    each of them by one and leaves the others. *)
Lemma visits_exact l : NoDup l → ∀ d q st',
  rfold visit l (d, q) = Ok st' →
  ∀ c, dict_get st'.1 c =
       (λ v, (v - (if decide (c ∈ l) then 1 else 0))%Z) <$> dict_get d c.
Proof.
  induction l as [|x l IH]; intros Hnd d q st' Hrun c; simpl in Hrun.
  - inversion Hrun; subst. cbn [fst].
    destruct (decide (c ∈ [])) as [Hin|_]; [by apply elem_of_nil in Hin|].
    destruct (dict_get d c); csimpl; [|done]. f_equal. lia.
  - apply NoDup_cons in Hnd as [Hx Hnd].
    unfold visit at 1 in Hrun. simpl in Hrun.
    destruct (dict_get d x) as [v|] eqn:Hv; [|done].
    assert (Hget : dict_get st'.1 c =
              (λ v, (v - (if decide (c ∈ l) then 1 else 0))%Z) <$>
                dict_get (dict_set d x (v - 1)%Z) c).
    { destruct (decide ((v - 1)%Z = 0%Z)); simpl in Hrun; by eapply IH. }
    rewrite Hget. destruct (decide (c = x)) as [->|Hne].
    + rewrite dict_get_set_eq, Hv. simpl. rewrite decide_False by done.
      rewrite decide_True by by left. f_equal. lia.
    + rewrite dict_get_set_ne by done. destruct (dict_get d c); [|done]. simpl.
      f_equal. destruct (decide (c ∈ l)) as [Hin|Hnin].
      * rewrite decide_True by by right. done.
      * rewrite decide_False; [done|]. by intros [?|?]%elem_of_cons.
Qed.

(** The in-degree of an identifier counts the sets that hold it and whose
    key has not been dequeued yet. *)
Definition counts (graph : list (string * list string)) (S : list string)
    (d : list (string * Z)) : Prop :=
  ∀ c v, dict_get d c = Some v →
    (v = Z.of_nat (length (producers_of graph c)) -
         Z.of_nat (length (filter (λ p, c ∈ members graph p) S)))%Z.

(** Every identifier dequeued comes after the keys of the sets that hold
    it. *)
Definition ordered (graph : list (string * list string)) (S : list string) : Prop :=
  ∀ i c p, S !! i = Some c → c ∈ members graph p → p ∈ take i S.

Lemma all_producers_done graph (S : list string) c :
  NoDup S →
  length (producers_of graph c) ≤ length (filter (λ p, c ∈ members graph p) S) →
  ∀ p, c ∈ members graph p → p ∈ S.
Proof.
  intros Hnd Hlen p Hp.
  assert (Hsub : filter (λ p, c ∈ members graph p) S ⊆+ producers_of graph c).
  { apply NoDup_submseteq; [by apply NoDup_filter|].
    intros x [Hx HxS]%list_elem_of_filter. apply list_elem_of_filter.
    split; [done|]. by eapply members_keys. }
  apply submseteq_length_Permutation in Hsub; [|done].
  assert (Hin : p ∈ producers_of graph c).
  { apply list_elem_of_filter. split; [done|]. by eapply members_keys. }
  rewrite <- Hsub in Hin. by apply list_elem_of_filter in Hin as [_ ?].
Qed.

Lemma ordered_snoc graph (S : list string) gid :
  ordered graph S → (∀ p, gid ∈ members graph p → p ∈ S) →
  ordered graph (S ++ [gid]).
Proof.
  intros Hord Hgid i c p Hi Hc.
  destruct (decide (i < length S)) as [Hlt|Hge].
  - rewrite lookup_app_l in Hi by done.
    rewrite take_app_le by lia. by eapply Hord.
  - rewrite lookup_app_r in Hi by lia.
    apply list_lookup_singleton_Some in Hi as [Hi ->].
    assert (i = length S) as -> by lia.
    rewrite take_app_length. by apply Hgid.
Qed.

Section Respects.

Variable set_iter : list string → list string.
Hypothesis set_iter_perm : ∀ s, set_iter s ≡ₚ s.

Lemma neighbours_members graph gid :
  neighbours set_iter graph gid ≡ₚ members graph gid.
Proof.
  unfold neighbours, members. destruct (dict_get graph gid); [|done].
  apply set_iter_perm.
Qed.

Lemma kahn_respects graph gm :
  (∀ p, NoDup (members graph p)) →
  ∀ fuel queue order d S order',
    kahn set_iter fuel graph gm queue order d = Ok order' →
    kahn_inv S (d, queue) →
    counts graph S d →
    ordered graph S →
    ∃ ids gs,
      order' = order ++ gs ∧
      Forall2 (λ x g, dict_get gm x = Some g) ids gs ∧
      NoDup (S ++ ids) ∧
      ordered graph (S ++ ids).
Proof.
  intros Hsets.
  induction fuel as [|fuel IH]; intros queue order d S order' Hrun Hinv Hcnt Hord;
    destruct queue as [|gid queue]; simpl in Hrun; try done.
  - inversion Hrun; subst. exists [], []. rewrite !app_nil_r.
    split_and!; [done|constructor| |done]. destruct Hinv as [Hnd _]. simpl in Hnd.
    by rewrite app_nil_r in Hnd.
  - inversion Hrun; subst. exists [], []. rewrite !app_nil_r.
    split_and!; [done|constructor| |done]. destruct Hinv as [Hnd _]. simpl in Hnd.
    by rewrite app_nil_r in Hnd.
  - destruct (dict_get gm gid) as [g|] eqn:Hg; [|done].
    destruct (rfold visit (neighbours set_iter graph gid) (d, queue)) as [st1|] eqn:Hv;
      simpl in Hrun; [|done].
    (* the producers of [gid] have been dequeued *)
    assert (Hgid : ∀ p, gid ∈ members graph p → p ∈ S).
    { destruct Hinv as [Hnd Hval]. simpl in Hnd, Hval.
      destruct (Hval gid) as (v & Hv0 & Hle).
      { apply elem_of_app. right. by left. }
      apply all_producers_done; [by apply NoDup_app in Hnd as (? & _)|].
      specialize (Hcnt gid v Hv0). lia. }
    apply kahn_inv_pop in Hinv.
    assert (Hinv1 : kahn_inv (S ++ [gid]) st1).
    { eapply (rfold_preserves (kahn_inv (S ++ [gid]))); [|exact Hv|exact Hinv].
      intros x s s'. apply visit_inv. }
    assert (Hnd_nb : NoDup (neighbours set_iter graph gid)).
    { rewrite neighbours_members. apply Hsets. }
    pose proof (visits_exact _ Hnd_nb d queue st1 Hv) as Hd1.
    destruct st1 as [d1 q1]. simpl in Hd1.
    assert (Hcnt1 : counts graph (S ++ [gid]) d1).
    { intros c v1 Hv1. rewrite Hd1 in Hv1.
      destruct (dict_get d c) as [v|] eqn:Hvc; [|done]. simpl in Hv1.
      inversion Hv1; subst v1. rewrite (Hcnt c v Hvc).
      rewrite filter_app, length_app, filter_cons, filter_nil.
      destruct (decide (c ∈ neighbours set_iter graph gid)) as [Hin|Hnin];
        rewrite neighbours_members in *.
      - rewrite decide_True by done. simpl. lia.
      - rewrite decide_False by done. simpl. lia. }
    destruct (IH q1 (order ++ [g]) d1 (S ++ [gid]) order' Hrun Hinv1 Hcnt1
                (ordered_snoc graph S gid Hord Hgid))
      as (ids & gs & -> & HF & Hnd & Hord').
    exists (gid :: ids), (g :: gs). split_and!.
    + by rewrite <- app_assoc.
    + by constructor.
    + by rewrite <- app_assoc in Hnd.
    + by rewrite <- app_assoc in Hord'.
Qed.

End Respects.

(** X15. The order returned by [topological_sort] is a topological order
    of the producer relation: a gadget that reads a pleat name comes after
    the gadget recorded as the producer of that name, provided the
    producer's identifier is not empty and is not the reader's own. *)
Theorem topological_sort_respects_producers (set_iter : list string → list string)
    (h : Heap) (self : nat) (N : Network) (Gs : list (nat * Gadget))
    (order : list nat) (gc : nat) (Gc : Gadget) (inp pid : string) :
  (∀ s, set_iter s ≡ₚ s) →
  network_objs h !! self = Some N →
  gadgets_of h (gadgets N) = Some Gs →
  topological_sort set_iter self h = (h, Ok order) →
  (gc, Gc) ∈ Gs →
  inp ∈ input_names Gc →
  dict_get (pleat_to_producer_of Gs) inp = Some pid →
  pid ≠ "" →
  pid ≠ gadget_id Gc →
  ∃ gp Gp l1 l2 l3,
    (gp, Gp) ∈ Gs ∧ gadget_id Gp = pid ∧
    order = l1 ++ gp :: l2 ++ gc :: l3.
Proof.
  intros Hperm HN HGs Htopo HGc Hinp Hprod Hne0 Hne.
  rewrite (topological_sort_unfold set_iter h self N Gs HN HGs) in Htopo.
  destruct (kahn_order_ok set_iter Hperm Gs) as (order0 & Hk & Hlen0 & _).
  rewrite Hk in Htopo. case_decide as Hlen; [done|].
  inversion Htopo; subst order0.
  pose proof (gadgets_of_length _ _ _ HGs) as HlenGs.
  pose proof (in_degree_init_length Gs) as Hle.
  assert (Hids : NoDup (ids_of Gs)).
  { destruct (decide (NoDup (ids_of Gs))) as [|Hdup]; [done|].
    pose proof (in_degree_init_length_dup Gs Hdup). lia. }
  destruct (build_graph_inv Gs) as (st & Hb & Hkeys & _).
  destruct (build_graph_edges_inv Gs st Hb) as (_ & Hsets & Hdeg).
  assert (Hedge : gadget_id Gc ∈ members st.1 pid).
  { unfold build_graph in Hb. apply (edges_outer _ _ _ _ Hb). right.
    split_and!; try done. by exists (gc, Gc), inp. }
  unfold kahn_order in Hk. rewrite Hb in Hk. simpl in Hk.
  assert (Hnd : NoDup (dict_keys st.2)).
  { rewrite Hkeys, in_degree_init_keys_order. apply first_occ_NoDup. }
  assert (Hcnt0 : counts st.1 [] st.2).
  { intros c v Hv. rewrite (Hdeg c v Hv), filter_nil. simpl. lia. }
  assert (Hord0 : ordered st.1 []) by (intros i c p Hi; done).
  destruct (kahn_respects set_iter Hperm st.1 (gadget_map_of Gs) Hsets _ _ []
              st.2 [] order Hk (initial_queue_inv _ Hnd) Hcnt0 Hord0)
    as (ids & gs & Horder & HF & Hnd_ids & Hord).
  simpl in Horder, Hnd_ids, Hord. subst gs.
  assert (Hsub : ∀ x, x ∈ ids → x ∈ ids_of Gs).
  { intros x Hx. apply list_elem_of_lookup in Hx as [i Hi].
    destruct (Forall2_lookup_l _ _ _ _ _ HF Hi) as (g & _ & Hg).
    apply gadget_map_of_keys, dict_get_keys. eauto. }
  assert (Hperm_ids : ids ≡ₚ ids_of Gs).
  { apply submseteq_length_Permutation; [by apply NoDup_submseteq|].
    rewrite (Forall2_length _ _ _ HF). unfold ids_of. rewrite length_fmap. lia. }
  set (f := λ x : string, default 0 (dict_get (gadget_map_of Gs) x)).
  assert (Horder : order = f <$> ids).
  { clear -HF. induction HF as [|x g ids gs Hx HF IH]; [done|].
    csimpl. unfold f at 1. rewrite Hx. simpl. by rewrite IH. }
  assert (Hf : ∀ gG : nat * Gadget, gG ∈ Gs → f (gadget_id gG.2) = gG.1).
  { intros gG HgG.
    assert (Hget : dict_get (gadget_map_of Gs) (gadget_id gG.2) = Some gG.1).
    { by apply (assign_all_get (λ gG : nat * Gadget, gadget_id gG.2)
                  (λ gG : nat * Gadget, gG.1) Gs [] gG Hids). }
    unfold f. by rewrite Hget. }
  (* the reader and its producer among the dequeued identifiers *)
  assert (Hc : gadget_id Gc ∈ ids).
  { rewrite Hperm_ids. unfold ids_of. apply list_elem_of_fmap. by exists (gc, Gc). }
  apply list_elem_of_lookup in Hc as [j Hj].
  pose proof (Hord j _ pid Hj Hedge) as Hp.
  apply list_elem_of_split in Hp as (k1 & k2 & Hsplit).
  pose proof (take_drop_middle ids j _ Hj) as Hmid. rewrite Hsplit in Hmid.
  remember (drop (S j) ids) as k3 eqn:Hk3. clear Hk3.
  assert (Hpid : pid ∈ ids_of Gs).
  { apply Hsub. rewrite <- Hmid. rewrite !elem_of_app, elem_of_cons. left. right.
    by left. }
  apply list_elem_of_fmap in Hpid as ([gp Gp] & Hpid_eq & HGp).
  simpl in Hpid_eq.
  pose proof (Hf _ HGp) as Hfp. pose proof (Hf _ HGc) as Hfc.
  simpl in Hfp, Hfc. rewrite <- Hpid_eq in Hfp.
  exists gp, Gp, (f <$> k1), (f <$> k2), (f <$> k3).
  split; [done|]. split; [done|].
  rewrite Horder, <- Hmid. rewrite fmap_app, fmap_cons, fmap_app, fmap_cons.
  rewrite Hfp, Hfc.
  by rewrite <- app_assoc.
Qed.

(** The gadget [and2] of the half adder, as attached. *)
Definition and2_attached : Gadget :=
  mkGadget AND "and2" ["or_temp"; "not_temp"] ["sum"] [3; 4] [5].

(** X15 on the half adder, with sets traversed in reverse: [and2] reads
    [not_temp], produced by [not1]. *)
Lemma topological_sort_respects_producers_witness :
  (∀ s : list string, reverse s ≡ₚ s) ∧
  topological_sort reverse 0 h_half_adder = (h_half_adder, Ok [0; 1; 4; 2; 3]) ∧
  (3, and2_attached) ∈ objs_of h_half_adder 0 ∧
  dict_get (pleat_to_producer_of (objs_of h_half_adder 0)) "not_temp" =
    Some "not1" ∧
  ∃ gp Gp l1 l2 l3,
    (gp, Gp) ∈ objs_of h_half_adder 0 ∧ gadget_id Gp = "not1" ∧
    [0; 1; 4; 2; 3] = l1 ++ gp :: l2 ++ 3 :: l3.
Proof.
  assert (HGc : (3, and2_attached) ∈ objs_of h_half_adder 0).
  { apply (list_elem_of_lookup_2 _ 3). vm_compute. reflexivity. }
  assert (Hinp : "not_temp" ∈ input_names and2_attached).
  { apply (list_elem_of_lookup_2 _ 1). reflexivity. }
  split; [exact reverse_Permutation|]. split; [vm_compute; reflexivity|].
  split; [exact HGc|]. split; [vm_compute; reflexivity|].
  apply (topological_sort_respects_producers reverse h_half_adder 0
           (net_of h_half_adder 0) (objs_of h_half_adder 0) [0; 1; 4; 2; 3]
           3 and2_attached "not_temp" "not1").
  - exact reverse_Permutation.
  - vm_compute. reflexivity.
  - vm_compute. reflexivity.
  - vm_compute. reflexivity.
  - exact HGc.
  - exact Hinp.
  - vm_compute. reflexivity.
  - discriminate.
  - discriminate.
Defined.

(** ** The networks of the gate tests *)

(** The gadget each of [test_not], [test_and], [test_or] and [test_nand]
    attaches. *)
Definition test_gadget (c : GadgetClass) : M nat :=
  match c with
  | NOT => NOTGadget "n1" "a" "out"
  | AND => ANDGadget "and1" "a" "b" "out"
  | OR => ORGadget "or1" "a" "b" "out"
  | NAND => NANDGadget "nand1" "a" "b" "out"
  end.

(** The network these tests build: the pleats [a], [b] ([a] alone for
    [NOT]) and [out], and the one gadget. *)
Definition test_network (c : GadgetClass) : M nat :=
  do net <- new_Network ;
  exec add_pleat net "a" None ;
  exec match c with NOT => ret tt | _ => add_pleat net "b" None end ;
  exec add_pleat net "out" None ;
  do g <- test_gadget c ;
  exec add_gadget net g ;
  ret net.

(** The dictionary the tests pass to [set_inputs]. *)
Definition test_inputs (c : GadgetClass) (sa sb : Signal) : list (string * Signal) :=
  match c with
  | NOT => [("a", sa)]
  | _ => [("a", sa); ("b", sb)]
  end.

Definition h_test (c : GadgetClass) : Heap := (test_network c empty_heap).1.

Ltac settle_single_gate Hperm :=
  erewrite bind_ok by (vm_compute; reflexivity);
  match goal with |- context [run_default ?it _ ?h] =>
    let Htopo := fresh "Htopo" in
    assert (Htopo : topological_sort it 0 h = (h, Ok [0]));
    [ transitivity (topological_sort (λ s, s) 0 h); [|vm_compute; reflexivity];
      eapply (run_ext_single_dependents it (λ s, s) h 0 _ _ _ 5);
      [exact Hperm|exact id_perm|reflexivity|reflexivity|reflexivity|reflexivity]
    | let Hrun := fresh "Hrun" in
      let k := fresh "k" in
      destruct (run_settles it h 0 (net_of h 0) [0] 5 Hperm
                  ltac:(vm_compute; reflexivity) ltac:(vm_compute; reflexivity)
                  Htopo ltac:(vm_compute; reflexivity) ltac:(lia))
        as (k & Hrun & _ & _);
      unfold run_default, run; erewrite bind_ok by exact Hrun;
      eexists _, _; split; [reflexivity|];
      clear; (split; [split_and!|]); vm_compute; reflexivity ]
  end.

(** X16. On the one-gadget network that each of the gate tests builds,
    in whatever state earlier calls left its pleats,
    [set_inputs] followed by [run()] returns under [out] the value of the
    gadget's function on the signals given, [None] when one of them is
    [None], and leaves the network as it was built. *)
Theorem test_network_table (set_iter : list string → list string)
    (c : GadgetClass) (h : Heap) (sa sb : Signal) :
  (∀ s, set_iter s ≡ₚ s) →
  same_shape (h_test c) h →
  ∃ h' snap,
    (exec set_inputs 0 (test_inputs c sa sb) ;
     run_default set_iter 0) h = (h', Ok snap) ∧
    same_shape (h_test c) h' ∧
    dict_get snap "out" =
      Some (gate_value c (match c with NOT => [sa] | _ => [sa; sb] end)).
Proof.
  intros Hperm (Hg & Hn & Hnames).
  destruct h as [ps gs ns].
  change (gs = gadget_objs (h_test c)) in Hg.
  change (ns = network_objs (h_test c)) in Hn.
  change (name <$> ps = name <$> pleat_objs (h_test c)) in Hnames.
  subst gs ns.
  destruct c.
  - change (name <$> ps = ["a"; "out"]) in Hnames.
    destruct ps as [|[n0 s0] [|[n1 s1] [|? ?]]]; try discriminate Hnames.
    injection Hnames as -> ->.
    destruct sa as [[|]|]; settle_single_gate Hperm.
  - change (name <$> ps = ["a"; "b"; "out"]) in Hnames.
    destruct ps as [|[n0 s0] [|[n1 s1] [|[n2 s2] [|? ?]]]]; try discriminate Hnames.
    injection Hnames as -> -> ->.
    destruct sa as [[|]|], sb as [[|]|]; settle_single_gate Hperm.
  - change (name <$> ps = ["a"; "b"; "out"]) in Hnames.
    destruct ps as [|[n0 s0] [|[n1 s1] [|[n2 s2] [|? ?]]]]; try discriminate Hnames.
    injection Hnames as -> -> ->.
    destruct sa as [[|]|], sb as [[|]|]; settle_single_gate Hperm.
  - change (name <$> ps = ["a"; "b"; "out"]) in Hnames.
    destruct ps as [|[n0 s0] [|[n1 s1] [|[n2 s2] [|? ?]]]]; try discriminate Hnames.
    injection Hnames as -> -> ->.
    destruct sa as [[|]|], sb as [[|]|]; settle_single_gate Hperm.
Qed.

(** X16 for [NAND] on the network as built, with both inputs true. *)
Lemma test_network_table_witness :
  (∀ s : list string, (λ s, s) s ≡ₚ s) ∧
  same_shape (h_test NAND) (h_test NAND) ∧
  ∃ h' snap,
    (exec set_inputs 0 [("a", Some true); ("b", Some true)] ;
     run_default (λ s, s) 0) (h_test NAND) = (h', Ok snap) ∧
    same_shape (h_test NAND) h' ∧
    dict_get snap "out" = Some (Some false).
Proof.
  split; [exact id_perm|]. split; [apply same_shape_refl|].
  exact (test_network_table (λ s, s) NAND (h_test NAND) (Some true) (Some true)
           id_perm (same_shape_refl (h_test NAND))).
Defined.

(** * Independence of the order in which sets are traversed *)

(** ** Passes over two schedules of the same gadgets *)







(** ** The identifiers dequeued do not depend on the traversal order *)




Section Schedule.

Variable set_iter : list string → list string.
Hypothesis set_iter_perm : ∀ s, set_iter s ≡ₚ s.


End Schedule.



(** ** Plain circuits *)

(** The name carried by the pleat at an address. *)
Definition name_at (h : Heap) (p : nat) : option string :=
  name <$> pleat_objs h !! p.

(** The pleats [ps] carry names taken from [names]. *)
Definition named (h : Heap) (names : list string) (ps : list nat) : Prop :=
  Forall (λ p, ∃ nm, name_at h p = Some nm ∧ nm ∈ names) ps.

(** A gadget with a non-empty identifier, connected to pleats that carry
    the names it declares, and that reads no name it writes. *)
Definition plain_gadget (h : Heap) (G : Gadget) : Prop :=
  gadget_id G ≠ "" ∧
  named h (input_names G) (inputs G) ∧
  named h (output_names G) (outputs G) ∧
  Forall (λ nm, nm ∉ output_names G) (input_names G).

(** A circuit of such gadgets in which no output name is declared
    twice. *)
Definition plain (h : Heap) (Gs : list (nat * Gadget)) : Prop :=
  NoDup (Gs ≫= λ gG, output_names gG.2) ∧
  Forall (λ gG : nat * Gadget, plain_gadget h gG.2) Gs.






Lemma plain_shape h h' Gs : same_shape h h' → plain h Gs → plain h' Gs.
Proof.
  intros (_ & _ & Hnames) [Hnd Hall]. split; [done|].
  assert (Hname : ∀ p, name_at h' p = name_at h p).
  { intros p. unfold name_at. by rewrite <- !list_lookup_fmap, Hnames. }
  eapply Forall_impl; [exact Hall|].
  intros gG (Hid & Hin & Hout & Hself). split_and!; try done.
  - eapply Forall_impl; [exact Hin|]. intros p (nm & Hp & Hnm).
    exists nm. by rewrite Hname.
  - eapply Forall_impl; [exact Hout|]. intros p (nm & Hp & Hnm).
    exists nm. by rewrite Hname.
Qed.






(** ** The result of [run] on plain circuits *)




(** ** Gadgets are connected to pleats that carry their names

    The part of [plain] that speaks of the pleats a gadget is connected to
    holds in every heap the constructors and methods produce: [connect_inputs]
    and [connect_outputs] take the pleats from the registry, under names of
    the gadget. *)









(** ** The scheduler and the traversal order of sets *)






